(** * Mesh operations of libgeometry (geometry/meshop.cpp)

    A shallow embedding of [clip], [removeNonManifoldEdges], [refine],
    [loadPly] and [saveAsPly], and the properties of the mesh-topology core
    and of the PLY reader and writer proved on it.

    Conventions of the embedding.
    - Indices ([size_type], [int], [uint]) are integers of [Z].  In
      [removeNonManifoldEdges] the conversion of a face's vertex index to
      the [int] of an edge key is written out ([to_int]).  In [refine] and
      [clip] the conversions between these C++ types are taken to preserve
      the value (array sizes stay below 2^31); the one unsigned wrap-around
      the code performs on small values, [tCoords.size()-1] on an empty
      array, is written out ([size_pred]).
    - [std::vector] is a list; [v[i]] out of range is undefined in C++ and
      reads a default element here ([vec_get]); a store out of range leaves
      the list unchanged.
    - [std::map] on vertex positions finds a key by the equivalence of its
      ordering; on scalars this is taken to be equality.  [std::map] on
      edge keys is a [gmap], [std::set] of face indices a [gset].
    - [shared_ptr<Edge>] is a handle into a store of records, so that the
      map and the heap of the refiner see the same record.
    - Floating-point scalars, the vector norm and the comparison of lengths
      come from outside the repository; they are the fields of the class
      [Numeric], under which everything is stated. *)

From Stdlib Require Import ZArith QArith Lia List Ascii String.
From Stdlib Require Import DecimalString DecimalN DecimalPos.
From stdpp Require Import base option list gmap sets relations.

Open Scope Z_scope.

(** ** Scalars and points *)

Class Numeric := {
  scalar : Type;
  scalar_eq_dec :: EqDecision scalar;
  s_zero : scalar;
  s_one : scalar;
  s_half : scalar;
  s_opp : scalar → scalar;
  s_add : scalar → scalar → scalar;
  s_sub : scalar → scalar → scalar;
  s_mul : scalar → scalar → scalar;
  s_div : scalar → scalar → scalar;
  s_ltb : scalar → scalar → bool;
  (* float, ublas::norm_2 and operator< on float *)
  flen : Type;
  norm_2 : scalar * scalar * scalar → flen;
  flen_ltb : flen → flen → bool
}.

(** [math::Point3] and [math::Point2]. *)
Abbreviation Point3 := (scalar * scalar * scalar)%type.
Abbreviation Point2 := (scalar * scalar)%type.

Section DataModel.
Context `{Numeric}.

Definition p3_zero : Point3 := (s_zero, s_zero, s_zero).
Definition p2_zero : Point2 := (s_zero, s_zero).

Definition p3_add (p q : Point3) : Point3 :=
  let '(x1, y1, z1) := p in let '(x2, y2, z2) := q in
  (s_add x1 x2, s_add y1 y2, s_add z1 z2).

Definition p3_sub (p q : Point3) : Point3 :=
  let '(x1, y1, z1) := p in let '(x2, y2, z2) := q in
  (s_sub x1 x2, s_sub y1 y2, s_sub z1 z2).

Definition p3_scale (p : Point3) (k : scalar) : Point3 :=
  let '(x, y, z) := p in (s_mul x k, s_mul y k, s_mul z k).

Definition p2_add (p q : Point2) : Point2 :=
  let '(x1, y1) := p in let '(x2, y2) := q in (s_add x1 x2, s_add y1 y2).

Definition p2_scale (p : Point2) (k : scalar) : Point2 :=
  let '(x, y) := p in (s_mul x k, s_mul y k).

(** ** Face and Mesh *)

(** Modelled from the spec: [Face] is declared in meshop.hpp, which is not
    among the sources: three vertex indices, three texture indices and the
    surface tag [imageId] (read by [saveAsObj]). *)
Record Face := mkFace {
  a : Z; b : Z; c : Z;
  ta : Z; tb : Z; tc : Z;
  imageId : Z
}.

#[export] Instance Face_eq_dec : EqDecision Face.
Proof. solve_decision. Defined.

(** Modelled from the spec: [Mesh] is declared in meshop.hpp. *)
Record Mesh := mkMesh {
  vertices : list Point3;
  tCoords : list Point2;
  faces : list Face
}.

Definition emptyMesh : Mesh := mkMesh [] [] [].

Definition defaultFace : Face := mkFace 0 0 0 0 0 0 0.

(** Modelled from the spec: [Face::degenerate]. *)
Definition degenerate (f : Face) : bool :=
  bool_decide (a f = b f) || bool_decide (b f = c f) || bool_decide (c f = a f).

Definition vsize (m : Mesh) : Z := Z.of_nat (length (vertices m)).
Definition tsize (m : Mesh) : Z := Z.of_nat (length (tCoords m)).
Definition fsize (m : Mesh) : Z := Z.of_nat (length (faces m)).

(** Modelled from the spec: [Mesh::good], all vertex indices within bounds. *)
Definition good (m : Mesh) (f : Face) : bool :=
  bool_decide (0 ≤ a f < vsize m) && bool_decide (0 ≤ b f < vsize m)
  && bool_decide (0 ≤ c f < vsize m).

(** Modelled from the spec: [Mesh::addFace] with three indices; the texture
    indices and the tag are value-initialised. *)
Definition addFace3 (m : Mesh) (a b c : Z) : Mesh :=
  mkMesh (vertices m) (tCoords m) (faces m ++ [mkFace a b c 0 0 0 0]).

(** Modelled from the spec: [Mesh::addFace] with vertex and texture indices;
    it takes no tag, the new face has the value-initialised one. *)
Definition addFace (m : Mesh) (a b c ta tb tc : Z) : Mesh :=
  mkMesh (vertices m) (tCoords m) (faces m ++ [mkFace a b c ta tb tc 0]).

(** [v[i]] of a vector. *)
Definition vec_get {A} (l : list A) (i : Z) (d : A) : A :=
  if bool_decide (0 ≤ i) then nth (Z.to_nat i) l d else d.

(** [v[i] = x]. *)
Definition vec_set {A} (l : list A) (i : Z) (x : A) : list A :=
  if bool_decide (0 ≤ i) then <[Z.to_nat i := x]> l else l.

(** [v.size() - 1] on [size_type]: wraps to 2^64 - 1 on the empty vector. *)
Definition size_pred {A} (l : list A) : Z :=
  (Z.of_nat (length l) - 1) mod 2 ^ 64.

(** The index invariant of the data model. *)
Definition face_vertices_ok (m : Mesh) (f : Face) : Prop :=
  0 ≤ a f < vsize m ∧ 0 ≤ b f < vsize m ∧ 0 ≤ c f < vsize m.

Definition face_textures_ok (m : Mesh) (f : Face) : Prop :=
  0 ≤ ta f < tsize m ∧ 0 ≤ tb f < tsize m ∧ 0 ≤ tc f < tsize m.

Definition mesh_inv (m : Mesh) : Prop :=
  Forall (face_vertices_ok m) (faces m)
  ∧ (tCoords m ≠ [] → Forall (face_textures_ok m) (faces m)).

(** ** removeNonManifoldEdges *)

Definition int_min : Z := - 2 ^ 31.
Definition int_max : Z := 2 ^ 31 - 1.

(** The conversion of an integer to [int]: the value of the range of [int]
    that is congruent to it modulo 2^32. *)
Definition to_int (v : Z) : Z := (v + 2 ^ 31) mod 2 ^ 32 - 2 ^ 31.

(** [EdgeKey(v1, v2)] on two [int]s: the endpoints in increasing order. *)
Definition EdgeKey (v1 v2 : Z) : Z * Z := (Z.min v1 v2, Z.max v1 v2).

(** The three keys of a face.  [EdgeKey] takes [int]s: the vertex indices
    of the face are converted where they are passed. *)
Definition edgeKeys (f : Face) : list (Z * Z) :=
  [EdgeKey (to_int (a f)) (to_int (b f));
   EdgeKey (to_int (b f)) (to_int (c f));
   EdgeKey (to_int (c f)) (to_int (a f))].

(** One round of the inner loop: find the key, insert a fresh [Edge] holding
    [fi] or add [fi] to the faces of the edge found. *)
Definition nm_addKey (fi : nat) (edgeMap : gmap (Z * Z) (gset nat)) (key : Z * Z)
  : gmap (Z * Z) (gset nat) :=
  match edgeMap !! key with
  | None => <[key := {[fi]}]> edgeMap
  | Some facesIndices => <[key := facesIndices ∪ {[fi]}]> edgeMap
  end.

(** The first loop, from face index [fi] on. *)
Fixpoint nm_countFaces (fi : nat) (fs : list Face) (edgeMap : gmap (Z * Z) (gset nat))
  : gmap (Z * Z) (gset nat) :=
  match fs with
  | [] => edgeMap
  | face :: rest =>
      nm_countFaces (S fi) rest (foldl (nm_addKey fi) edgeMap (edgeKeys face))
  end.

(** The second loop: the faces of every edge with more than two faces. *)
Definition nm_facesToOmit (edgeMap : gmap (Z * Z) (gset nat)) : gset nat :=
  map_fold (λ _ facesIndices omit,
              if bool_decide (2 < size facesIndices)%nat
              then facesIndices ∪ omit else omit) ∅ edgeMap.

(** The third loop, from face index [fi] on: the faces kept are added again
    through [addFace], in order. *)
Fixpoint nm_keepFaces (fi : nat) (fs : list Face) (omit : gset nat) (mesh : Mesh) : Mesh :=
  match fs with
  | [] => mesh
  | face :: rest =>
      nm_keepFaces (S fi) rest omit
        (if bool_decide (fi ∈ omit) then mesh
         else addFace mesh (a face) (b face) (c face) (ta face) (tb face) (tc face))
  end.

Definition removeNonManifoldEdges (omesh : Mesh) : Mesh :=
  let edgeMap := nm_countFaces 0 (faces omesh) ∅ in
  let facesToOmit := nm_facesToOmit edgeMap in
  nm_keepFaces 0 (faces omesh) facesToOmit
    (mkMesh (vertices omesh) (tCoords omesh) []).

(** ** clip *)

(** Modelled from the spec: [ClipPlane] and [ClipTriangle] are declared in
    triclip.hpp, which is not among the sources.  A plane is its normal
    and offset; of a triangle [clip] reads the three positions only. *)
Record ClipPlane := mkClipPlane { pl_a : scalar; pl_b : scalar; pl_c : scalar; pl_d : scalar }.

Record ClipTriangle := mkClipTriangle { pos0 : Point3; pos1 : Point3; pos2 : Point3 }.

(** [math::Extents3]: lower and upper corner. *)
Record Extents3 := mkExtents3 { ll : Point3; ur : Point3 }.

Definition coord (p : Point3) (i : nat) : scalar :=
  let '(x, y, z) := p in
  match i with O => x | S O => y | _ => z end.

(** [clipTriangles] of triclip.hpp, one half-space pass over the triangle
    list; [tinfos] is its in-out vector. *)
Class TriClip := {
  clipTriangles : list ClipTriangle → ClipPlane → list scalar
                  → list ClipTriangle * list scalar
}.

Section Clip.
Context `{TriClip}.

Definition clip_planes (extents : Extents3) : list ClipPlane :=
  [ mkClipPlane s_one s_zero s_zero (coord (ll extents) 0);
    mkClipPlane (s_opp s_one) s_zero s_zero (s_opp (coord (ur extents) 0));
    mkClipPlane s_zero s_one s_zero (coord (ll extents) 1);
    mkClipPlane s_zero (s_opp s_one) s_zero (s_opp (coord (ur extents) 1));
    mkClipPlane s_zero s_zero s_one (coord (ll extents) 2);
    mkClipPlane s_zero s_zero (s_opp s_one) (s_opp (coord (ur extents) 2)) ].

(** The triangle soup of the input mesh. *)
Definition clip_soup (omesh : Mesh) : list ClipTriangle :=
  map (λ face, mkClipTriangle (vec_get (vertices omesh) (a face) p3_zero)
                              (vec_get (vertices omesh) (b face) p3_zero)
                              (vec_get (vertices omesh) (c face) p3_zero))
      (faces omesh).

(** The six passes; each consumes the list the previous one produced. *)
Definition clip_passes (clipped : list ClipTriangle) (planes : list ClipPlane)
  : list ClipTriangle * list scalar :=
  foldl (λ st plane, clipTriangles st.1 plane st.2) (clipped, []) planes.

(** The welding state: [pMap] (entries in insertion order, found by key),
    [next] and the mesh under construction. *)
Record Weld := mkWeld {
  pMap : list (Point3 * Z);
  next : Z;
  pmesh : Mesh
}.

Definition pMap_find (pMap : list (Point3 * Z)) (p : Point3) : option Z :=
  snd <$> find (λ e, bool_decide (e.1 = p)) pMap.

(** One corner: [pMap.insert] keeps an entry already present; a new entry
    takes [next]; the position is pushed when its index is not yet a
    vertex of [pmesh]. *)
Definition weld_corner (w : Weld) (p : Point3) : Weld * Z :=
  let '(pMap', second, index) :=
    match pMap_find (pMap w) p with
    | Some i => (pMap w, false, i)
    | None => (pMap w ++ [(p, next w)], true, next w)
    end in
  let next' := if second then next w + 1 else next w in
  let pmesh' :=
    if bool_decide (vsize (pmesh w) ≤ index)
    then mkMesh (vertices (pmesh w) ++ [p]) (tCoords (pmesh w)) (faces (pmesh w))
    else pmesh w in
  (mkWeld pMap' next' pmesh', index).

(** One triangle of the clipped soup. *)
Definition weld_triangle (w : Weld) (triangle : ClipTriangle) : Weld :=
  let '(w0, i0) := weld_corner w (pos0 triangle) in
  let '(w1, i1) := weld_corner w0 (pos1 triangle) in
  let '(w2, i2) := weld_corner w1 (pos2 triangle) in
  if bool_decide (i0 ≠ i1) && bool_decide (i1 ≠ i2) && bool_decide (i0 ≠ i2)
  then mkWeld (pMap w2) (next w2) (addFace3 (pmesh w2) i0 i1 i2)
  else w2.

Definition weld (clipped : list ClipTriangle) : Weld :=
  foldl weld_triangle (mkWeld [] 0 emptyMesh) clipped.

Definition clip (omesh : Mesh) (extents : Extents3) : Mesh :=
  let clipped := (clip_passes (clip_soup omesh) (clip_planes extents)).1 in
  pmesh (weld clipped).

End Clip.

End DataModel.

(** ** std::push_heap and std::pop_heap

    The C++ standard fixes what these two establish (a max-heap under the
    comparison), not the arrangement; the binary-heap sifts below are the
    usual realisation on a vector. *)
Section Heap.
Context {A : Type} (comp : A → A → bool).

Definition swap (l : list A) (i j : nat) : list A :=
  match l !! i, l !! j with
  | Some x, Some y => <[i := y]> (<[j := x]> l)
  | _, _ => l
  end.

(** Move the element at [i] towards the root while its parent is smaller. *)
Fixpoint sift_up (fuel : nat) (l : list A) (i : nat) : list A :=
  match fuel with
  | O => l
  | S fuel' =>
      match i with
      | O => l
      | S _ =>
          let parent := ((i - 1) / 2)%nat in
          match l !! parent, l !! i with
          | Some p, Some x =>
              if comp p x then sift_up fuel' (swap l parent i) parent else l
          | _, _ => l
          end
      end
  end.

(** [std::push_heap(first, last, comp)]: the last element enters the heap. *)
Definition push_heap (l : list A) : list A :=
  sift_up (length l) l (length l - 1)%nat.

(** The child [cand] when it lies within the first [n] elements and is
    larger than the element at [cur], else [cur]. *)
Definition larger_child (l : list A) (n cur cand : nat) : nat :=
  match l !! cur, l !! cand with
  | Some x, Some y => if bool_decide (cand < n)%nat && comp x y then cand else cur
  | _, _ => cur
  end.

(** Move the element at [i] down within the first [n] elements. *)
Fixpoint sift_down (fuel : nat) (l : list A) (n i : nat) : list A :=
  match fuel with
  | O => l
  | S fuel' =>
      let largest := larger_child l n i (2 * i + 1) in
      let largest := larger_child l n largest (2 * i + 2) in
      if bool_decide (largest = i) then l
      else sift_down fuel' (swap l i largest) n largest
  end.

(** [std::pop_heap(first, last, comp)]: the root goes to the last place and
    the others form a heap again. *)
Definition pop_heap (l : list A) : list A :=
  let n := (length l - 1)%nat in
  sift_down n (swap l 0 n) n 0.

(** [v.pop_back()]. *)
Definition pop_back (l : list A) : list A := take (length l - 1) l.

End Heap.

(** ** refine *)

Section Refine.
Context `{Numeric}.

Inductive EdgeType := AB | BC | CA.

#[export] Instance EdgeType_eq_dec : EqDecision EdgeType.
Proof. solve_decision. Defined.

(** The refiner's [Edge]; the constructor sets [f1] and [f2] to -1 and
    leaves [et1] and [et2] unset ([AB] stands for the unset value). *)
Record Edge := mkEdge {
  v1 : Z; v2 : Z;
  f1 : Z; f2 : Z;
  et1 : EdgeType; et2 : EdgeType;
  length_ : flen
}.

Definition Edge_new (pv1 pv2 : Z) (plength : flen) : Edge :=
  mkEdge (Z.min pv1 pv2) (Z.max pv1 pv2) (-1) (-1) AB AB plength.

(** [Edge::addFace]: the order of the endpoints as the face presents them
    picks the slot. *)
Definition Edge_addFace (e : Edge) (pv1 pv2 fid : Z) (type : EdgeType) : Edge :=
  if bool_decide (pv1 < pv2)
  then mkEdge (v1 e) (v2 e) fid (f2 e) type (et2 e) (length_ e)
  else mkEdge (v1 e) (v2 e) (f1 e) fid (et1 e) type (length_ e).

(** [EdgeMap]: the edge records live in [store], one cell for each
    [make_shared]; [map] and [heap] hold handles into it, so a record
    changed through [map] is the one [heap] sees. *)
Record EdgeMap := mkEdgeMap {
  store : list Edge;
  emap : gmap (Z * Z) nat;
  heap : list nat
}.

Definition emptyEdgeMap : EdgeMap := mkEdgeMap [] ∅ [].

Definition nullEdge : Edge := Edge_new 0 0 (norm_2 p3_zero).

Definition deref (st : list Edge) (h : nat) : Edge := nth h st nullEdge.

Definition compareEdgePtr (st : list Edge) (x y : nat) : bool :=
  flen_ltb (length_ (deref st x)) (length_ (deref st y)).

Definition addFaceEdge (em : EdgeMap) (pv1 pv2 fid : Z) (type : EdgeType) (len : flen)
  : EdgeMap :=
  let key := EdgeKey pv1 pv2 in
  match emap em !! key with
  | Some h =>
      mkEdgeMap (alter (λ e, Edge_addFace e pv1 pv2 fid type) h (store em))
                (emap em) (heap em)
  | None =>
      let h := length (store em) in
      let st := store em ++ [Edge_addFace (Edge_new pv1 pv2 len) pv1 pv2 fid type] in
      mkEdgeMap st (<[key := h]> (emap em))
                (push_heap (compareEdgePtr st) (heap em ++ [h]))
  end.

(** [pop_top_edge]: a copy of the record at the root, which leaves the heap
    and the map. *)
Definition pop_top_edge (em : EdgeMap) : Edge * EdgeMap :=
  let edge := deref (store em) (nth 0 (heap em) 0%nat) in
  let hp := pop_back (pop_heap (compareEdgePtr (store em)) (heap em)) in
  (edge, mkEdgeMap (store em) (delete (EdgeKey (v1 edge) (v2 edge)) (emap em)) hp).

Definition EdgeMap_size (em : EdgeMap) : Z := Z.of_nat (length (heap em)).

Definition vertex (mesh : Mesh) (i : Z) : Point3 := vec_get (vertices mesh) i p3_zero.
Definition tCoord (mesh : Mesh) (i : Z) : Point2 := vec_get (tCoords mesh) i p2_zero.
Definition face (mesh : Mesh) (fid : Z) : Face := vec_get (faces mesh) fid defaultFace.

Definition addFaceEdges (em : EdgeMap) (mesh : Mesh) (fid : Z) : EdgeMap :=
  let f := face mesh fid in
  let e1Length := norm_2 (p3_sub (vertex mesh (a f)) (vertex mesh (b f))) in
  let em := addFaceEdge em (a f) (b f) fid AB e1Length in
  let e2Length := norm_2 (p3_sub (vertex mesh (b f)) (vertex mesh (c f))) in
  let em := addFaceEdge em (b f) (c f) fid BC e2Length in
  let e3Length := norm_2 (p3_sub (vertex mesh (c f)) (vertex mesh (a f))) in
  addFaceEdge em (c f) (a f) fid CA e3Length.

(** The texture midpoint pushed by [splitEdge] when the mesh has texture
    coordinates. *)
Definition push_tcMiddle (mesh : Mesh) (t1 t2 : Z) : Mesh :=
  if bool_decide (0 < tsize mesh)
  then mkMesh (vertices mesh)
              (tCoords mesh ++ [p2_scale (p2_add (tCoord mesh t1) (tCoord mesh t2)) s_half])
              (faces mesh)
  else mesh.

Definition set_face (mesh : Mesh) (fid : Z) (f : Face) : Mesh :=
  mkMesh (vertices mesh) (tCoords mesh) (vec_set (faces mesh) fid f).

(** The lambda [splitEdge]: face [fid] is cut across its edge [type] at the
    vertex [vid]; one half is appended, the other stays at [fid]. *)
Definition splitEdge (st : Mesh * EdgeMap) (fid : Z) (type : EdgeType) (vid : Z)
  : Mesh * EdgeMap :=
  let '(mesh, edgeMap) := st in
  let f := face mesh fid in
  let mesh :=
    match type with
    | AB =>
        let mesh := push_tcMiddle mesh (ta f) (tb f) in
        let g := face mesh fid in
        let mesh := addFace mesh (b g) (c g) vid (tb g) (tc g) (size_pred (tCoords mesh)) in
        let g := face mesh fid in
        let mesh := set_face mesh fid (mkFace (a g) vid (c g) (ta g) (tb g) (tc g) (imageId g)) in
        let g := face mesh fid in
        set_face mesh fid
          (mkFace (a g) (b g) (c g) (ta g) (size_pred (tCoords mesh)) (tc g) (imageId g))
    | BC =>
        let mesh := push_tcMiddle mesh (tb f) (tc f) in
        let g := face mesh fid in
        let mesh := addFace mesh (c g) (a g) vid (tc g) (ta g) (size_pred (tCoords mesh)) in
        let g := face mesh fid in
        let mesh := set_face mesh fid (mkFace (a g) (b g) vid (ta g) (tb g) (tc g) (imageId g)) in
        let g := face mesh fid in
        set_face mesh fid
          (mkFace (a g) (b g) (c g) (ta g) (tb g) (size_pred (tCoords mesh)) (imageId g))
    | CA =>
        let mesh := push_tcMiddle mesh (tc f) (ta f) in
        let g := face mesh fid in
        let mesh := addFace mesh (a g) (b g) vid (ta g) (tb g) (size_pred (tCoords mesh)) in
        let g := face mesh fid in
        let mesh := set_face mesh fid (mkFace vid (b g) (c g) (ta g) (tb g) (tc g) (imageId g)) in
        let g := face mesh fid in
        set_face mesh fid
          (mkFace (a g) (b g) (c g) (size_pred (tCoords mesh)) (tb g) (tc g) (imageId g))
    end in
  let edgeMap := addFaceEdges edgeMap mesh fid in
  let edgeMap := addFaceEdges edgeMap mesh (fsize mesh - 1) in
  (mesh, edgeMap).

(** The first loop of [refine]: the three edges of every face. *)
Definition refine_init (mesh : Mesh) : EdgeMap :=
  foldl (λ em i, addFaceEdges em mesh (Z.of_nat i)) emptyEdgeMap (seq 0 (length (faces mesh))).

Definition refine_continue (maxFacesCount : Z) (st : Mesh * EdgeMap) : bool :=
  bool_decide (fsize st.1 < maxFacesCount) && bool_decide (0 < EdgeMap_size st.2).

(** The body of the main loop. *)
Definition refine_step (st : Mesh * EdgeMap) : Mesh * EdgeMap :=
  let '(mesh, edgeMap) := st in
  let '(edge, edgeMap) := pop_top_edge edgeMap in
  let middle := p3_scale (p3_add (vertex mesh (v1 edge)) (vertex mesh (v2 edge))) s_half in
  let mesh := mkMesh (vertices mesh ++ [middle]) (tCoords mesh) (faces mesh) in
  let st := (mesh, edgeMap) in
  let st :=
    if bool_decide (0 ≤ f1 edge)
    then splitEdge st (f1 edge) (et1 edge) (Z.of_nat (length (vertices st.1)) - 1)
    else st in
  if bool_decide (0 ≤ f2 edge)
  then splitEdge st (f2 edge) (et2 edge) (Z.of_nat (length (vertices st.1)) - 1)
  else st.

(** The main loop; the second component counts the rounds (one split step
    each).  [None]: the fuel ran out with the loop condition still true. *)
Fixpoint refine_loop (fuel : nat) (maxFacesCount : Z) (st : Mesh * EdgeMap)
  : option (Mesh * EdgeMap * nat) :=
  if refine_continue maxFacesCount st then
    match fuel with
    | O => None
    | S fuel' =>
        match refine_loop fuel' maxFacesCount (refine_step st) with
        | Some (st', n) => Some (st', S n)
        | None => None
        end
    end
  else Some (st, O).

(** Every round adds a face, so [maxFacesCount - faces.size()] rounds are
    all the loop can make (see [refine_loop_total]). *)
Definition refine_fuel (mesh : Mesh) (maxFacesCount : Z) : nat :=
  Z.to_nat (maxFacesCount - fsize mesh).

Definition refine_run (omesh : Mesh) (maxFacesCount : Z) : option (Mesh * EdgeMap * nat) :=
  refine_loop (refine_fuel omesh maxFacesCount) maxFacesCount (omesh, refine_init omesh).

Definition refine (omesh : Mesh) (maxFacesCount : Z) : option Mesh :=
  (λ r, r.1.1) <$> refine_run omesh maxFacesCount.

End Refine.

(** ** The half-space pass, from the spec *)

Section TriClipSpec.
Context `{Numeric}.

Definition plane_dot (pl : ClipPlane) (p : Point3) : scalar :=
  let '(x, y, z) := p in
  s_add (s_add (s_mul (pl_a pl) x) (s_mul (pl_b pl) y)) (s_mul (pl_c pl) z).

(** [n·x + d] of the spec.  The fourth number of the planes [clip] builds is
    the bound along the normal (the lower corner for [+e_i], minus the upper
    corner for [-e_i]), so the offset [d] that keeps the box is its
    opposite. *)
Definition plane_eval (pl : ClipPlane) (p : Point3) : scalar :=
  s_add (plane_dot pl p) (s_opp (pl_d pl)).

(** A vertex is kept when [n·x + d >= 0]. *)
Definition outside (pl : ClipPlane) (p : Point3) : bool :=
  s_ltb (plane_eval pl p) s_zero.

(** [t = -(n·p0+d) / (n·(p1-p0))] and the point of the edge at [t]. *)
Definition crossing_t (pl : ClipPlane) (p0 p1 : Point3) : scalar :=
  s_div (s_opp (plane_eval pl p0)) (plane_dot pl (p3_sub p1 p0)).

Definition lerp3 (p0 p1 : Point3) (t : scalar) : Point3 :=
  p3_add p0 (p3_scale (p3_sub p1 p0) t).

(** Modelled from the spec: the pass of triclip.hpp over one triangle, which
    is not among the sources.  No vertex outside: unchanged; three outside:
    dropped; otherwise the triangle is cut along the two crossing edges, a
    triangle when one vertex is kept and a quad split along a diagonal when
    two are (scenario 1 of the spec).  The parameters [t] of the crossings
    are appended to [tinfos]. *)
Definition clipTriangle_spec (pl : ClipPlane) (tr : ClipTriangle)
  : list ClipTriangle * list scalar :=
  let cut1 (i o1 o2 : Point3) :=
    let t1 := crossing_t pl i o1 in
    let t2 := crossing_t pl i o2 in
    ([mkClipTriangle i (lerp3 i o1 t1) (lerp3 i o2 t2)], [t1; t2]) in
  let cut2 (o i1 i2 : Point3) :=
    let t1 := crossing_t pl o i1 in
    let t2 := crossing_t pl o i2 in
    ([mkClipTriangle (lerp3 o i1 t1) i1 i2;
      mkClipTriangle (lerp3 o i1 t1) i2 (lerp3 o i2 t2)], [t1; t2]) in
  let '(p0, p1, p2) := (pos0 tr, pos1 tr, pos2 tr) in
  match outside pl p0, outside pl p1, outside pl p2 with
  | false, false, false => ([tr], [])
  | true, true, true => ([], [])
  | false, true, true => cut1 p0 p1 p2
  | true, false, true => cut1 p1 p2 p0
  | true, true, false => cut1 p2 p0 p1
  | true, false, false => cut2 p0 p1 p2
  | false, true, false => cut2 p1 p2 p0
  | false, false, true => cut2 p2 p0 p1
  end.

Definition clipTriangles_spec (clipped : list ClipTriangle) (pl : ClipPlane)
    (tinfos : list scalar) : list ClipTriangle * list scalar :=
  foldl (λ acc tr, let r := clipTriangle_spec pl tr in (acc.1 ++ r.1, acc.2 ++ r.2))
        ([], tinfos) clipped.

#[export] Instance TriClip_spec : TriClip := {| clipTriangles := clipTriangles_spec |}.

End TriClipSpec.

(** ** Exact rationals as scalars

    An instance of [Numeric] on which the definitions evaluate: rationals in
    lowest terms, and the squared norm for the comparison of lengths. *)

#[export] Instance Q_eq_dec : EqDecision Q.
Proof. solve_decision. Defined.

Definition Qltb (x y : Q) : bool := (Qnum x * Zpos (Qden y) <? Qnum y * Zpos (Qden x))%Z.

#[export] Instance Q_numeric : Numeric := {|
  scalar := Q;
  s_zero := 0%Q;
  s_one := 1%Q;
  s_half := (1 # 2)%Q;
  s_opp x := Qred (Qopp x);
  s_add x y := Qred (Qplus x y);
  s_sub x y := Qred (Qminus x y);
  s_mul x y := Qred (Qmult x y);
  s_div x y := Qred (Qdiv x y);
  s_ltb := Qltb;
  flen := Q;
  norm_2 p := let '(x, y, z) := p in Qred (x * x + y * y + z * z)%Q;
  flen_ltb := Qltb
|}.

Definition QP (x y z : Z) : Q * Q * Q := (inject_Z x, inject_Z y, inject_Z z).

(** ** loadPly

    The file is the list of its characters ([None]: it cannot be opened).
    The stream throws on [failbit], so a failed extraction ends [loadPly]
    with an error. *)

Definition chars (s : string) : list ascii := list_ascii_of_string s.

(** [isspace] and [isdigit] of the C locale. *)
Definition isspace (ch : ascii) : bool :=
  let n := Z.of_N (N_of_ascii ch) in (n =? 32) || ((9 <=? n) && (n <=? 13)).

Definition isdigit (ch : ascii) : bool :=
  let n := Z.of_N (N_of_ascii ch) in (48 <=? n) && (n <=? 57).

Definition digit_val (ch : ascii) : Z := Z.of_N (N_of_ascii ch) - 48.

Fixpoint skipws (s : list ascii) : list ascii :=
  match s with
  | ch :: rest => if isspace ch then skipws rest else s
  | [] => []
  end.

Fixpoint read_digits (acc : Z) (s : list ascii) : Z * list ascii :=
  match s with
  | ch :: rest => if isdigit ch then read_digits (10 * acc + digit_val ch) rest else (acc, s)
  | [] => (acc, [])
  end.

(** A decimal number: an optional sign and at least one digit. *)
Definition read_dec (s : list ascii) : option (Z * list ascii) :=
  let '(neg, s1) :=
    match s with
    | ch :: rest =>
        if Ascii.eqb ch "-" then (true, rest)
        else if Ascii.eqb ch "+" then (false, rest) else (false, s)
    | [] => (false, s)
    end in
  match s1 with
  | ch :: _ =>
      if isdigit ch
      then let '(v, rest) := read_digits 0 s1 in Some (if neg : bool then - v else v, rest)
      else None
  | [] => None
  end.

Definition long_min : Z := - 2 ^ 63.
Definition long_max : Z := 2 ^ 63 - 1.

(** The [int] that [sscanf] stores for [%d].  For a number out of the range
    of [int] the C standard leaves the result undefined; the C library
    reads the number as a [long], which saturates, and stores its low 32
    bits: 2^32 + 5 gives 5, and 2^64 + 1 gives -1. *)
Definition scan_int (v : Z) : Z := to_int (Z.max long_min (Z.min long_max v)).

(** [operator>>(int&)]: white space is skipped; a number out of the range of
    [int] sets [failbit]. *)
Definition read_int (s : list ascii) : option (Z * list ascii) :=
  match read_dec (skipws s) with
  | Some (v, rest) =>
      if bool_decide (int_min ≤ v ≤ int_max) then Some (v, rest) else None
  | None => None
  end.

(** [operator>>(double&)] of the stream library. *)
Class StreamNum `{Numeric} := {
  read_double : list ascii → option (scalar * list ascii)
}.

(** The characters of a format matched one for one. *)
Fixpoint match_lit (lit s : list ascii) : option (list ascii) :=
  match lit, s with
  | [], _ => Some s
  | l :: lit', ch :: rest => if Ascii.eqb l ch then match_lit lit' rest else None
  | _ :: _, [] => None
  end.

(** [line.c_str()]: the characters before the first NUL. *)
Fixpoint c_str (s : list ascii) : list ascii :=
  match s with
  | ch :: rest => if Ascii.eqb ch zero then [] else ch :: c_str rest
  | [] => []
  end.

(** [sscanf(line.c_str(), "element <kind> %d", &n)]: the two words, white
    space in the format matching any white space of the line, then the
    number; [None] when nothing is assigned. *)
Definition scan_element (kind : string) (line : list ascii) : option Z :=
  s1 ← match_lit (chars "element") (c_str line);
  s2 ← match_lit (chars kind) (skipws s1);
  r ← read_dec (skipws s2);
  Some (scan_int r.1).

(** [getline(f, line)]: the line and the rest of the stream after its
    newline; no rest when the end of the file came first ([eofbit]). *)
Fixpoint getline (s : list ascii) : list ascii * option (list ascii) :=
  match s with
  | [] => ([], None)
  | ch :: rest =>
      if Ascii.eqb ch "010" then ([], Some rest)
      else let '(line, r) := getline rest in (ch :: line, r)
  end.

Inductive PlyError := CantOpen | StreamFailure | UnknownFormat | NotTriangle.

Inductive PlyResult (A : Type) :=
  | Ok (x : A)
  | Error (e : PlyError)
  | OutOfFuel.
Arguments Ok {A} x.
Arguments Error {A} e.
Arguments OutOfFuel {A}.

(** The header loop.  A [getline] at the end of the file extracts nothing
    and throws; one that meets the end of the file within a line leaves the
    loop before the line is scanned. *)
Fixpoint read_header (fuel : nat) (s : list ascii) (nvert ntris : Z)
  : PlyResult (Z * Z * list ascii) :=
  match fuel with
  | O => OutOfFuel
  | S fuel' =>
      match s with
      | [] => Error StreamFailure
      | _ :: _ =>
          match getline s with
          | (line, None) => Ok (nvert, ntris, [])
          | (line, Some rest) =>
              let nvert := default nvert (scan_element "vertex" line) in
              let ntris := default ntris (scan_element "face" line) in
              if bool_decide (line = chars "end_header") then Ok (nvert, ntris, rest)
              else read_header fuel' rest nvert ntris
          end
      end
  end.

Section LoadPly.
Context `{StreamNum}.

(** The loop over the points. *)
Fixpoint load_points (n : nat) (s : list ascii) (mesh : Mesh)
  : PlyResult (Mesh * list ascii) :=
  match n with
  | O => Ok (mesh, s)
  | S n' =>
      match read_double s with
      | None => Error StreamFailure
      | Some (x, s) =>
      match read_double s with
      | None => Error StreamFailure
      | Some (y, s) =>
      match read_double s with
      | None => Error StreamFailure
      | Some (z, s) =>
          load_points n' s (mkMesh (vertices mesh ++ [(x, y, z)]) (tCoords mesh) (faces mesh))
      end end end
  end.

(** The indices of [Face(a, b, c)] taken from [int]s. *)
Definition to_index (v : Z) : Z := v mod 2 ^ 64.

(** The loop over the triangles: four numbers are read, then the first is
    checked. *)
Fixpoint load_triangles (n : nat) (s : list ascii) (mesh : Mesh)
  : PlyResult (Mesh * list ascii) :=
  match n with
  | O => Ok (mesh, s)
  | S n' =>
      match read_int s with
      | None => Error StreamFailure
      | Some (k, s) =>
      match read_int s with
      | None => Error StreamFailure
      | Some (ia, s) =>
      match read_int s with
      | None => Error StreamFailure
      | Some (ib, s) =>
      match read_int s with
      | None => Error StreamFailure
      | Some (ic, s) =>
          if bool_decide (k = 3)
          then load_triangles n' s (addFace3 mesh (to_index ia) (to_index ib) (to_index ic))
          else Error NotTriangle
      end end end end
  end.

Definition loadPly (file : option (list ascii)) : PlyResult Mesh :=
  match file with
  | None => Error CantOpen
  | Some s =>
      match read_header (S (length s)) s (-1) (-1) with
      | Ok (nvert, ntris, body) =>
          if bool_decide (nvert < 0 ∨ ntris < 0) then Error UnknownFormat
          else
            match load_points (Z.to_nat nvert) body emptyMesh with
            | Ok (mesh, s1) =>
                match load_triangles (Z.to_nat ntris) s1 mesh with
                | Ok (mesh, _) => Ok mesh
                | Error e => Error e
                | OutOfFuel => OutOfFuel
                end
            | Error e => Error e
            | OutOfFuel => OutOfFuel
            end
      | Error e => Error e
      | OutOfFuel => OutOfFuel
      end
  end.

End LoadPly.

(** Numbers written as integers, for evaluation on the rationals. *)
#[export] Instance Q_StreamNum : StreamNum (H := Q_numeric) := {|
  read_double s := match read_dec (skipws s) with
                   | Some (v, rest) => Some (inject_Z v, rest)
                   | None => None
                   end
|}.

(** ** saveAsPly

    The file written is the list of its characters. *)

(** [operator<<] on an unsigned integer (a size, an index): its decimal
    digits. *)
Definition show_uint (n : Z) : list ascii :=
  chars (NilEmpty.string_of_uint (N.to_uint (Z.to_N n))).

(** [operator<<(double)] of the stream library, the float field set to
    [scientific]. *)
Class StreamOut `{Numeric} := {
  show_double : scalar → list ascii
}.

Definition eol : list ascii := ["010"%char].

Section SaveAsPly.
Context `{StreamOut}.

(** The first loop of [saveAsPly]: [validFaces] is an [unsigned]. *)
Definition validFaces (mesh : Mesh) : Z :=
  foldl (λ n f, if negb (degenerate f) && good mesh f then (n + 1) mod 2 ^ 32 else n)
        0 (faces mesh).

(** [saveAsPly]: the characters sent to the file.  (A stream that has
    failed makes the function throw after the last of them.) *)
Definition saveAsPly (mesh : Mesh) : list ascii :=
  let out :=
    chars "ply" ++ eol
    ++ chars "format ascii 1.0" ++ eol
    ++ chars "comment generated by window-mesh" ++ eol
    ++ chars "element vertex " ++ show_uint (vsize mesh) ++ eol
    ++ chars "property float x" ++ eol
    ++ chars "property float y" ++ eol
    ++ chars "property float z" ++ eol
    ++ chars "element face " ++ show_uint (validFaces mesh) ++ eol
    ++ chars "property list uchar int vertex_indices" ++ eol
    ++ chars "end_header" ++ eol in
  let out :=
    foldl (λ out vertex,
             out ++ show_double vertex.1.1 ++ chars " " ++ show_double vertex.1.2
                 ++ chars " " ++ show_double vertex.2 ++ eol)
          out (vertices mesh) in
  foldl (λ out face,
           if degenerate face then out
           else if negb (good mesh face) then out
           else out ++ chars "3 " ++ show_uint (a face) ++ chars " " ++ show_uint (b face)
                    ++ chars " " ++ show_uint (c face) ++ eol)
        out (faces mesh).

End SaveAsPly.

(** An integer with its sign. *)
Definition show_int (z : Z) : list ascii :=
  if z <? 0 then "-"%char :: show_uint (- z) else show_uint z.

(** Rationals written as integers, and as a fraction when they are none,
    for evaluation. *)
#[export] Instance Q_StreamOut : StreamOut (H := Q_numeric) := {|
  show_double q :=
    show_int (Qnum q)
    ++ (if Pos.eqb (Qden q) 1 then [] else "/"%char :: show_uint (Zpos (Qden q)))
|}.

(** * Definitions for the statements

    What the theorems below speak of: the edge incidence of the mesh, the
    coherence of the welding state and of the edge structure, the links of
    the edge records, and the readers the PLY loader is compared with. *)

Section SpecDefs.
Context `{Numeric}.

(** The faces recorded for a key, empty when the key is absent. *)
Definition faces_at (edgeMap : gmap (Z * Z) (gset nat)) (k : Z * Z) : gset nat :=
  default ∅ (edgeMap !! k).

(** A face as [addFace] stores it again: the indices, with the tag reset. *)
Definition untag (f : Face) : Face := mkFace (a f) (b f) (c f) (ta f) (tb f) (tc f) 0.

(** The faces kept, as a list: those whose index is not in [omit]. *)
Fixpoint kept_from (fi : nat) (fs : list Face) (omit : gset nat) : list Face :=
  match fs with
  | [] => []
  | f :: rest => if bool_decide (fi ∈ omit) then kept_from (S fi) rest omit
                 else f :: kept_from (S fi) rest omit
  end.

(** Two unordered pairs of endpoints are the same edge. *)
Definition same_edge (u v x y : Z) : Prop := (u = x ∧ v = y) ∨ (u = y ∧ v = x).

(** The face has the undirected edge [{u, v}] among its three edges. *)
Definition incident (u v : Z) (f : Face) : Prop :=
  same_edge u v (a f) (b f) ∨ same_edge u v (b f) (c f) ∨ same_edge u v (c f) (a f).

#[export] Instance incident_dec u v f : Decision (incident u v f).
Proof. unfold incident, same_edge. apply _. Defined.

(** The number of faces with the undirected edge [{u, v}]. *)
Definition edge_faces (fs : list Face) (u v : Z) : nat :=
  length (filter (incident u v) fs).

(** A face is marked for removal when one of its edges has three or more
    incident faces. *)
Definition marked (fs : list Face) (f : Face) : Prop :=
  (2 < edge_faces fs (a f) (b f))%nat
  ∨ (2 < edge_faces fs (b f) (c f))%nat
  ∨ (2 < edge_faces fs (c f) (a f))%nat.

#[export] Instance marked_dec fs f : Decision (marked fs f).
Proof. unfold marked. apply _. Defined.

(** The vertex indices of the faces fit an [int]. *)
Definition int_indices (fs : list Face) : Prop :=
  Forall (λ f, 0 ≤ a f ≤ int_max ∧ 0 ≤ b f ≤ int_max ∧ 0 ≤ c f ≤ int_max) fs.

(** The number of faces with [k] among the three keys of [edgeKeys]. *)
Definition incident_count (fs : list Face) (k : Z * Z) : nat :=
  length (filter (λ f, k ∈ edgeKeys f) fs).

(** One of the keys of the face has three or more faces. *)
Definition key_marked (fs : list Face) (f : Face) : Prop :=
  Exists (λ k, (2 < incident_count fs k)%nat) (edgeKeys f).

#[export] Instance key_marked_dec fs f : Decision (key_marked fs f).
Proof. unfold key_marked. apply _. Defined.

(** The indices, from [fi] on, of the faces with the edge key [k]. *)
Fixpoint indices_with (k : Z * Z) (fi : nat) (fs : list Face) : list nat :=
  match fs with
  | [] => []
  | f :: rest =>
      if decide (k ∈ edgeKeys f) then fi :: indices_with k (S fi) rest
      else indices_with k (S fi) rest
  end.

(** The entries of [pMap] for a vertex list: position [i] holds index [i]. *)
Definition pMap_of (k : nat) (vs : list Point3) : list (Point3 * Z) :=
  imap (λ i p, (p, Z.of_nat (k + i))) vs.

(** The welding state is coherent: [next] is the number of vertices, [pMap]
    sends each vertex to its place, and no position occurs twice. *)
Definition weld_ok (w : Weld) : Prop :=
  next w = vsize (pmesh w)
  ∧ pMap w = pMap_of 0 (vertices (pmesh w))
  ∧ NoDup (vertices (pmesh w))
  ∧ tCoords (pmesh w) = [].

(** The vertex list after meeting the positions [l] in order, from [seen]:
    a position not seen before is appended. *)
Fixpoint first_seen (seen l : list Point3) : list Point3 :=
  match l with
  | [] => seen
  | p :: rest => first_seen (if bool_decide (p ∈ seen) then seen else seen ++ [p]) rest
  end.

Definition corners (ts : list ClipTriangle) : list Point3 :=
  foldr (λ t acc, pos0 t :: pos1 t :: pos2 t :: acc) [] ts.

(** The index of a position in a vertex list (-1 when absent). *)
Definition index_of (vs : list Point3) (p : Point3) : Z :=
  match list_find (λ q, q = p) vs with
  | Some (i, _) => Z.of_nat i
  | None => -1
  end.

(** The face a clipped triangle yields over the welded vertices [vs]: the
    indices of its corners when they are pairwise distinct, else none. *)
Definition welded_face (vs : list Point3) (t : ClipTriangle) : option Face :=
  let i0 := index_of vs (pos0 t) in
  let i1 := index_of vs (pos1 t) in
  let i2 := index_of vs (pos2 t) in
  if bool_decide (i0 ≠ i1) && bool_decide (i1 ≠ i2) && bool_decide (i0 ≠ i2)
  then Some (mkFace i0 i1 i2 0 0 0 0) else None.

(** An edge record in the heap: some slot is filled, the slots name faces
    below [fsz], and the endpoints are ordered. *)
Definition edge_ok (fsz : Z) (e : Edge) : Prop :=
  (0 ≤ f1 e ∨ 0 ≤ f2 e) ∧ f1 e < fsz ∧ f2 e < fsz ∧ v1 e ≤ v2 e.

(** The edge structure is coherent: every handle of the heap is a record of
    the store, and every entry of the map is a handle of the heap whose
    record has the key's endpoints. *)
Definition edgeMap_ok (fsz : Z) (em : EdgeMap) : Prop :=
  (∀ h, h ∈ heap em → ∃ e, store em !! h = Some e ∧ edge_ok fsz e)
  ∧ (∀ k h, emap em !! k = Some h →
       h ∈ heap em ∧ ∃ e, store em !! h = Some e ∧ (v1 e, v2 e) = k).

(** The index invariant of one face against the sizes [nv] and [nt]. *)
Definition face_in (nv nt : Z) (f : Face) : Prop :=
  (0 ≤ a f < nv ∧ 0 ≤ b f < nv ∧ 0 ≤ c f < nv)
  ∧ (0 < nt → 0 ≤ ta f < nt ∧ 0 ≤ tb f < nt ∧ 0 ≤ tc f < nt).

(** A mesh with [nv] vertices and [nt] texture coordinates whose faces are
    all within these sizes. *)
Definition mesh_in (nv nt : Z) (m : Mesh) : Prop :=
  vsize m = nv ∧ tsize m = nt ∧ Forall (face_in nv nt) (faces m).

(** The endpoints of an edge of a face, in the order [addFaceEdges]
    presents them. *)
Definition face_edge (f : Face) (t : EdgeType) : Z * Z :=
  match t with
  | AB => (a f, b f)
  | BC => (b f, c f)
  | CA => (c f, a f)
  end.

(** The slot of a record that a face presenting the endpoints as
    [(pv1, pv2)] fills. *)
Definition slot (e : Edge) (pv1 pv2 : Z) : Z * EdgeType :=
  if bool_decide (pv1 < pv2) then (f1 e, et1 e) else (f2 e, et2 e).

(** The record the map holds for an edge. *)
Definition edge_record (em : EdgeMap) (pv1 pv2 : Z) : option Edge :=
  h ← emap em !! EdgeKey pv1 pv2; store em !! h.

(** An edge is linked when the map holds a record for it whose slot names
    a face for which [G] holds and which presents this edge. *)
Definition linked (mesh : Mesh) (G : Z → Prop) (em : EdgeMap) (pq : Z * Z) : Prop :=
  ∃ e, edge_record em pq.1 pq.2 = Some e
       ∧ G (slot e pq.1 pq.2).1
       ∧ face_edge (face mesh (slot e pq.1 pq.2).1) (slot e pq.1 pq.2).2 = pq.

(** The vertex indices of a face. *)
Definition abc (f : Face) : Z * Z * Z := (a f, b f, c f).

(** The faces of a mesh denote texture coordinates of its [tCoords]. *)
Definition carries_texture (m : Mesh) : Prop :=
  Forall (λ f, is_Some (tCoords m !! Z.to_nat (ta f))
               ∧ is_Some (tCoords m !! Z.to_nat (tb f))
               ∧ is_Some (tCoords m !! Z.to_nat (tc f))) (faces m).

Section ClipDefs.
Context `{!TriClip}.

Definition clipped_soup (m : Mesh) (e : Extents3) : list ClipTriangle :=
  (clip_passes (clip_soup m) (clip_planes e)).1.

End ClipDefs.

End SpecDefs.

(** The lines the header loop scans: the lines ended by a newline, up to
    and with the first [end_header]. *)
Fixpoint header_lines_from (cur : list ascii) (s : list ascii) : list (list ascii) :=
  match s with
  | [] => []
  | ch :: rest =>
      if Ascii.eqb ch "010" then
        let line := rev cur in
        line :: (if bool_decide (line = chars "end_header") then []
                 else header_lines_from [] rest)
      else header_lines_from (ch :: cur) rest
  end.

Definition header_lines (s : list ascii) : list (list ascii) := header_lines_from [] s.

(** The counts after the lines: a line that declares a count replaces it. *)
Definition scan_counts (lines : list (list ascii)) (nvert ntris : Z) : Z * Z :=
  foldl (λ n line, (default n.1 (scan_element "vertex" line),
                    default n.2 (scan_element "face" line)))
        (nvert, ntris) lines.

Section ReaderDefs.
Context `{StreamNum}.

(** Reading [n] points, as a list. *)
Fixpoint read_points (n : nat) (s : list ascii) : option (list Point3 * list ascii) :=
  match n with
  | O => Some ([], s)
  | S n' =>
      '(x, s) ← read_double s;
      '(y, s) ← read_double s;
      '(z, s) ← read_double s;
      '(ps, s) ← read_points n' s;
      Some ((x, y, z) :: ps, s)
  end.

(** Reading [n] records [3 a b c], as a list of index triples. *)
Fixpoint read_triangles (n : nat) (s : list ascii) : option (list (Z * Z * Z) * list ascii) :=
  match n with
  | O => Some ([], s)
  | S n' =>
      '(k, s) ← read_int s;
      '(ia, s) ← read_int s;
      '(ib, s) ← read_int s;
      '(ic, s) ← read_int s;
      if bool_decide (k = 3)
      then '(ts, s) ← read_triangles n' s; Some ((ia, ib, ic) :: ts, s)
      else None
  end.

(** The face [Face(a, b, c)] of an index triple. *)
Definition triangle_face (t : Z * Z * Z) : Face :=
  mkFace (to_index t.1.1) (to_index t.1.2) (to_index t.2) 0 0 0 0.

End ReaderDefs.

(** ** Further notions: heaps, manifold face lists, the growth of the
    arrays under [refine], the records of the refiner and the bisection of
    an edge, the text of a PLY file *)

Section HeapOrderDefs.
Context {A : Type} (comp : A → A → bool).

(** The comparison is a strict weak ordering, as the heap functions of the
    standard library require. *)
Definition strict_weak (comp : A → A → bool) : Prop :=
  (∀ x y, comp x y = true → comp y x = false)
  ∧ (∀ x y z, comp x z = true → comp x y = true ∨ comp y z = true).

(** No element among the first [n] is larger than its parent. *)
Definition is_heap_upto (l : list A) (n : nat) : Prop :=
  ∀ (j : nat) x p, (0 < j < n)%nat →
    l !! j = Some x → l !! ((j - 1) / 2)%nat = Some p → comp p x = false.

Definition is_heap (l : list A) : Prop := is_heap_upto l (length l).

(** A heap but for the element at [i], which may be larger than its
    parent. *)
Definition heap_but_up (l : list A) (i : nat) : Prop :=
  (∀ (j : nat) x p, (0 < j)%nat → j ≠ i →
     l !! j = Some x → l !! ((j - 1) / 2)%nat = Some p → comp p x = false)
  ∧ (∀ (c : nat) x g, (0 < i)%nat → (0 < c)%nat → ((c - 1) / 2)%nat = i →
       l !! c = Some x → l !! ((i - 1) / 2)%nat = Some g → comp g x = false).

(** A heap on the first [n] elements but for the element at [i], which may
    be smaller than its children. *)
Definition heap_but_down (l : list A) (n i : nat) : Prop :=
  (∀ (j : nat) x p, (0 < j < n)%nat → ((j - 1) / 2)%nat ≠ i →
     l !! j = Some x → l !! ((j - 1) / 2)%nat = Some p → comp p x = false)
  ∧ (∀ (c : nat) x g, (0 < i)%nat → (0 < c < n)%nat → ((c - 1) / 2)%nat = i →
       l !! c = Some x → l !! ((i - 1) / 2)%nat = Some g → comp g x = false).

End HeapOrderDefs.

Section MoreSpecDefs.
Context `{Numeric}.

(** No undirected edge has more than two incident faces. *)
Definition manifold (fs : list Face) : Prop :=
  ∀ u v, (edge_faces fs u v ≤ 2)%nat.

(** No key of [edgeKeys] has more than two faces. *)
Definition key_manifold (fs : list Face) : Prop :=
  ∀ k, (incident_count fs k ≤ 2)%nat.

(** How the arrays of a refined mesh extend those of the mesh it came from. *)
Definition extends_arrays (m r : Mesh) : Prop :=
  let d := (length (faces r) - length (faces m))%nat in
  (length (faces m) ≤ length (faces r))%nat
  ∧ (∃ vs, vertices r = vertices m ++ vs)
  ∧ (∃ ts, tCoords r = tCoords m ++ ts
           ∧ length ts = if bool_decide (tCoords m = []) then 0%nat else d)
  ∧ map imageId (faces r) = map imageId (faces m) ++ replicate d 0.

Definition untextured (mesh : Mesh) : Prop :=
  tCoords mesh = []
  ∧ Forall (λ f, ta f = 0 ∧ tb f = 0 ∧ tc f = 0 ∧ imageId f = 0) (faces mesh).

(** The record the map holds for a key, through its pointer. *)
Definition rec_at (em : EdgeMap) (k : Z * Z) : option Edge :=
  h ← emap em !! k; store em !! h.

(** The map and the heap hold the same pointers, one for each key, and a
    record is filed under its own end points. *)
Definition em_wf (em : EdgeMap) : Prop :=
  NoDup (heap em)
  ∧ (∀ h, h ∈ heap em →
       ∃ e, store em !! h = Some e ∧ v1 e ≤ v2 e ∧ emap em !! (v1 e, v2 e) = Some h)
  ∧ (∀ k h, emap em !! k = Some h →
       h ∈ heap em ∧ ∃ e, store em !! h = Some e ∧ (v1 e, v2 e) = k).

(** Every record of the map joins two different vertices, has a face on one
    side at least, and [Q] holds of each side that has one: of the edge in
    the direction of that side, and of the face and edge type recorded. *)
Definition slots_sat (Q : Z * Z → Z * EdgeType → Prop) (em : EdgeMap) : Prop :=
  ∀ k e, rec_at em k = Some e →
    v1 e < v2 e
    ∧ (0 ≤ f1 e ∨ 0 ≤ f2 e)
    ∧ (0 ≤ f1 e → Q (v1 e, v2 e) (f1 e, et1 e))
    ∧ (0 ≤ f2 e → Q (v2 e, v1 e) (f2 e, et2 e)).

(** Face [g] of the mesh presents the directed edge [pq] as its edge [t]. *)
Definition presents (mesh : Mesh) (pq : Z * Z) (s : Z * EdgeType) : Prop :=
  0 ≤ s.1 < fsize mesh ∧ face_edge (face mesh s.1) s.2 = pq.

(** No face is degenerate, and every vertex index is within the vertex
    array. *)
Definition proper (mesh : Mesh) : Prop :=
  Forall (λ f, degenerate f = false ∧ face_vertices_ok mesh f) (faces mesh).

(** The state of the refiner between two rounds. *)
Definition refiner_ok (st : Mesh * EdgeMap) : Prop :=
  proper st.1 ∧ edgeMap_ok (fsize st.1) st.2 ∧ em_wf st.2
  ∧ slots_sat (presents st.1) st.2.

(** Triangles up to rotation. *)
Definition rot (t : Z * Z * Z) : Z * Z * Z := let '(x, y, z) := t in (y, z, x).

Definition same_triangle (s t : Z * Z * Z) : Prop :=
  s = t ∨ s = rot t ∨ s = rot (rot t).

(** One triangle of [F] with the directed edge [(p, q)] and the apex [z] is
    replaced by [(p, m, z)], and [(m, q, z)] is added at the end. *)
Definition face_bisected (F F' : list (Z * Z * Z)) (p q m : Z) : Prop :=
  ∃ (g : nat) tr z h1 h2,
    F !! g = Some tr ∧ same_triangle tr (p, q, z)
    ∧ same_triangle h1 (p, m, z) ∧ same_triangle h2 (m, q, z)
    ∧ F' = <[g := h1]> F ++ [h2].

(** The edge between the vertices [i] and [j] is bisected: the vertex added
    is their middle, and the face with the edge from [i] to [j], the face
    with the edge from [j] to [i], or one of each, is cut in two through
    it. *)
Definition bisect_at (i j : Z) (mesh mesh' : Mesh) : Prop :=
  0 ≤ i < vsize mesh ∧ 0 ≤ j < vsize mesh ∧ i ≠ j
  ∧ vertices mesh'
    = vertices mesh ++ [p3_scale (p3_add (vertex mesh i) (vertex mesh j)) s_half]
  ∧ let F := map abc (faces mesh) in
    let F' := map abc (faces mesh') in
    let m := vsize mesh in
    face_bisected F F' i j m ∨ face_bisected F F' j i m
    ∨ ∃ F1, face_bisected F F1 i j m ∧ face_bisected F1 F' j i m.

Definition bisect (mesh mesh' : Mesh) : Prop := ∃ i j, bisect_at i j mesh mesh'.

(** The face and edge type the map has on record for a directed edge. *)
Definition slot_of (em : EdgeMap) (pq : Z * Z) : option (Z * EdgeType) :=
  e ← rec_at em (EdgeKey pq.1 pq.2);
  let s := slot e pq.1 pq.2 in
  if bool_decide (0 ≤ s.1) then Some s else None.

(** Every edge of every face is on record as of that face, but for the
    edges between the two vertices of [k0]. *)
Definition complete_except (k0 : Z * Z) (mesh : Mesh) (em : EdgeMap) : Prop :=
  ∀ s, 0 ≤ s.1 < fsize mesh →
    let pq := face_edge (face mesh s.1) s.2 in
    EdgeKey pq.1 pq.2 ≠ k0 → slot_of em pq = Some s.

Definition complete (mesh : Mesh) (em : EdgeMap) : Prop :=
  ∀ s, 0 ≤ s.1 < fsize mesh → slot_of em (face_edge (face mesh s.1) s.2) = Some s.

(** No directed edge belongs to two faces: the faces on the two sides of an
    edge run through it in opposite directions, and there are no more. *)
Definition oriented (mesh : Mesh) : Prop :=
  ∀ s s' : Z * EdgeType,
    0 ≤ s.1 < fsize mesh → 0 ≤ s'.1 < fsize mesh →
    face_edge (face mesh s.1) s.2 = face_edge (face mesh s'.1) s'.2 → s = s'.

(** The vertices of a face, as a set. *)
Definition corners_of (f : Face) : gset Z := {[a f; b f; c f]}.

(** No two faces have the same three vertices. *)
Definition simplicial (mesh : Mesh) : Prop :=
  ∀ g g', 0 ≤ g < fsize mesh → 0 ≤ g' < fsize mesh →
    corners_of (face mesh g) = corners_of (face mesh g') → g = g'.

(** The vertex of a face across its edge [t]. *)
Definition apex (f : Face) (t : EdgeType) : Z :=
  match t with AB => c f | BC => a f | CA => b f end.

(** A bisection that leaves no face on the bisected edge. *)
Definition bisect_clean (mesh mesh' : Mesh) : Prop :=
  ∃ i j, bisect_at i j mesh mesh'
    ∧ ∀ g t, 0 ≤ g < fsize mesh' →
        face_edge (face mesh' g) t ≠ (i, j) ∧ face_edge (face mesh' g) t ≠ (j, i).

(** The state of the refiner within a round, after the edge [k0] has been
    taken from the heap. *)
Definition mid_round (k0 : Z * Z) (vid : Z) (st : Mesh * EdgeMap) : Prop :=
  em_wf st.2
  ∧ (∀ g, 0 ≤ g < fsize st.1 →
       degenerate (face st.1 g) = false ∧ face_vertices_ok st.1 (face st.1 g))
  ∧ vid = vsize st.1 - 1
  ∧ rec_at st.2 k0 = None
  ∧ slots_sat (presents st.1) st.2
  ∧ complete_except k0 st.1 st.2
  ∧ simplicial st.1.

(** The state of the refiner between two rounds, on an oriented mesh. *)
Definition watertight_ok (st : Mesh * EdgeMap) : Prop :=
  refiner_ok st ∧ complete st.1 st.2 ∧ simplicial st.1.

(** The heap of the refiner holds pointers into the store and is a heap
    for the lengths of the records. *)
Definition heap_ok (em : EdgeMap) : Prop :=
  (∀ h, h ∈ heap em → (h < length (store em))%nat)
  ∧ is_heap (compareEdgePtr (store em)) (heap em).

(** One round of the main loop of [refine]. *)
Definition loop_step (N : Z) (s s' : Mesh * EdgeMap) : Prop :=
  refine_continue N s = true ∧ s' = refine_step s.

End MoreSpecDefs.

(** The faces [saveAsPly] writes. *)
Definition ply_faces `{Numeric} (mesh : Mesh) : list Face :=
  filter (λ f, degenerate f = false ∧ good mesh f = true) (faces mesh).

(** A character at which the reading of a number stops. *)
Definition stops (s : list ascii) : Prop :=
  match s with
  | ch :: _ => isdigit ch = false
  | [] => True
  end.

Definition blank (ws : list ascii) : Prop := Forall (λ ch, isspace ch = true) ws.

Definition nonl (line : list ascii) : Prop := Forall (λ ch, Ascii.eqb ch "010" = false) line.
Definition nonul (line : list ascii) : Prop := Forall (λ ch, Ascii.eqb ch zero = false) line.

Section PlyText.
Context `{StreamNum} `{!StreamOut}.

(** The scalar is read back from what is written for it, up to the white
    space that follows. *)
Definition reads_back (x : scalar) : Prop :=
  ∀ ws sep rest, blank ws → isspace sep = true →
    read_double (ws ++ show_double x ++ sep :: rest) = Some (x, sep :: rest).

Definition point_reads_back (p : Point3) : Prop :=
  reads_back p.1.1 ∧ reads_back p.1.2 ∧ reads_back p.2.

(** The line of a vertex and the line of a face. *)
Definition ply_vertex_line (p : Point3) : list ascii :=
  show_double p.1.1 ++ chars " " ++ show_double p.1.2 ++ chars " " ++ show_double p.2 ++ eol.

Definition ply_face_line (f : Face) : list ascii :=
  chars "3 " ++ show_uint (a f) ++ chars " " ++ show_uint (b f)
  ++ chars " " ++ show_uint (c f) ++ eol.

End PlyText.

(** ** The text of a PLY header *)

(** A line of a PLY header: the declaration of the number of vertices or of
    faces, or any other line. *)
Inductive HeaderLine :=
  | ElementVertex (n : Z)
  | ElementFace (n : Z)
  | OtherLine (l : list ascii).

(** The text of a line, without its newline. *)
Definition header_line_text (h : HeaderLine) : list ascii :=
  match h with
  | ElementVertex n => chars "element vertex " ++ show_uint n
  | ElementFace n => chars "element face " ++ show_uint n
  | OtherLine l => l
  end.

(** A line that declares nothing: it holds no newline, does not begin with
    the word [element] and is not the line that ends the header. *)
Definition other_line (l : list ascii) : Prop :=
  nonl l ∧ ¬ (chars "element" `prefix_of` l) ∧ l ≠ chars "end_header".

(** The lines of a well-formed header: a count declared fits an [int]. *)
Definition header_line_ok (h : HeaderLine) : Prop :=
  match h with
  | ElementVertex n | ElementFace n => 0 ≤ n ≤ int_max
  | OtherLine l => other_line l
  end.

(** The header as text: its lines and the line [end_header], each ended by
    a newline. *)
Definition header_text (hs : list HeaderLine) : list ascii :=
  foldr (λ h s, header_line_text h ++ eol ++ s) (chars "end_header" ++ eol) hs.

(** The counts a header declares; of two declarations the later counts. *)
Fixpoint declared_vertices (hs : list HeaderLine) : option Z :=
  match hs with
  | [] => None
  | h :: hs' =>
      match declared_vertices hs', h with
      | Some n, _ => Some n
      | None, ElementVertex n => Some n
      | None, _ => None
      end
  end.

Fixpoint declared_faces (hs : list HeaderLine) : option Z :=
  match hs with
  | [] => None
  | h :: hs' =>
      match declared_faces hs', h with
      | Some n, _ => Some n
      | None, ElementFace n => Some n
      | None, _ => None
      end
  end.

(** ** Inputs for evaluation *)

(** Scenario 1 of the spec, with a texture coordinate for each corner. *)
Definition tri_mesh : Mesh :=
  mkMesh [QP 0 0 0; QP 2 0 0; QP 0 2 0]
         [(0%Q, 0%Q); (1%Q, 0%Q); (0%Q, 1%Q)]
         [mkFace 0 1 2 0 1 2 7].

Definition half_box : Extents3 := mkExtents3 (QP (-5) (-5) (-5)) (QP 1 5 5).

(** The triangle with the midpoint of its longest edge already pushed. *)
Definition tri_mesh4 : Mesh :=
  mkMesh [QP 0 0 0; QP 2 0 0; QP 0 2 0; QP 1 1 0]
         [(0%Q, 0%Q); (1%Q, 0%Q); (0%Q, 1%Q)]
         [mkFace 0 1 2 0 1 2 7].

Definition newline : string := String "010" EmptyString.

Definition ply_triangle : list ascii :=
  chars ("ply" ++ newline ++ "format ascii 1.0" ++ newline
         ++ "element vertex 3" ++ newline ++ "property float x" ++ newline
         ++ "element face 1" ++ newline ++ "property list uchar int vertex_indices" ++ newline
         ++ "end_header" ++ newline
         ++ "0 0 0" ++ newline ++ "2 0 0" ++ newline ++ "0 2 0" ++ newline
         ++ "3 0 1 2" ++ newline)%string.

Definition ply_no_face_count : list ascii :=
  chars ("ply" ++ newline ++ "element vertex 3" ++ newline ++ "end_header" ++ newline
         ++ "0 0 0" ++ newline)%string.

Definition ply_quad : list ascii :=
  chars ("element vertex 1" ++ newline ++ "element face 1" ++ newline
         ++ "end_header" ++ newline ++ "0 0 0" ++ newline ++ "4 0 1 2 3" ++ newline)%string.

(** Three triangles on the common edge (0, 1). *)
Definition fan_mesh : Mesh :=
  mkMesh [QP 0 0 0; QP 2 0 0; QP 0 2 0; QP 0 0 3; QP 1 1 1] []
         [mkFace 0 1 2 0 0 0 0; mkFace 0 1 3 0 0 0 0; mkFace 1 0 4 0 0 0 0].

(** The header [saveAsPly] writes, for three vertices and one face. *)
Definition ply_header_lines : list HeaderLine :=
  [OtherLine (chars "ply");
   OtherLine (chars "format ascii 1.0");
   OtherLine (chars "comment generated by window-mesh");
   ElementVertex 3;
   OtherLine (chars "property float x");
   OtherLine (chars "property float y");
   OtherLine (chars "property float z");
   ElementFace 1;
   OtherLine (chars "property list uchar int vertex_indices")].

Definition ply_body : list ascii :=
  chars ("0 0 0" ++ newline ++ "2 0 0" ++ newline ++ "0 2 0" ++ newline
         ++ "3 0 1 2" ++ newline)%string.

(** Three triangles on the common edge (0, 1) and one apart. *)
Definition fan_wing_mesh : Mesh :=
  mkMesh [QP 0 0 0; QP 2 0 0; QP 0 2 0; QP 0 0 3; QP 1 1 1] []
         [mkFace 0 1 2 0 0 0 0; mkFace 0 1 3 0 0 0 0; mkFace 2 3 4 0 0 0 5;
          mkFace 1 0 4 0 0 0 0].

(** Two triangles on the edge (0, 1) and one whose indices 2^32 and
    2^32 + 1 are 0 and 1 as [int]s. *)
Definition wide_mesh : Mesh :=
  mkMesh [QP 0 0 0; QP 2 0 0; QP 0 2 0; QP 0 0 3] []
         [mkFace 0 1 2 0 0 0 0; mkFace 0 1 3 0 0 0 0;
          mkFace 4294967296 4294967297 5 0 0 0 0].

(** * Proofs *)

(** ** The heap operations permute the heap *)

Section HeapFacts.
Context {A : Type} (comp : A → A → bool).
Implicit Types l : list A.

Lemma insert_head_Permutation l : ∀ (j : nat) y z,
  l !! j = Some y → y :: <[j := z]> l ≡ₚ z :: l.
Proof.
  induction l as [|w l IH]; intros [|j] y z Hl; simplify_eq/=.
  - apply perm_swap.
  - rewrite perm_swap. rewrite (IH j y z Hl). apply perm_swap.
Qed.

Lemma swap_Permutation l : ∀ i j, swap l i j ≡ₚ l.
Proof.
  unfold swap. induction l as [|w l IH]; intros i j; [by destruct i, j|].
  destruct i as [|i], j as [|j]; simpl.
  - done.
  - destruct (l !! j) as [y|] eqn:E; [|done]. by apply insert_head_Permutation.
  - destruct (l !! i) as [x|] eqn:E; [|done]. simpl. by apply insert_head_Permutation.
  - specialize (IH i j). destruct (l !! i), (l !! j); try done. simpl. by rewrite IH.
Qed.

Lemma swap_length l i j : length (swap l i j) = length l.
Proof. apply Permutation_length, swap_Permutation. Qed.

Lemma swap_lookup_other l i j (k : nat) :
  k ≠ i → k ≠ j → swap l i j !! k = l !! k.
Proof.
  intros Hi Hj. unfold swap. destruct (l !! i), (l !! j); try done.
  by rewrite !list_lookup_insert_ne.
Qed.

Lemma sift_up_Permutation fuel : ∀ l i, sift_up comp fuel l i ≡ₚ l.
Proof.
  induction fuel as [|fuel IH]; intros l i; cbn [sift_up]; [done|].
  destruct i as [|i]; [done|].
  repeat case_match; try done. rewrite IH. apply swap_Permutation.
Qed.

Lemma push_heap_Permutation l : push_heap comp l ≡ₚ l.
Proof. apply sift_up_Permutation. Qed.

Lemma sift_down_Permutation fuel : ∀ l n i, sift_down comp fuel l n i ≡ₚ l.
Proof.
  induction fuel as [|fuel IH]; intros l n i; cbn [sift_down]; [done|].
  case_bool_decide; [done|]. rewrite IH. apply swap_Permutation.
Qed.

Lemma larger_child_lt l n cur cand :
  (cur < n)%nat → (larger_child comp l n cur cand < n)%nat.
Proof.
  intros Hc. unfold larger_child. repeat case_match; try done.
  by apply andb_prop in H1 as [?%bool_decide_eq_true _].
Qed.

(** Sifting within the first [n] elements leaves the others in place. *)
Lemma sift_down_lookup_ge fuel : ∀ l n i (k : nat),
  (i < n)%nat → (n ≤ k)%nat → sift_down comp fuel l n i !! k = l !! k.
Proof.
  induction fuel as [|fuel IH]; intros l n i k Hi Hk; cbn [sift_down]; [done|].
  pose proof (larger_child_lt l n _ (2 * i + 2) (larger_child_lt l n i (2 * i + 1) Hi)).
  case_bool_decide; [done|].
  rewrite IH by done. apply swap_lookup_other; lia.
Qed.

Lemma pop_heap_Permutation l : pop_heap comp l ≡ₚ l.
Proof. unfold pop_heap. rewrite sift_down_Permutation. apply swap_Permutation. Qed.

Lemma pop_heap_last x l :
  pop_heap comp (x :: l) !! length l = Some x.
Proof.
  unfold pop_heap. simpl. rewrite Nat.sub_0_r.
  destruct l as [|y l]; [done|].
  rewrite sift_down_lookup_ge by (simpl; lia).
  unfold swap. simpl.
  destruct (lookup_lt_is_Some_2 (y :: l) (length l)) as [z Hz]; [simpl; lia|].
  simpl in Hz. rewrite Hz. simpl.
  apply list_lookup_insert_eq. simpl. lia.
Qed.

(** The heap after [pop_heap] and [pop_back]: the old one without its root. *)
Lemma pop_back_pop_heap x l : pop_back (pop_heap comp (x :: l)) ≡ₚ l.
Proof.
  unfold pop_back.
  pose proof (pop_heap_Permutation (x :: l)) as Hp.
  pose proof (pop_heap_last x l) as Hl.
  assert (Hlen : length (pop_heap comp (x :: l)) = S (length l))
    by (by rewrite (Permutation_length Hp)).
  rewrite Hlen. simpl. rewrite Nat.sub_0_r.
  rewrite <- (take_drop (length l) (pop_heap comp (x :: l))) in Hp.
  assert (drop (length l) (pop_heap comp (x :: l)) = [x]) as Hd.
  { apply list_eq. intros [|k].
    - rewrite lookup_drop, Nat.add_0_r. done.
    - rewrite lookup_drop. simpl. apply lookup_ge_None. lia. }
  rewrite Hd in Hp. rewrite <- Permutation_cons_append in Hp.
  by apply Permutation_cons_inv in Hp.
Qed.

Lemma pop_back_snoc l x : pop_back (l ++ [x]) = l.
Proof.
  unfold pop_back. rewrite length_app. simpl.
  replace (length l + 1 - 1)%nat with (length l) by lia. by rewrite take_app_length.
Qed.

End HeapFacts.

Section Facts.
Context `{Numeric}.

(** ** Edge incidence *)

Lemma faces_at_addKey fi em key k x :
  x ∈ faces_at (nm_addKey fi em key) k ↔ x ∈ faces_at em k ∨ (x = fi ∧ k = key).
Proof.
  unfold faces_at, nm_addKey.
  destruct (em !! key) as [s|] eqn:E.
  - destruct (decide (key = k)) as [->|Hne].
    + rewrite lookup_insert_eq, E. simpl. set_solver.
    + rewrite lookup_insert_ne by done. naive_solver.
  - destruct (decide (key = k)) as [->|Hne].
    + rewrite lookup_insert_eq, E. simpl. set_solver.
    + rewrite lookup_insert_ne by done. naive_solver.
Qed.

Lemma faces_at_addKeys fi keys : ∀ em k x,
  x ∈ faces_at (foldl (nm_addKey fi) em keys) k ↔ x ∈ faces_at em k ∨ (x = fi ∧ k ∈ keys).
Proof.
  induction keys as [|key keys IH]; intros em k x; simpl.
  - set_solver.
  - rewrite IH, faces_at_addKey. set_solver.
Qed.

Lemma faces_at_countFaces fs : ∀ fi em k x,
  x ∈ faces_at (nm_countFaces fi fs em) k ↔
  x ∈ faces_at em k ∨ ∃ i f, fs !! i = Some f ∧ x = (fi + i)%nat ∧ k ∈ edgeKeys f.
Proof.
  induction fs as [|f fs IH]; intros fi em k x; cbn [nm_countFaces].
  - split; [tauto|]. intros [?|(i & f & Hl & _)]; [done|]. by rewrite lookup_nil in Hl.
  - rewrite IH, faces_at_addKeys. split.
    + intros [[?|[-> Hk]]|(i & g & Hl & -> & Hk)]; [by left| |].
      * right. exists 0%nat, f. split; [done|]. split; [lia|done].
      * right. exists (S i), g. split; [done|]. split; [lia|done].
    + intros [?|(i & g & Hl & -> & Hk)]; [by left; left|].
      destruct i as [|i]; simpl in Hl.
      * injection Hl as ->. left; right. split; [lia|done].
      * right. exists i, g. split; [done|]. split; [lia|done].
Qed.

Lemma elem_of_facesToOmit (em : gmap (Z * Z) (gset nat)) x :
  x ∈ nm_facesToOmit em ↔ ∃ k s, em !! k = Some s ∧ (2 < size s)%nat ∧ x ∈ s.
Proof.
  unfold nm_facesToOmit.
  apply (map_fold_weak_ind (λ r (m : gmap (Z * Z) (gset nat)),
           x ∈ r ↔ ∃ k s, m !! k = Some s ∧ (2 < size s)%nat ∧ x ∈ s)).
  - split; [set_solver|]. intros (k & s & Hl & _). by rewrite lookup_empty in Hl.
  - intros k s m r Hk IH. case_bool_decide as Hs.
    + rewrite elem_of_union, IH. split.
      * intros [Hx|(k' & s' & Hl & Hs' & Hx)].
        -- exists k, s. by rewrite lookup_insert_eq.
        -- exists k', s'. rewrite lookup_insert_ne; [done|]. intros ->. congruence.
      * intros (k' & s' & Hl & Hs' & Hx). destruct (decide (k = k')) as [->|Hne].
        -- rewrite lookup_insert_eq in Hl. injection Hl as ->. by left.
        -- rewrite lookup_insert_ne in Hl by done. right. by exists k', s'.
    + rewrite IH. split.
      * intros (k' & s' & Hl & Hs' & Hx).
        exists k', s'. rewrite lookup_insert_ne; [done|]. intros ->. congruence.
      * intros (k' & s' & Hl & Hs' & Hx). destruct (decide (k = k')) as [->|Hne].
        -- rewrite lookup_insert_eq in Hl. injection Hl as ->. done.
        -- rewrite lookup_insert_ne in Hl by done. by exists k', s'.
Qed.

Lemma nm_keepFaces_spec fs : ∀ fi omit mesh,
  nm_keepFaces fi fs omit mesh =
  mkMesh (vertices mesh) (tCoords mesh) (faces mesh ++ map untag (kept_from fi fs omit)).
Proof.
  induction fs as [|f fs IH]; intros fi omit mesh; simpl.
  - rewrite app_nil_r. by destruct mesh.
  - rewrite IH. case_bool_decide; [done|]. simpl. by rewrite <- app_assoc.
Qed.

Lemma kept_from_sublist fs : ∀ fi omit, kept_from fi fs omit `sublist_of` fs.
Proof.
  induction fs as [|f fs IH]; intros fi omit; simpl; [constructor|].
  case_bool_decide; [apply sublist_cons|apply sublist_skip]; apply IH.
Qed.

Lemma kept_from_count (P : Face → Prop) `{∀ f, Decision (P f)} fs : ∀ fi omit (X : gset nat),
  (∀ i f, fs !! i = Some f → (fi + i)%nat ∉ omit → P f → (fi + i)%nat ∈ X) →
  (length (filter P (kept_from fi fs omit)) ≤ size X)%nat.
Proof.
  induction fs as [|f fs IH]; intros fi omit X HX; simpl; [lia|].
  assert (Htl : ∀ X' : gset nat,
             (∀ i g, fs !! i = Some g → (fi + S i)%nat ∉ omit → P g → (fi + S i)%nat ∈ X') →
             (length (filter P (kept_from (S fi) fs omit)) ≤ size X')%nat).
  { intros X' HX'. apply IH. intros i g Hl Ho Hp.
    replace (S fi + i)%nat with (fi + S i)%nat in * by lia. eauto. }
  case_bool_decide as Ho.
  - apply Htl. intros i g Hl. apply (HX (S i) g Hl).
  - rewrite filter_cons. destruct (decide (P f)) as [Hp|Hp].
    + assert (fi ∈ X) as Hin.
      { specialize (HX 0%nat f eq_refl). rewrite Nat.add_0_r in HX. auto. }
      simpl. transitivity (S (size (X ∖ {[fi]}))).
      * apply le_n_S, Htl. intros i g Hl Ho' Hp'.
        apply elem_of_difference. split; [by apply (HX (S i) g)|].
        rewrite elem_of_singleton. lia.
      * pose proof (size_difference X {[fi]}) as Hd.
        rewrite size_singleton in Hd.
        assert (size X ≠ 0)%nat by (intros ?%size_empty_inv; set_solver).
        rewrite Hd by set_solver. lia.
    + apply Htl. intros i g Hl. apply (HX (S i) g Hl).
Qed.

Lemma EdgeKey_same_edge u v x y : EdgeKey u v = EdgeKey x y ↔ same_edge u v x y.
Proof.
  unfold EdgeKey, same_edge. split.
  - intros [= Hmin Hmax]. lia.
  - intros [[-> ->]|[-> ->]]; f_equal; lia.
Qed.

Lemma to_int_small v : int_min ≤ v ≤ int_max → to_int v = v.
Proof. unfold int_min, int_max, to_int. intros Hv. rewrite Z.mod_small; lia. Qed.

(** A face with the edge [{u, v}] has the key of the converted endpoints,
    whatever the indices are. *)
Lemma incident_edgeKeys_int u v f :
  incident u v f → EdgeKey (to_int u) (to_int v) ∈ edgeKeys f.
Proof.
  unfold incident, edgeKeys. rewrite !elem_of_cons, elem_of_nil, !EdgeKey_same_edge.
  unfold same_edge. intros [[[-> ->]|[-> ->]]|[[[-> ->]|[-> ->]]|[[-> ->]|[-> ->]]]]; tauto.
Qed.

(** On indices that fit an [int] the keys are the edges. *)
Lemma edgeKeys_fit f :
  0 ≤ a f ≤ int_max ∧ 0 ≤ b f ≤ int_max ∧ 0 ≤ c f ≤ int_max →
  edgeKeys f = [EdgeKey (a f) (b f); EdgeKey (b f) (c f); EdgeKey (c f) (a f)].
Proof.
  intros (Ha & Hb & Hc). unfold edgeKeys.
  rewrite !to_int_small by (unfold int_min; lia). done.
Qed.

Lemma incident_edgeKeys u v f :
  0 ≤ a f ≤ int_max ∧ 0 ≤ b f ≤ int_max ∧ 0 ≤ c f ≤ int_max →
  incident u v f ↔ EdgeKey u v ∈ edgeKeys f.
Proof.
  intros Hf. rewrite edgeKeys_fit by done.
  unfold incident. rewrite !elem_of_cons, elem_of_nil, !EdgeKey_same_edge. tauto.
Qed.

Lemma removeNonManifoldEdges_spec m :
  removeNonManifoldEdges m =
  mkMesh (vertices m) (tCoords m)
         (map untag (kept_from 0 (faces m) (nm_facesToOmit (nm_countFaces 0 (faces m) ∅)))).
Proof. unfold removeNonManifoldEdges. by rewrite nm_keepFaces_spec. Qed.

(** C3: in the mesh [removeNonManifoldEdges] returns, every undirected edge
    [{u, v}] is an edge of at most two faces. *)
Theorem removeNonManifoldEdges_manifold m u v :
  (length (filter (incident u v) (faces (removeNonManifoldEdges m))) ≤ 2)%nat.
Proof.
  rewrite removeNonManifoldEdges_spec. cbn [faces].
  set (em := nm_countFaces 0 (faces m) ∅). set (omit := nm_facesToOmit em).
  assert (Hlen : length (filter (incident u v) (map untag (kept_from 0 (faces m) omit)))
                 = length (filter (incident u v) (kept_from 0 (faces m) omit))).
  { induction (kept_from 0 (faces m) omit) as [|f l IH]; [done|].
    assert (Hiff : incident u v (untag f) ↔ incident u v f) by reflexivity.
    cbn [map]. rewrite !filter_cons.
    destruct (decide (incident u v (untag f))) as [Hi|Hi], (decide (incident u v f)) as [Hj|Hj];
      cbn [length]; rewrite ?IH; tauto. }
  rewrite Hlen. clear Hlen.
  set (k := EdgeKey (to_int u) (to_int v)).
  assert (Hin : ∀ i f, faces m !! i = Some f → incident u v f → i ∈ faces_at em k).
  { intros i f Hl Hi. apply faces_at_countFaces. right. exists i, f.
    split; [done|]. split; [done|]. by apply incident_edgeKeys_int. }
  destruct (decide (2 < size (faces_at em k))%nat) as [Hbig|Hsmall].
  - transitivity (size (∅ : gset nat)); [|rewrite size_empty; lia].
    apply kept_from_count. intros i f Hl Ho Hi. exfalso. apply Ho.
    apply elem_of_facesToOmit. unfold faces_at in *.
    destruct (em !! k) as [s|] eqn:E; cbn [default] in *;
      [|rewrite size_empty in Hbig; lia].
    exists k, s. split; [done|]. split; [done|]. apply (Hin i f Hl Hi).
  - transitivity (size (faces_at em k)); [|lia].
    apply kept_from_count. intros i f Hl _ Hi. by apply (Hin i f).
Qed.

Lemma elem_of_indices_with k fs : ∀ fi x,
  x ∈ indices_with k fi fs ↔ ∃ i f, fs !! i = Some f ∧ x = (fi + i)%nat ∧ k ∈ edgeKeys f.
Proof.
  induction fs as [|f fs IH]; intros fi x; cbn [indices_with].
  - split; [by intros ?%elem_of_nil|]. intros (i & g & Hl & _). by rewrite lookup_nil in Hl.
  - assert (Htl : x ∈ indices_with k (S fi) fs ↔
                  ∃ i g, fs !! i = Some g ∧ x = (fi + S i)%nat ∧ k ∈ edgeKeys g).
    { rewrite IH. split; intros (i & g & Hl & -> & Hk); exists i, g;
        (split; [done|split; [lia|done]]). }
    destruct (decide (k ∈ edgeKeys f)) as [Hk|Hk].
    + rewrite elem_of_cons, Htl. split.
      * intros [->|(i & g & Hl & -> & Hg)].
        -- exists 0%nat, f. split; [done|]. split; [lia|done].
        -- exists (S i), g. done.
      * intros (i & g & Hl & -> & Hg). destruct i as [|i]; simpl in Hl.
        -- left. lia.
        -- right. exists i, g. done.
    + rewrite Htl. split.
      * intros (i & g & Hl & -> & Hg). exists (S i), g. done.
      * intros (i & g & Hl & -> & Hg). destruct i as [|i]; simpl in Hl.
        -- injection Hl as ->. done.
        -- exists i, g. done.
Qed.

Lemma indices_with_NoDup k fs : ∀ fi, NoDup (indices_with k fi fs).
Proof.
  induction fs as [|f fs IH]; intros fi; cbn [indices_with]; [constructor|].
  destruct (decide (k ∈ edgeKeys f)); [|apply IH].
  constructor; [|apply IH].
  intros (i & g & _ & Hx & _)%elem_of_indices_with. lia.
Qed.

Lemma indices_with_length k fs : ∀ fi,
  length (indices_with k fi fs) = incident_count fs k.
Proof.
  unfold incident_count.
  induction fs as [|f fs IH]; intros fi; cbn [indices_with]; [done|].
  rewrite filter_cons. destruct (decide (k ∈ edgeKeys f)); simpl; by rewrite IH.
Qed.

(** The set the first loop records for a key holds the faces with that key,
    as many as [incident_count] counts. *)
Lemma faces_at_size fs k :
  size (faces_at (nm_countFaces 0 fs ∅) k) = incident_count fs k.
Proof.
  rewrite <- (indices_with_length k fs 0).
  rewrite <- (size_list_to_set (C := gset nat)) by apply indices_with_NoDup.
  f_equal. apply set_eq. intros x.
  rewrite faces_at_countFaces, elem_of_list_to_set, elem_of_indices_with.
  unfold faces_at at 1. rewrite lookup_empty. simpl. set_solver.
Qed.

(** The second loop omits exactly the marked faces. *)
Lemma facesToOmit_marked fs i f :
  fs !! i = Some f →
  i ∈ nm_facesToOmit (nm_countFaces 0 fs ∅) ↔ key_marked fs f.
Proof.
  intros Hl. rewrite elem_of_facesToOmit. unfold key_marked. rewrite Exists_exists.
  split.
  - intros (k & s & Hk & Hs & Hi).
    assert (Hfa : faces_at (nm_countFaces 0 fs ∅) k = s) by (unfold faces_at; by rewrite Hk).
    exists k. split.
    + rewrite <- Hfa in Hi. apply faces_at_countFaces in Hi as [Hi|(j & g & Hj & Hij & Hg)].
      * unfold faces_at in Hi. rewrite lookup_empty in Hi. by apply elem_of_empty in Hi.
      * assert (j = i) as -> by lia. by simplify_eq.
    + by rewrite <- faces_at_size, Hfa.
  - intros (k & Hk & Hc). rewrite <- faces_at_size in Hc.
    assert (Hi : i ∈ faces_at (nm_countFaces 0 fs ∅) k).
    { apply faces_at_countFaces. right. exists i, f. done. }
    unfold faces_at in Hc, Hi.
    destruct (nm_countFaces 0 fs ∅ !! k) as [s|] eqn:E; simpl in Hc, Hi;
      [|by apply elem_of_empty in Hi].
    exists k, s. done.
Qed.

Lemma kept_from_filter (P : Face → Prop) `{∀ f, Decision (P f)} omit fs : ∀ fi,
  (∀ i f, fs !! i = Some f → (fi + i)%nat ∈ omit ↔ P f) →
  kept_from fi fs omit = filter (λ f, ¬ P f) fs.
Proof.
  induction fs as [|f fs IH]; intros fi Hom; cbn [kept_from]; [done|].
  rewrite filter_cons.
  assert (Hhd : fi ∈ omit ↔ P f).
  { rewrite <- (Hom 0%nat f eq_refl). by rewrite Nat.add_0_r. }
  assert (Htl : kept_from (S fi) fs omit = filter (λ f, ¬ P f) fs).
  { apply IH. intros i g Hl. rewrite <- (Hom (S i) g Hl).
    by replace (S fi + i)%nat with (fi + S i)%nat by lia. }
  rewrite Htl. case_bool_decide; destruct (decide (¬ P f)); try done; tauto.
Qed.

(** The faces kept are those none of whose keys has more than two faces. *)
Lemma removeNonManifoldEdges_faces m :
  removeNonManifoldEdges m =
  mkMesh (vertices m) (tCoords m)
         (map untag (filter (λ f, ¬ key_marked (faces m) f) (faces m))).
Proof.
  rewrite removeNonManifoldEdges_spec. f_equal. f_equal.
  apply (kept_from_filter (key_marked (faces m))). intros i f Hl. simpl.
  by apply facesToOmit_marked.
Qed.

Lemma filter_ext_in {A} (P Q : A → Prop) `{∀ x, Decision (P x)} `{∀ x, Decision (Q x)}
    (l : list A) :
  (∀ x, x ∈ l → P x ↔ Q x) → filter P l = filter Q l.
Proof.
  induction l as [|x l IH]; intros Hl; [done|].
  rewrite !filter_cons.
  assert (Hx : P x ↔ Q x) by (apply Hl; by left).
  rewrite IH by (intros y Hy; apply Hl; by right).
  destruct (decide (P x)), (decide (Q x)); tauto.
Qed.

(** On indices that fit an [int], a key counts the faces of its edge. *)
Lemma incident_count_edge fs u v :
  int_indices fs → incident_count fs (EdgeKey u v) = edge_faces fs u v.
Proof.
  intros Hfit. unfold incident_count, edge_faces. f_equal.
  apply filter_ext_in. intros f Hf. symmetry. apply incident_edgeKeys.
  unfold int_indices in Hfit. rewrite Forall_forall in Hfit. by apply Hfit.
Qed.

Lemma key_marked_marked fs f :
  int_indices fs → 0 ≤ a f ≤ int_max ∧ 0 ≤ b f ≤ int_max ∧ 0 ≤ c f ≤ int_max →
  key_marked fs f ↔ marked fs f.
Proof.
  intros Hfit Hf. unfold key_marked, marked. rewrite edgeKeys_fit by done.
  rewrite !Exists_cons, Exists_nil, !incident_count_edge by done. tauto.
Qed.

(** C7, as amended: on a mesh whose vertex indices fit an [int],
    [removeNonManifoldEdges] returns the vertex and texture-coordinate
    arrays of the input and, in their order, the faces of the input that
    are not marked for removal, each with its six indices and with the
    surface tag reset: [addFace] takes no tag. *)
Theorem removeNonManifoldEdges_frame m :
  int_indices (faces m) →
  removeNonManifoldEdges m =
  mkMesh (vertices m) (tCoords m)
         (map untag (filter (λ f, ¬ marked (faces m) f) (faces m))).
Proof.
  intros Hfit. rewrite removeNonManifoldEdges_faces. f_equal. f_equal.
  apply filter_ext_in. intros f Hf.
  rewrite key_marked_marked; [done|done|].
  unfold int_indices in Hfit. rewrite Forall_forall in Hfit. by apply Hfit.
Qed.

(** ** Welding *)

Lemma pMap_find_None vs : ∀ k p, p ∉ vs → pMap_find (pMap_of k vs) p = None.
Proof.
  unfold pMap_find, pMap_of.
  induction vs as [|q vs IH]; intros k p Hp; [done|].
  apply not_elem_of_cons in Hp as [Hne Hp]. simpl.
  rewrite bool_decide_eq_false_2 by (simpl; congruence).
  rewrite <- (IH (S k) p Hp). f_equal. f_equal. apply imap_ext. intros i x _. simpl.
  do 2 f_equal. lia.
Qed.

Lemma pMap_find_Some vs : ∀ k p, p ∈ vs →
  ∃ i, pMap_find (pMap_of k vs) p = Some (Z.of_nat (k + i)) ∧ vs !! i = Some p.
Proof.
  unfold pMap_find, pMap_of.
  induction vs as [|q vs IH]; intros k p Hp; [by apply elem_of_nil in Hp|].
  simpl. destruct (decide (q = p)) as [->|Hne].
  - exists 0%nat. rewrite bool_decide_eq_true_2 by done. done.
  - rewrite bool_decide_eq_false_2 by (simpl; congruence).
    apply elem_of_cons in Hp as [->|Hp]; [done|].
    destruct (IH (S k) p Hp) as (i & Hf & Hl). exists (S i). split; [|done].
    replace (k + S i)%nat with (S k + i)%nat by lia. rewrite <- Hf.
    f_equal. f_equal. apply imap_ext. intros j x _. simpl. do 2 f_equal. lia.
Qed.

Lemma pMap_of_snoc vs p :
  pMap_of 0 vs ++ [(p, Z.of_nat (length vs))] = pMap_of 0 (vs ++ [p]).
Proof.
  unfold pMap_of. rewrite imap_app. simpl. by rewrite Nat.add_0_r.
Qed.

(** What one corner does to a coherent state. *)
Lemma weld_corner_spec w p :
  weld_ok w →
  ∃ i : nat,
    (weld_corner w p).2 = Z.of_nat i
    ∧ weld_ok (weld_corner w p).1
    ∧ vertices (pmesh (weld_corner w p).1)
      = (if bool_decide (p ∈ vertices (pmesh w)) then vertices (pmesh w)
         else vertices (pmesh w) ++ [p])
    ∧ vertices (pmesh (weld_corner w p).1) !! i = Some p
    ∧ faces (pmesh (weld_corner w p).1) = faces (pmesh w).
Proof.
  intros (Hn & Hm & Hd & Ht). unfold weld_corner.
  destruct (decide (p ∈ vertices (pmesh w))) as [Hin|Hout].
  - destruct (pMap_find_Some _ 0%nat p Hin) as (i & Hf & Hl).
    rewrite Hm, Hf. simpl.
    assert (i < length (vertices (pmesh w)))%nat by (by apply lookup_lt_Some in Hl).
    rewrite (bool_decide_eq_false_2 (vsize _ ≤ _)). 2:{ unfold vsize. simpl. lia. }
    rewrite bool_decide_eq_true_2 by done.
    exists i. repeat split; try done.
  - rewrite Hm, (pMap_find_None _ 0%nat p Hout). simpl.
    rewrite (bool_decide_eq_true_2 (vsize _ ≤ _)) by (unfold vsize in *; simpl; lia).
    rewrite bool_decide_eq_false_2 by done.
    exists (length (vertices (pmesh w))). simpl.
    split; [unfold vsize in Hn; lia|].
    split.
    { unfold weld_ok. simpl. split; [|split; [|split; [|done]]].
      - unfold vsize in *. simpl. rewrite length_app. simpl. lia.
      - rewrite Hn. unfold vsize. apply pMap_of_snoc.
      - apply NoDup_app. repeat split; [done| |apply NoDup_singleton].
        intros x Hx ->%list_elem_of_singleton. done. }
    split; [done|]. split; [|done].
    rewrite lookup_app_r by lia. by rewrite Nat.sub_diag.
Qed.

Lemma index_of_lookup vs i p :
  NoDup vs → vs !! i = Some p → index_of vs p = Z.of_nat i.
Proof.
  intros Hd Hl. unfold index_of.
  destruct (list_find (λ q, q = p) vs) as [[j q]|] eqn:E.
  - apply list_find_Some in E as (Hj & -> & _).
    by rewrite (NoDup_lookup _ _ _ _ Hd Hj Hl).
  - apply list_find_None in E. rewrite Forall_forall in E.
    exfalso. apply (E p); [|done]. by apply list_elem_of_lookup_2 in Hl.
Qed.

Lemma first_seen_extends l : ∀ seen, ∃ ext, first_seen seen l = seen ++ ext.
Proof.
  induction l as [|p l IH]; intros seen; simpl.
  - exists []. by rewrite app_nil_r.
  - destruct (IH (if bool_decide (p ∈ seen) then seen else seen ++ [p])) as [ext ->].
    case_bool_decide; [by exists ext|]. exists (p :: ext). by rewrite <- app_assoc.
Qed.

Lemma first_seen_app l1 l2 seen :
  first_seen seen (l1 ++ l2) = first_seen (first_seen seen l1) l2.
Proof. revert seen. induction l1 as [|p l1 IH]; intros seen; simpl; [done|apply IH]. Qed.

(** One triangle on a coherent state. *)
Lemma weld_triangle_spec w t :
  weld_ok w →
  let w' := weld_triangle w t in
  weld_ok w'
  ∧ vertices (pmesh w') = first_seen (vertices (pmesh w)) [pos0 t; pos1 t; pos2 t]
  ∧ ∃ i0 i1 i2 : nat,
      vertices (pmesh w') !! i0 = Some (pos0 t)
      ∧ vertices (pmesh w') !! i1 = Some (pos1 t)
      ∧ vertices (pmesh w') !! i2 = Some (pos2 t)
      ∧ faces (pmesh w') = faces (pmesh w) ++
          (if bool_decide (Z.of_nat i0 ≠ Z.of_nat i1) && bool_decide (Z.of_nat i1 ≠ Z.of_nat i2)
              && bool_decide (Z.of_nat i0 ≠ Z.of_nat i2)
           then [mkFace (Z.of_nat i0) (Z.of_nat i1) (Z.of_nat i2) 0 0 0 0] else []).
Proof.
  intros Hw. unfold weld_triangle.
  destruct (weld_corner_spec w (pos0 t) Hw) as (i0 & E0 & Hw0 & V0 & L0 & F0).
  destruct (weld_corner w (pos0 t)) as [w0 j0]. simpl in *. subst j0.
  destruct (weld_corner_spec w0 (pos1 t) Hw0) as (i1 & E1 & Hw1 & V1 & L1 & F1).
  destruct (weld_corner w0 (pos1 t)) as [w1 j1]. simpl in *. subst j1.
  destruct (weld_corner_spec w1 (pos2 t) Hw1) as (i2 & E2 & Hw2 & V2 & L2 & F2).
  destruct (weld_corner w1 (pos2 t)) as [w2 j2]. simpl in *. subst j2.
  assert (HV : vertices (pmesh w2) = first_seen (vertices (pmesh w)) [pos0 t; pos1 t; pos2 t]).
  { simpl. by rewrite <- V0, <- V1, <- V2. }
  assert (L0' : vertices (pmesh w2) !! i0 = Some (pos0 t)).
  { rewrite V2, V1. repeat case_bool_decide; try done;
      repeat (apply lookup_app_l_Some); done. }
  assert (L1' : vertices (pmesh w2) !! i1 = Some (pos1 t)).
  { rewrite V2. case_bool_decide; [done|]. by apply lookup_app_l_Some. }
  destruct (bool_decide (Z.of_nat i0 ≠ Z.of_nat i1) && bool_decide (Z.of_nat i1 ≠ Z.of_nat i2)
            && bool_decide (Z.of_nat i0 ≠ Z.of_nat i2)) eqn:Ed; simpl.
  - split; [destruct Hw2 as (?&?&?&?); by repeat split|].
    split; [done|]. exists i0, i1, i2. rewrite Ed. repeat split; try done.
    by rewrite F2, F1, F0.
  - split; [done|]. split; [done|]. exists i0, i1, i2. rewrite Ed, app_nil_r.
    repeat split; try done. by rewrite F2, F1, F0.
Qed.

(** The whole soup, from a coherent state. *)
Lemma weld_fold_spec ts : ∀ w,
  weld_ok w →
  let w' := foldl weld_triangle w ts in
  weld_ok w'
  ∧ vertices (pmesh w') = first_seen (vertices (pmesh w)) (corners ts)
  ∧ faces (pmesh w') = faces (pmesh w) ++ omap (welded_face (vertices (pmesh w'))) ts.
Proof.
  induction ts as [|t ts IH]; intros w Hw; simpl.
  - by rewrite app_nil_r.
  - destruct (weld_triangle_spec w t Hw) as (Hw1 & V1 & i0 & i1 & i2 & L0 & L1 & L2 & F1).
    destruct (IH _ Hw1) as (Hw' & V' & F'). cbv zeta in *.
    set (w' := foldl weld_triangle (weld_triangle w t) ts) in *.
    split; [done|]. split.
    { by rewrite V', V1. }
    rewrite F', F1, <- app_assoc. f_equal.
    destruct (first_seen_extends (corners ts) (vertices (pmesh (weld_triangle w t))))
      as [ext Hext]. rewrite <- V' in Hext.
    destruct Hw' as (_ & _ & Hd & _).
    unfold welded_face.
    rewrite (index_of_lookup _ i0), (index_of_lookup _ i1), (index_of_lookup _ i2);
      try done; try (rewrite Hext; by apply lookup_app_l_Some).
    by destruct (_ && _).
Qed.

Lemma weld_ok_init : weld_ok (mkWeld [] 0 emptyMesh).
Proof. repeat split; simpl; try done. constructor. Qed.

(** ** The edge structure of the refiner *)

Lemma edge_ok_mono fsz fsz' e : fsz ≤ fsz' → edge_ok fsz e → edge_ok fsz' e.
Proof. unfold edge_ok. intros ? (?&?&?&?). repeat split; (done || lia). Qed.

Lemma edgeMap_ok_mono fsz fsz' em : fsz ≤ fsz' → edgeMap_ok fsz em → edgeMap_ok fsz' em.
Proof.
  intros Hle [Hh Hm]. split; [|done].
  intros h Hin. destruct (Hh h Hin) as (e & ? & ?). exists e. eauto using edge_ok_mono.
Qed.

Lemma edgeMap_ok_empty fsz : edgeMap_ok fsz emptyEdgeMap.
Proof.
  split; simpl.
  - intros h Hin. by apply elem_of_nil in Hin.
  - intros k h Hl. by rewrite lookup_empty in Hl.
Qed.

Lemma deref_lookup st h e : st !! h = Some e → deref st h = e.
Proof. intros Hl. unfold deref. by apply nth_lookup_Some with (d := nullEdge) in Hl. Qed.

Lemma Edge_addFace_ends e pv1 pv2 fid ty :
  v1 (Edge_addFace e pv1 pv2 fid ty) = v1 e ∧ v2 (Edge_addFace e pv1 pv2 fid ty) = v2 e.
Proof. unfold Edge_addFace. by case_bool_decide. Qed.

Lemma Edge_addFace_ok fsz e pv1 pv2 fid ty :
  0 ≤ fid < fsz → f1 e < fsz → f2 e < fsz → v1 e ≤ v2 e →
  edge_ok fsz (Edge_addFace e pv1 pv2 fid ty).
Proof.
  intros Hf H1 H2 Hv. unfold edge_ok, Edge_addFace. case_bool_decide; simpl; lia.
Qed.

Lemma addFaceEdge_ok fsz em pv1 pv2 fid ty len :
  edgeMap_ok fsz em → 0 ≤ fid < fsz →
  edgeMap_ok fsz (addFaceEdge em pv1 pv2 fid ty len)
  ∧ heap (addFaceEdge em pv1 pv2 fid ty len) ≠ [].
Proof.
  intros [Hh Hm] Hfid. unfold addFaceEdge.
  destruct (emap em !! EdgeKey pv1 pv2) as [h|] eqn:E; simpl.
  - destruct (Hm _ _ E) as (Hin & e & He & Hk).
    split; [|intros Hnil; rewrite Hnil in Hin; by apply elem_of_nil in Hin].
    split; simpl.
    + intros h' Hin'. destruct (Hh h' Hin') as (e' & He' & Hok').
      destruct (decide (h' = h)) as [->|Hne].
      * rewrite list_lookup_alter_eq, He'. simpl. eexists; split; [done|].
        destruct Hok' as (_ & ? & ? & ?). by apply Edge_addFace_ok.
      * rewrite list_lookup_alter_ne by done. eauto.
    + intros k h' Hl. destruct (Hm _ _ Hl) as (Hin' & e' & He' & Hk').
      split; [done|]. destruct (decide (h' = h)) as [->|Hne].
      * rewrite list_lookup_alter_eq, He'. simpl. eexists; split; [done|].
        by destruct (Edge_addFace_ends e' pv1 pv2 fid ty) as [-> ->].
      * rewrite list_lookup_alter_ne by done. eauto.
  - set (ne := Edge_addFace (Edge_new pv1 pv2 len) pv1 pv2 fid ty).
    set (h := length (store em)).
    assert (Hperm : ∀ x, x ∈ push_heap (compareEdgePtr (store em ++ [ne])) (heap em ++ [h])
                         ↔ x ∈ heap em ∨ x = h).
    { intros x. rewrite push_heap_Permutation, elem_of_app, list_elem_of_singleton. done. }
    assert (Hne : (store em ++ [ne]) !! h = Some ne).
    { subst h. rewrite lookup_app_r by lia. by rewrite Nat.sub_diag. }
    assert (Hold : ∀ h' e', store em !! h' = Some e' → (store em ++ [ne]) !! h' = Some e').
    { intros h' e' Hl. by apply lookup_app_l_Some. }
    split; [|intros Hnil; specialize (Hperm h); rewrite Hnil in Hperm;
             destruct Hperm as [_ Hp]; specialize (Hp (or_intror eq_refl));
             by apply elem_of_nil in Hp].
    split; simpl.
    + intros h' [Hin'| ->]%Hperm.
      * destruct (Hh h' Hin') as (e' & He' & Hok'). eauto.
      * exists ne. split; [done|]. subst ne. apply Edge_addFace_ok; simpl; lia.
    + intros k h' Hl. destruct (decide (EdgeKey pv1 pv2 = k)) as [<-|Hk].
      * rewrite lookup_insert_eq in Hl. injection Hl as <-.
        split; [apply Hperm; by right|]. exists ne. split; [done|].
        subst ne. by destruct (Edge_addFace_ends (Edge_new pv1 pv2 len) pv1 pv2 fid ty) as [-> ->].
      * rewrite lookup_insert_ne in Hl by done.
        destruct (Hm _ _ Hl) as (Hin' & e' & He' & Hk').
        split; [apply Hperm; by left|]. eauto.
Qed.

Lemma addFaceEdges_ok fsz em mesh fid :
  edgeMap_ok fsz em → 0 ≤ fid < fsz →
  edgeMap_ok fsz (addFaceEdges em mesh fid) ∧ heap (addFaceEdges em mesh fid) ≠ [].
Proof.
  intros Hok Hfid. unfold addFaceEdges.
  apply addFaceEdge_ok; [|done].
  apply addFaceEdge_ok; [|done].
  by apply addFaceEdge_ok.
Qed.

Lemma pop_top_edge_ok fsz em :
  edgeMap_ok fsz em → heap em ≠ [] →
  edge_ok fsz (pop_top_edge em).1
  ∧ edgeMap_ok fsz (pop_top_edge em).2
  ∧ S (length (heap (pop_top_edge em).2)) = length (heap em).
Proof.
  intros [Hh Hm] Hne. unfold pop_top_edge.
  destruct (heap em) as [|h0 hp] eqn:Eh; [done|]. simpl.
  destruct (Hh h0) as (e0 & He0 & Hok0); [by left|].
  rewrite (deref_lookup _ _ _ He0).
  pose proof (pop_back_pop_heap (compareEdgePtr (store em)) h0 hp) as Hp.
  split; [done|]. split; [|by rewrite (Permutation_length Hp)].
  split; simpl.
  - intros h Hin. rewrite Hp in Hin. apply Hh. by right.
  - intros k h Hl. apply lookup_delete_Some in Hl as [Hk Hl].
    destruct (Hm _ _ Hl) as (Hin & e & He & Hke). split; [|eauto].
    rewrite Hp. apply elem_of_cons in Hin as [->|Hin]; [|done].
    exfalso. apply Hk. rewrite He0 in He. injection He as <-.
    destruct Hok0 as (_ & _ & _ & Hv). rewrite <- Hke. unfold EdgeKey. f_equal; lia.
Qed.

Lemma vec_set_length {A} (l : list A) i x : length (vec_set l i x) = length l.
Proof. unfold vec_set. case_bool_decide; [apply length_insert|done]. Qed.

Lemma set_face_faces_length mesh fid f :
  length (faces (set_face mesh fid f)) = length (faces mesh).
Proof. apply vec_set_length. Qed.

Lemma push_tcMiddle_frame mesh t1 t2 :
  vertices (push_tcMiddle mesh t1 t2) = vertices mesh
  ∧ faces (push_tcMiddle mesh t1 t2) = faces mesh.
Proof. unfold push_tcMiddle. by case_bool_decide. Qed.

(** The shape of one split: the vertices stay, one face is appended, and the
    edges of the two halves are entered again. *)
Lemma splitEdge_shape mesh em fid ty vid :
  let r := splitEdge (mesh, em) fid ty vid in
  vertices r.1 = vertices mesh
  ∧ length (faces r.1) = S (length (faces mesh))
  ∧ r.2 = addFaceEdges (addFaceEdges em r.1 fid) r.1 (fsize r.1 - 1).
Proof.
  unfold splitEdge. destruct ty; cbv zeta; cbn [fst snd];
    (split; [|split; [|done]]);
    [ simpl; apply push_tcMiddle_frame
    | rewrite !set_face_faces_length; simpl; rewrite length_app; simpl;
      destruct (push_tcMiddle_frame mesh (ta (face mesh fid)) (tb (face mesh fid))) as [_ ->]; lia
    | simpl; apply push_tcMiddle_frame
    | rewrite !set_face_faces_length; simpl; rewrite length_app; simpl;
      destruct (push_tcMiddle_frame mesh (tb (face mesh fid)) (tc (face mesh fid))) as [_ ->]; lia
    | simpl; apply push_tcMiddle_frame
    | rewrite !set_face_faces_length; simpl; rewrite length_app; simpl;
      destruct (push_tcMiddle_frame mesh (tc (face mesh fid)) (ta (face mesh fid))) as [_ ->]; lia ].
Qed.

Lemma splitEdge_ok mesh em fid ty vid :
  edgeMap_ok (fsize mesh) em → 0 ≤ fid < fsize mesh →
  let r := splitEdge (mesh, em) fid ty vid in
  fsize r.1 = fsize mesh + 1 ∧ edgeMap_ok (fsize r.1) r.2 ∧ heap r.2 ≠ [].
Proof.
  intros Hok Hfid r.
  destruct (splitEdge_shape mesh em fid ty vid) as (Hv & Hf & He). fold r in Hv, Hf, He.
  assert (Hsz : fsize r.1 = fsize mesh + 1) by (unfold fsize; lia).
  split; [done|]. rewrite He.
  apply addFaceEdges_ok; [|lia].
  apply addFaceEdges_ok; [|lia].
  apply (edgeMap_ok_mono (fsize mesh)); [lia|done].
Qed.

(** One round of the main loop on a coherent state with a non-empty heap. *)
Lemma refine_step_spec mesh em :
  edgeMap_ok (fsize mesh) em → heap em ≠ [] →
  let r := refine_step (mesh, em) in
  length (vertices r.1) = S (length (vertices mesh))
  ∧ fsize mesh < fsize r.1 ≤ fsize mesh + 2
  ∧ edgeMap_ok (fsize r.1) r.2
  ∧ heap r.2 ≠ [].
Proof.
  intros Hok Hne. unfold refine_step.
  destruct (pop_top_edge_ok _ _ Hok Hne) as (He & Hok' & _).
  destruct (pop_top_edge em) as [edge em1]. cbn [fst snd] in *.
  set (mesh1 := mkMesh (vertices mesh ++ [_]) (tCoords mesh) (faces mesh)).
  assert (Hf1 : fsize mesh1 = fsize mesh) by done.
  assert (Hv1 : length (vertices mesh1) = S (length (vertices mesh))).
  { simpl. rewrite length_app. simpl. lia. }
  destruct He as (Hslot & Hlt1 & Hlt2 & _).
  rewrite <- Hf1 in Hok'.
  destruct (bool_decide (0 ≤ f1 edge)) eqn:E1.
  - apply bool_decide_eq_true in E1.
    destruct (splitEdge_shape mesh1 em1 (f1 edge) (et1 edge)
                (Z.of_nat (length (vertices mesh1)) - 1)) as (Hv & _).
    destruct (splitEdge_ok mesh1 em1 (f1 edge) (et1 edge)
                (Z.of_nat (length (vertices mesh1)) - 1) Hok') as (Hsz & Hok2 & Hne2); [lia|].
    cbn [fst] in *.
    destruct (splitEdge (mesh1, em1) (f1 edge) (et1 edge) _) as [mesh2 em2].
    cbn [fst snd] in *.
    destruct (bool_decide (0 ≤ f2 edge)) eqn:E2.
    + apply bool_decide_eq_true in E2.
      destruct (splitEdge_shape mesh2 em2 (f2 edge) (et2 edge)
                  (Z.of_nat (length (vertices mesh2)) - 1)) as (Hv' & _).
      destruct (splitEdge_ok mesh2 em2 (f2 edge) (et2 edge)
                  (Z.of_nat (length (vertices mesh2)) - 1) Hok2) as (Hsz' & Hok3 & Hne3); [lia|].
      cbv zeta in *. destruct (splitEdge (mesh2, em2) _ _ _) as [mesh3 em3].
      cbn [fst snd] in *. rewrite Hv', Hv. split_and!; (done || lia).
    + cbv zeta. cbn [fst snd]. rewrite Hv. split_and!; (done || lia).
  - apply bool_decide_eq_false in E1. cbn [fst snd].
    rewrite bool_decide_eq_true_2 by lia.
    destruct (splitEdge_shape mesh1 em1 (f2 edge) (et2 edge)
                (Z.of_nat (length (vertices mesh1)) - 1)) as (Hv & _).
    destruct (splitEdge_ok mesh1 em1 (f2 edge) (et2 edge)
                (Z.of_nat (length (vertices mesh1)) - 1) Hok') as (Hsz & Hok2 & Hne2); [lia|].
    cbv zeta in *. destruct (splitEdge (mesh1, em1) _ _ _) as [mesh2 em2].
    cbn [fst snd] in *. rewrite Hv. split_and!; (done || lia).
Qed.

Lemma refine_init_ok mesh :
  edgeMap_ok (fsize mesh) (refine_init mesh)
  ∧ (faces mesh ≠ [] → heap (refine_init mesh) ≠ []).
Proof.
  unfold refine_init.
  assert (Hgen : ∀ l em, edgeMap_ok (fsize mesh) em →
            Forall (λ i : nat, (i < length (faces mesh))%nat) l →
            let em' := foldl (λ em i, addFaceEdges em mesh (Z.of_nat i)) em l in
            edgeMap_ok (fsize mesh) em' ∧ ((l ≠ [] ∨ heap em ≠ []) → heap em' ≠ [])).
  { induction l as [|i l IH]; intros em Hok Hl; simpl.
    - split; [done|]. by intros [?|?].
    - apply Forall_cons in Hl as [Hi Hl].
      destruct (addFaceEdges_ok (fsize mesh) em mesh (Z.of_nat i) Hok) as [Hok1 Hne1];
        [unfold fsize; lia|].
      destruct (IH _ Hok1 Hl) as [Hok2 Hne2]. split; [done|]. intros _. apply Hne2. by right. }
  destruct (Hgen (seq 0 (length (faces mesh))) emptyEdgeMap (edgeMap_ok_empty _)) as [Hok Hne].
  { apply Forall_forall. intros i Hi%elem_of_seq. lia. }
  split; [done|]. intros Hf. apply Hne. left.
  destruct (faces mesh); [done|]. simpl. done.
Qed.

(** The loop, for any property [P] of the mesh that a round preserves. *)
Lemma refine_loop_spec (P : Mesh → Prop) N :
  (∀ mesh em, edgeMap_ok (fsize mesh) em → heap em ≠ [] → P mesh →
              P (refine_step (mesh, em)).1) →
  ∀ fuel mesh em,
    edgeMap_ok (fsize mesh) em → N - fsize mesh ≤ Z.of_nat fuel → P mesh →
    ∃ mesh' em' n,
      refine_loop fuel N (mesh, em) = Some (mesh', em', n)
      ∧ refine_continue N (mesh', em') = false
      ∧ length (vertices mesh') = (length (vertices mesh) + n)%nat
      ∧ fsize mesh ≤ fsize mesh'
      ∧ (heap em ≠ [] → heap em' ≠ [])
      ∧ P mesh'.
Proof.
  intros HP. induction fuel as [|fuel IH]; intros mesh em Hok Hfuel Hp.
  - cbn [refine_loop]. destruct (refine_continue N (mesh, em)) eqn:Ec.
    + unfold refine_continue in Ec. apply andb_prop in Ec as [Hc%bool_decide_eq_true _].
      simpl in Hc. lia.
    + exists mesh, em, 0%nat. repeat split; (done || lia).
  - cbn [refine_loop]. destruct (refine_continue N (mesh, em)) eqn:Ec.
    + unfold refine_continue in Ec.
      apply andb_prop in Ec as [Hc%bool_decide_eq_true Hh%bool_decide_eq_true].
      cbn [fst snd] in *.
      assert (Hne : heap em ≠ []).
      { unfold EdgeMap_size in Hh. intros Hnil. rewrite Hnil in Hh. simpl in Hh. lia. }
      destruct (refine_step_spec mesh em Hok Hne) as (Hv & Hf & Hok' & Hne').
      specialize (HP mesh em Hok Hne Hp).
      destruct (refine_step (mesh, em)) as [mesh1 em1]. cbn [fst snd] in *.
      destruct (IH mesh1 em1 Hok') as (mesh' & em' & n & -> & Hc' & Hv' & Hf' & Hne'' & Hp');
        [lia|done|].
      exists mesh', em', (S n). repeat split; try done; try lia. auto.
    + exists mesh, em, 0%nat. repeat split; (done || lia).
Qed.

(** More fuel does not change the outcome. *)
Lemma refine_loop_fuel N fuel : ∀ st r k,
  refine_loop fuel N st = Some r → refine_loop (fuel + k) N st = Some r.
Proof.
  induction fuel as [|fuel IH]; intros st r k; cbn [refine_loop Nat.add].
  - destruct (refine_continue N st) eqn:Ec; [done|].
    intros Hr. destruct k; cbn [refine_loop]; by rewrite Ec.
  - destruct (refine_continue N st) eqn:Ec; [|done].
    destruct (refine_loop fuel N (refine_step st)) as [[st' n]|] eqn:E; [|done].
    by rewrite (IH _ _ k E).
Qed.

(** ** The index invariant *)

Lemma mesh_inv_face_in m :
  mesh_inv m ↔ Forall (face_in (vsize m) (tsize m)) (faces m).
Proof.
  unfold mesh_inv, face_in, face_vertices_ok, face_textures_ok.
  assert (Ht : tCoords m ≠ [] ↔ 0 < tsize m).
  { unfold tsize. destruct (tCoords m); simpl; split; (done || lia). }
  rewrite !Forall_forall. split.
  - intros [Hv Hx] f Hf. split; [by apply Hv|]. intros Hnt.
    apply Ht in Hnt. by apply (Hx Hnt).
  - intros Hall. split; [intros f Hf; by apply Hall|].
    intros Hnt%Ht f Hf. by apply Hall.
Qed.

Lemma vec_get_Forall {A} (P : A → Prop) (l : list A) i d :
  Forall P l → P d → P (vec_get l i d).
Proof.
  intros Hl Hd. unfold vec_get. case_bool_decide; [|done].
  destruct (decide (Z.to_nat i < length l)%nat) as [Hlt|Hge].
  - destruct (lookup_lt_is_Some_2 l _ Hlt) as [x Hx].
    rewrite (nth_lookup_Some _ _ d _ Hx). by eapply Forall_lookup_1.
  - rewrite nth_overflow by lia. done.
Qed.

Lemma vec_set_Forall {A} (P : A → Prop) (l : list A) i x :
  Forall P l → P x → Forall P (vec_set l i x).
Proof.
  intros Hl Hx. unfold vec_set. case_bool_decide; [|done].
  destruct (decide (Z.to_nat i < length l)%nat) as [Hlt|Hge].
  - by apply Forall_insert.
  - rewrite list_insert_ge by lia. done.
Qed.

Lemma size_pred_bounds {A} (l : list A) :
  l ≠ [] → 0 ≤ size_pred l < Z.of_nat (length l).
Proof.
  intros Hne. unfold size_pred.
  assert (0 < Z.of_nat (length l)) by (destruct l; simpl in *; [done|lia]).
  pose proof (Z.mod_pos_bound (Z.of_nat (length l) - 1) (2 ^ 64) ltac:(lia)).
  pose proof (Z.mod_le (Z.of_nat (length l) - 1) (2 ^ 64) ltac:(lia) ltac:(lia)).
  lia.
Qed.

Lemma push_tcMiddle_tsize mesh t1 t2 :
  (tsize mesh = 0 → tsize (push_tcMiddle mesh t1 t2) = 0)
  ∧ (0 < tsize mesh → tsize (push_tcMiddle mesh t1 t2) = tsize mesh + 1).
Proof.
  unfold push_tcMiddle. case_bool_decide; split; intros; try lia; try done.
  unfold tsize. simpl. rewrite length_app. simpl. lia.
Qed.

Lemma face_in_mono nv nt nv' nt' f :
  nv ≤ nv' → 0 ≤ nt ≤ nt' → (nt = 0 → nt' = 0) → face_in nv nt f → face_in nv' nt' f.
Proof. unfold face_in. intros ? ? ? [? Ht]. split; [lia|]. intros ?. lia. Qed.

Lemma mesh_inv_mesh_in m : mesh_inv m ↔ mesh_in (vsize m) (tsize m) m.
Proof. rewrite mesh_inv_face_in. unfold mesh_in. naive_solver. Qed.

Lemma addFace_in nv nt m fa fb fc fta ftb ftc :
  mesh_in nv nt m → face_in nv nt (mkFace fa fb fc fta ftb ftc 0) →
  mesh_in nv nt (addFace m fa fb fc fta ftb ftc).
Proof.
  intros (Hv & Ht & Hf) Hnew. split_and!; [done|done|]. simpl.
  apply Forall_app. split; [done|]. by apply Forall_singleton.
Qed.

Lemma set_face_in nv nt m fid f :
  mesh_in nv nt m → face_in nv nt f → mesh_in nv nt (set_face m fid f).
Proof.
  intros (Hv & Ht & Hf) Hnew. split_and!; [done|done|]. simpl.
  by apply (vec_set_Forall (face_in nv nt)).
Qed.

Lemma face_in_get nv nt m fid :
  mesh_in nv nt m → 0 < nv → face_in nv nt (face m fid).
Proof.
  intros (Hv & Ht & Hf) Hnv. unfold face.
  apply (vec_get_Forall (face_in nv nt)); [done|].
  unfold face_in, defaultFace. simpl. lia.
Qed.

Lemma size_pred_in nv nt m :
  mesh_in nv nt m → 0 < nt → 0 ≤ size_pred (tCoords m) < nt.
Proof.
  intros (Hv & Ht & Hf) Hnt. rewrite <- Ht. apply size_pred_bounds.
  unfold tsize in Ht. destruct (tCoords m); simpl in *; [lia|done].
Qed.

Lemma push_tcMiddle_in m t1 t2 :
  mesh_inv m →
  mesh_in (vsize m) (tsize (push_tcMiddle m t1 t2)) (push_tcMiddle m t1 t2).
Proof.
  intros Hinv%mesh_inv_face_in.
  destruct (push_tcMiddle_frame m t1 t2) as [Hv Hf].
  destruct (push_tcMiddle_tsize m t1 t2) as [Ht0 Ht1].
  assert (0 ≤ tsize m) by (unfold tsize; lia).
  split_and!; [unfold vsize; by rewrite Hv|done|].
  rewrite Hf. eapply Forall_impl; [exact Hinv|].
  intros f. apply face_in_mono; lia.
Qed.

(** The face written by a split: indices of a face within the sizes, the
    new vertex, and the last texture coordinate. *)
Ltac face_in_tac Hg Hsp :=
  unfold face_in in *; simpl; split;
  [ lia
  | let Hnt := fresh in intros Hnt; specialize (Hsp Hnt);
    destruct Hg as [_ Hg]; specialize (Hg Hnt); lia ].

(** A split keeps the index invariant when the new vertex is a vertex of
    the mesh. *)
Lemma splitEdge_mesh_inv mesh em fid ty vid :
  mesh_inv mesh → 0 ≤ vid < vsize mesh →
  mesh_inv (splitEdge (mesh, em) fid ty vid).1.
Proof.
  intros Hinv Hvid.
  assert (Hgoal : ∃ nt, mesh_in (vsize mesh) nt (splitEdge (mesh, em) fid ty vid).1).
  { unfold splitEdge. destruct ty; cbv zeta; cbn [fst];
    match goal with
    | |- context [push_tcMiddle mesh ?t1 ?t2] =>
        pose proof (push_tcMiddle_in mesh t1 t2 Hinv) as H1;
        set (mesh1 := push_tcMiddle mesh t1 t2) in *
    end;
    exists (tsize mesh1);
    set (nt := tsize mesh1) in *;
    match goal with
    | |- mesh_in _ _ (set_face (set_face ?m2 _ ?F2) _ _) =>
        pose proof (face_in_get _ _ mesh1 fid H1 ltac:(lia)) as Hg1;
        pose proof (size_pred_in _ _ mesh1 H1) as Hs1;
        assert (H2 : mesh_in (vsize mesh) nt m2)
          by (apply addFace_in; [done|face_in_tac Hg1 Hs1]);
        pose proof (face_in_get _ _ m2 fid H2 ltac:(lia)) as Hg2;
        pose proof (size_pred_in _ _ m2 H2) as Hs2;
        assert (H3 : mesh_in (vsize mesh) nt (set_face m2 fid F2))
          by (apply set_face_in; [done|face_in_tac Hg2 Hs2]);
        pose proof (face_in_get _ _ (set_face m2 fid F2) fid H3 ltac:(lia)) as Hg3;
        pose proof (size_pred_in _ _ (set_face m2 fid F2) H3) as Hs3;
        apply set_face_in; [done|face_in_tac Hg3 Hs3]
    end. }
  destruct Hgoal as (nt & Hin).
  destruct (splitEdge_shape mesh em fid ty vid) as (Hv & _).
  apply mesh_inv_mesh_in. destruct Hin as (Hv' & Ht' & Hf').
  by rewrite Hv', Ht'.
Qed.

Lemma push_vertex_mesh_inv mesh p :
  mesh_inv mesh → mesh_inv (mkMesh (vertices mesh ++ [p]) (tCoords mesh) (faces mesh)).
Proof.
  rewrite !mesh_inv_face_in. intros Hinv. unfold vsize, tsize. simpl.
  eapply Forall_impl; [exact Hinv|]. intros f.
  apply face_in_mono; rewrite ?length_app; unfold vsize, tsize; simpl; lia.
Qed.

(** A round of the main loop keeps the index invariant. *)
Lemma refine_step_mesh_inv mesh em :
  mesh_inv mesh → mesh_inv (refine_step (mesh, em)).1.
Proof.
  intros Hinv. unfold refine_step.
  destruct (pop_top_edge em) as [edge em1].
  set (mesh1 := mkMesh (vertices mesh ++ [_]) (tCoords mesh) (faces mesh)).
  assert (Hinv1 : mesh_inv mesh1) by (by apply push_vertex_mesh_inv).
  assert (Hst : ∀ st : Mesh * EdgeMap, mesh_inv st.1 → st.1.(vertices) ≠ [] →
            ∀ fid ty, let r := splitEdge st fid ty (Z.of_nat (length (vertices st.1)) - 1) in
                      mesh_inv r.1 ∧ vertices r.1 ≠ []).
  { intros [m e] Hm Hne fid ty. cbn [fst] in *.
    destruct (splitEdge_shape m e fid ty (Z.of_nat (length (vertices m)) - 1)) as (Hv & _).
    cbv zeta in *. rewrite Hv. split; [|done].
    apply splitEdge_mesh_inv; [done|]. unfold vsize.
    destruct (vertices m); simpl in *; [done|lia]. }
  assert (Hne1 : vertices (mesh1, em1).1 ≠ []).
  { simpl. intros Hnil. apply app_eq_nil in Hnil as [_ ?]. done. }
  destruct (bool_decide (0 ≤ f1 edge)).
  - destruct (Hst (mesh1, em1) Hinv1 Hne1 (f1 edge) (et1 edge)) as [Hinv2 Hne2].
    destruct (bool_decide (0 ≤ f2 edge)); [|done].
    by apply Hst.
  - destruct (bool_decide (0 ≤ f2 edge)); [|done].
    by apply Hst.
Qed.

(** ** Links of the edge records *)

Lemma EdgeKey_presented p q pv1 pv2 :
  EdgeKey p q = EdgeKey pv1 pv2 →
  (bool_decide (p < q) = bool_decide (pv1 < pv2) ↔ (p, q) = (pv1, pv2)).
Proof.
  unfold EdgeKey. intros [= Hmin Hmax]. split.
  - intros Hb. f_equal; repeat case_bool_decide; try done; lia.
  - by intros [= -> ->].
Qed.

Lemma slot_addFace_same e pv1 pv2 fid ty :
  slot (Edge_addFace e pv1 pv2 fid ty) pv1 pv2 = (fid, ty).
Proof. unfold slot, Edge_addFace. by case_bool_decide. Qed.

Lemma slot_addFace_other e p q pv1 pv2 fid ty :
  bool_decide (p < q) ≠ bool_decide (pv1 < pv2) →
  slot (Edge_addFace e pv1 pv2 fid ty) p q = slot e p q.
Proof. unfold slot, Edge_addFace. by repeat case_bool_decide. Qed.

(** [addFaceEdge] links its edge to the face it is called for. *)
Lemma addFaceEdge_links fsz em pv1 pv2 fid ty len :
  edgeMap_ok fsz em →
  ∃ e, edge_record (addFaceEdge em pv1 pv2 fid ty len) pv1 pv2 = Some e
       ∧ slot e pv1 pv2 = (fid, ty).
Proof.
  intros [Hh Hm]. unfold addFaceEdge, edge_record.
  destruct (emap em !! EdgeKey pv1 pv2) as [h|] eqn:E; simpl.
  - destruct (Hm _ _ E) as (_ & e & He & _).
    rewrite E. simpl. rewrite list_lookup_alter_eq, He. simpl.
    eexists. split; [done|]. apply slot_addFace_same.
  - rewrite lookup_insert_eq. simpl.
    rewrite lookup_app_r by lia. rewrite Nat.sub_diag. simpl.
    eexists. split; [done|]. apply slot_addFace_same.
Qed.

(** The other links stay, except for a link of the same edge in the same
    slot, which the call replaces. *)
Lemma addFaceEdge_keeps fsz em pv1 pv2 fid ty len p q e :
  edgeMap_ok fsz em →
  edge_record em p q = Some e →
  ∃ e', edge_record (addFaceEdge em pv1 pv2 fid ty len) p q = Some e'
        ∧ (slot e' p q = slot e p q ∨ (p, q) = (pv1, pv2)).
Proof.
  intros [Hh Hm]. unfold edge_record.
  destruct (emap em !! EdgeKey p q) as [h|] eqn:Eh; [|done]. simpl. intros He.
  destruct (Hm _ _ Eh) as (_ & e0 & He0 & Hk). rewrite He in He0. injection He0 as <-.
  unfold addFaceEdge.
  destruct (emap em !! EdgeKey pv1 pv2) as [h'|] eqn:E; simpl.
  - rewrite Eh. simpl. destruct (decide (h' = h)) as [->|Hne].
    + rewrite list_lookup_alter_eq, He. simpl. eexists. split; [done|].
      destruct (Hm _ _ E) as (_ & e1 & He1 & Hk1).
      rewrite He in He1. injection He1 as <-.
      assert (Hkey : EdgeKey p q = EdgeKey pv1 pv2) by congruence.
      destruct (decide (bool_decide (p < q) = bool_decide (pv1 < pv2))) as [Hb|Hb].
      * right. by apply (EdgeKey_presented _ _ _ _ Hkey).
      * left. by apply slot_addFace_other.
    + rewrite list_lookup_alter_ne by done. rewrite He. eauto.
  - destruct (decide (EdgeKey pv1 pv2 = EdgeKey p q)) as [Hkey|Hkey]; [congruence|].
    rewrite lookup_insert_ne by done. rewrite Eh. simpl.
    rewrite (lookup_app_l_Some _ _ _ _ He). eauto.
Qed.

Lemma addFaceEdge_linked fsz mesh G em fid ty len :
  edgeMap_ok fsz em → G fid →
  let pq := face_edge (face mesh fid) ty in
  let em' := addFaceEdge em pq.1 pq.2 fid ty len in
  linked mesh G em' pq ∧ ∀ pq', linked mesh G em pq' → linked mesh G em' pq'.
Proof.
  intros Hok HG pq em'. 
  assert (Hnew : linked mesh G em' pq).
  { destruct (addFaceEdge_links fsz em pq.1 pq.2 fid ty len Hok) as (e & He & Hs).
    exists e. rewrite Hs. simpl. split; [exact He|]. split; [done|reflexivity]. }
  split; [done|].
  intros pq' (e & He & HGe & Hfe).
  destruct (addFaceEdge_keeps fsz em pq.1 pq.2 fid ty len pq'.1 pq'.2 e Hok He)
    as (e' & He' & [Hs|Heq]).
  - exists e'. rewrite Hs. split; [exact He'|done].
  - assert (pq' = pq) as ->; [|done].
    rewrite (surjective_pairing pq'), (surjective_pairing pq). exact Heq.
Qed.

Lemma addFaceEdges_linked fsz mesh G em fid :
  edgeMap_ok fsz em → 0 ≤ fid < fsz → G fid →
  let em' := addFaceEdges em mesh fid in
  (∀ t, linked mesh G em' (face_edge (face mesh fid) t))
  ∧ ∀ pq', linked mesh G em pq' → linked mesh G em' pq'.
Proof.
  intros Hok Hfid HG. unfold addFaceEdges.
  set (f := face mesh fid).
  set (em1 := addFaceEdge em (a f) (b f) fid AB _).
  set (em2 := addFaceEdge em1 (b f) (c f) fid BC _).
  destruct (addFaceEdge_ok fsz em (a f) (b f) fid AB
              (norm_2 (p3_sub (vertex mesh (a f)) (vertex mesh (b f)))) Hok Hfid) as [Hok1 _].
  fold em1 in Hok1.
  destruct (addFaceEdge_ok fsz em1 (b f) (c f) fid BC
              (norm_2 (p3_sub (vertex mesh (b f)) (vertex mesh (c f)))) Hok1 Hfid) as [Hok2 _].
  fold em2 in Hok2.
  destruct (addFaceEdge_linked fsz mesh G em fid AB
              (norm_2 (p3_sub (vertex mesh (a f)) (vertex mesh (b f)))) Hok HG) as [L1 K1].
  destruct (addFaceEdge_linked fsz mesh G em1 fid BC
              (norm_2 (p3_sub (vertex mesh (b f)) (vertex mesh (c f)))) Hok1 HG) as [L2 K2].
  destruct (addFaceEdge_linked fsz mesh G em2 fid CA
              (norm_2 (p3_sub (vertex mesh (c f)) (vertex mesh (a f)))) Hok2 HG) as [L3 K3].
  cbn [face_edge fst snd] in *. fold f em1 em2 in L1, K1, L2, K2, L3, K3 |- *.
  split; [|by auto].
  intros [| |]; cbn [face_edge]; fold f; auto.
Qed.

Lemma vec_get_lookup {A} (l : list A) (i : nat) d x :
  l !! i = Some x → vec_get l (Z.of_nat i) d = x.
Proof.
  intros Hl. unfold vec_get. rewrite bool_decide_eq_true_2 by lia.
  rewrite Nat2Z.id. by apply nth_lookup_Some.
Qed.

Lemma face_set_face_eq m fid F :
  0 ≤ fid < fsize m → face (set_face m fid F) fid = F.
Proof.
  intros Hfid. unfold face, set_face, vec_set, vec_get, fsize in *. cbn [faces].
  rewrite !bool_decide_eq_true_2 by lia.
  apply nth_lookup_Some. apply list_lookup_insert_eq. lia.
Qed.

Lemma face_set_face_ne m fid F j :
  0 ≤ fid → 0 ≤ j → j ≠ fid → face (set_face m fid F) j = face m j.
Proof.
  intros Hfid Hj Hne. unfold face, set_face, vec_set, vec_get. cbn [faces].
  rewrite !bool_decide_eq_true_2 by lia.
  rewrite !nth_lookup. rewrite list_lookup_insert_ne by lia. done.
Qed.

Lemma face_addFace_old m x1 x2 x3 x4 x5 x6 j :
  0 ≤ j < fsize m → face (addFace m x1 x2 x3 x4 x5 x6) j = face m j.
Proof.
  intros Hj. unfold face, addFace, vec_get, fsize in *. cbn [faces].
  rewrite !bool_decide_eq_true_2 by lia. apply app_nth1. lia.
Qed.

Lemma face_addFace_new m x1 x2 x3 x4 x5 x6 :
  face (addFace m x1 x2 x3 x4 x5 x6) (fsize m) = mkFace x1 x2 x3 x4 x5 x6 0.
Proof.
  unfold face, addFace, vec_get, fsize. cbn [faces].
  rewrite bool_decide_eq_true_2 by lia. rewrite Nat2Z.id.
  rewrite app_nth2 by lia. by rewrite Nat.sub_diag.
Qed.

Lemma fsize_set_face m fid F : fsize (set_face m fid F) = fsize m.
Proof. unfold fsize. by rewrite set_face_faces_length. Qed.

Lemma fsize_addFace m x1 x2 x3 x4 x5 x6 :
  fsize (addFace m x1 x2 x3 x4 x5 x6) = fsize m + 1.
Proof. unfold fsize, addFace. cbn [faces]. rewrite length_app. simpl. lia. Qed.

Lemma push_tcMiddle_face m t1 t2 j :
  face (push_tcMiddle m t1 t2) j = face m j ∧ fsize (push_tcMiddle m t1 t2) = fsize m.
Proof. unfold push_tcMiddle, face, fsize. by case_bool_decide. Qed.

(** The two halves of a split face. *)
Lemma splitEdge_halves mesh em fid ty vid :
  0 ≤ fid < fsize mesh →
  let r := splitEdge (mesh, em) fid ty vid in
  let f := face mesh fid in
  abc (face r.1 fid) =
    match ty with
    | AB => (a f, vid, c f)
    | BC => (a f, b f, vid)
    | CA => (vid, b f, c f)
    end
  ∧ abc (face r.1 (fsize mesh)) =
    match ty with
    | AB => (b f, c f, vid)
    | BC => (c f, a f, vid)
    | CA => (a f, b f, vid)
    end.
Proof.
  intros Hfid. unfold splitEdge. destruct ty; cbv zeta; cbn [fst];
  match goal with
  | |- context [push_tcMiddle mesh ?t1 ?t2] =>
      destruct (push_tcMiddle_face mesh t1 t2 fid) as [Hpf Hps];
      set (mesh1 := push_tcMiddle mesh t1 t2) in *
  end;
  (split;
   [ rewrite face_set_face_eq by (rewrite ?fsize_set_face, fsize_addFace; lia);
     unfold abc; cbn [a b c];
     rewrite ?face_set_face_eq by (rewrite ?fsize_set_face, fsize_addFace; lia);
     cbn [a b c];
     rewrite ?face_addFace_old by lia; by rewrite ?Hpf
   | rewrite !face_set_face_ne by lia;
     rewrite <- Hps, face_addFace_new; unfold abc; cbn [a b c]; by rewrite ?Hpf ]).
Qed.

Lemma degenerate_false f : degenerate f = false → a f ≠ b f ∧ b f ≠ c f ∧ c f ≠ a f.
Proof.
  unfold degenerate. intros Hd.
  apply orb_false_elim in Hd as [Hd Hca]. apply orb_false_elim in Hd as [Hab Hbc].
  apply bool_decide_eq_false in Hab, Hbc, Hca. done.
Qed.

(** The six edges the two halves of a proper triangle present are pairwise
    different as ordered pairs. *)
Lemma halves_edges_inj (x y z vid : Z) (ty : EdgeType) (o n : Z * Z * Z) :
  x ≠ y → y ≠ z → z ≠ x → x ≠ vid → y ≠ vid → z ≠ vid →
  o = match ty with AB => (x, vid, z) | BC => (x, y, vid) | CA => (vid, y, z) end →
  n = match ty with AB => (y, z, vid) | BC => (z, x, vid) | CA => (x, y, vid) end →
  let edge (h : bool) (t : EdgeType) :=
    let '(p, q, r) := if h then o else n in
    match t with AB => (p, q) | BC => (q, r) | CA => (r, p) end in
  ∀ h h' t t', edge h t = edge h' t' → h = h' ∧ t = t'.
Proof.
  intros Hxy Hyz Hzx Hx Hy Hz -> -> edge h h' t t'. subst edge.
  destruct ty, h, h', t, t'; cbn; intros Heq;
    apply pair_equal_spec in Heq as [H1 H2];
    first [ split; reflexivity | exfalso; clear - Hxy Hyz Hzx Hx Hy Hz H1 H2; lia ].
Qed.

(** C2: after a split has entered the edges of its two halves again, every
    edge of either half has a record in the map whose slot for the way the
    half presents the endpoints (first slot when [pv1 < pv2], second
    otherwise) names a half that presents this very edge, with its edge
    type; for a proper triangle and a fresh vertex it is that half and that
    edge of it.  This covers the edges shared with faces not yet split, in
    either order of the endpoints.  The two hypotheses hold at every split
    [refine] makes ([refine_init_ok], [pop_top_edge_ok], [splitEdge_ok]). *)
Theorem splitEdge_relinks mesh em fid ty vid :
  edgeMap_ok (fsize mesh) em → 0 ≤ fid < fsize mesh →
  let r := splitEdge (mesh, em) fid ty vid in
  let half g := g = fid ∨ g = fsize r.1 - 1 in
  ∀ g t, half g →
    let pq := face_edge (face r.1 g) t in
    ∃ e, edge_record r.2 pq.1 pq.2 = Some e
         ∧ half (slot e pq.1 pq.2).1
         ∧ face_edge (face r.1 (slot e pq.1 pq.2).1) (slot e pq.1 pq.2).2 = pq
         ∧ (degenerate (face mesh fid) = false →
            a (face mesh fid) ≠ vid → b (face mesh fid) ≠ vid → c (face mesh fid) ≠ vid →
            slot e pq.1 pq.2 = (g, t)).
Proof.
  intros Hok Hfid r half g t Hg pq.
  destruct (splitEdge_shape mesh em fid ty vid) as (_ & Hlen & Hem).
  destruct (splitEdge_halves mesh em fid ty vid Hfid) as (Hold & Hnew).
  fold r in Hlen, Hem, Hold, Hnew.
  assert (Hsz : fsize r.1 - 1 = fsize mesh) by (unfold fsize; lia).
  assert (Hok0 : edgeMap_ok (fsize r.1) em)
    by (apply (edgeMap_ok_mono (fsize mesh)); [lia|done]).
  destruct (addFaceEdges_ok (fsize r.1) em r.1 fid Hok0 ltac:(lia)) as [Hok1 _].
  destruct (addFaceEdges_linked (fsize r.1) r.1 half em fid Hok0 ltac:(lia) ltac:(by left))
    as [L1 _].
  destruct (addFaceEdges_linked (fsize r.1) r.1 half (addFaceEdges em r.1 fid)
              (fsize r.1 - 1) Hok1 ltac:(lia) ltac:(by right)) as [L2 K2].
  rewrite <- Hem in L2, K2.
  assert (HL : linked r.1 half r.2 pq).
  { destruct Hg as [->| ->]; [apply K2, L1|apply L2]. }
  destruct HL as (e & He & Hh & Hfe).
  exists e. split_and!; [done|done|done|].
  intros Hnd Ha Hb Hc. apply degenerate_false in Hnd as (Hab & Hbc & Hca).
  pose proof (halves_edges_inj _ _ _ vid ty _ _ Hab Hbc Hca Ha Hb Hc
                (eq_sym (eq_sym Hold)) Hnew) as Hinj. cbv zeta in Hinj.
  destruct (slot e pq.1 pq.2) as [g' t']. cbn [fst snd] in *.
  subst pq. unfold half in Hh, Hg. rewrite Hsz in *.
  assert (Hfe' : ∀ (h : bool) t0,
            face_edge (face r.1 (if h then fid else fsize mesh)) t0 =
            (let '(p, q, r0) := if h then abc (face r.1 fid) else abc (face r.1 (fsize mesh)) in
             match t0 with AB => (p, q) | BC => (q, r0) | CA => (r0, p) end)).
  { intros [|] [| |]; reflexivity. }
  assert (Hb2 : ∀ g0, g0 = fid ∨ g0 = fsize mesh →
                 ∃ h : bool, g0 = if h then fid else fsize mesh).
  { intros g0 [-> | ->]; [by exists true|by exists false]. }
  destruct (Hb2 g Hg) as [h ->]. destruct (Hb2 g' Hh) as [h' ->].
  rewrite !Hfe' in Hfe. destruct (Hinj h' h t' t Hfe) as [-> ->]. done.
Qed.

(** ** The three operations and the index invariant *)

Lemma face_in_untag nv nt f : face_in nv nt (untag f) ↔ face_in nv nt f.
Proof. done. Qed.

Lemma removeNonManifoldEdges_mesh_inv m :
  mesh_inv m → mesh_inv (removeNonManifoldEdges m).
Proof.
  rewrite !mesh_inv_face_in, removeNonManifoldEdges_spec. unfold vsize, tsize. cbn.
  intros Hinv. apply Forall_fmap, Forall_forall. intros f Hf.
  apply face_in_untag. rewrite Forall_forall in Hinv. apply Hinv.
  eapply elem_of_sublist; [exact Hf|apply kept_from_sublist].
Qed.

Section ClipFacts.
Context `{!TriClip}.

Lemma clip_weld_spec m e :
  weld_ok (weld (clipped_soup m e))
  ∧ vertices (clip m e) = first_seen [] (corners (clipped_soup m e))
  ∧ faces (clip m e) = omap (welded_face (vertices (clip m e))) (clipped_soup m e).
Proof.
  unfold clip, weld. fold (clipped_soup m e).
  destruct (weld_fold_spec (clipped_soup m e) _ weld_ok_init) as (Hok & Hv & Hf).
  done.
Qed.

Lemma first_seen_elem l : ∀ seen p, p ∈ seen ∨ p ∈ l → p ∈ first_seen seen l.
Proof.
  induction l as [|q l IH]; intros seen p; simpl.
  - intros [?|?%elem_of_nil]; done.
  - intros Hp. apply IH. case_bool_decide as Hq.
    + destruct Hp as [?|[->|?]%elem_of_cons]; auto.
    + rewrite elem_of_app, list_elem_of_singleton.
      destruct Hp as [?|[->|?]%elem_of_cons]; auto.
Qed.

Lemma index_of_elem (vs : list Point3) p :
  p ∈ vs → ∃ i : nat, index_of vs p = Z.of_nat i ∧ vs !! i = Some p.
Proof.
  intros Hp. unfold index_of.
  destruct (list_find (λ q, q = p) vs) as [[i q]|] eqn:E.
  - apply list_find_Some in E as (Hi & -> & _). by exists i.
  - apply list_find_None in E. rewrite Forall_forall in E. by destruct (E p Hp).
Qed.

Lemma corners_elem t ts :
  t ∈ ts → pos0 t ∈ corners ts ∧ pos1 t ∈ corners ts ∧ pos2 t ∈ corners ts.
Proof.
  induction ts as [|t' ts IH]; [by intros ?%elem_of_nil|].
  intros [->|Hin]%elem_of_cons; simpl.
  - rewrite !elem_of_cons. split_and!; auto 6.
  - destruct (IH Hin) as (?&?&?). rewrite !elem_of_cons. split_and!; auto 6.
Qed.

Lemma welded_face_in vs t f :
  pos0 t ∈ vs → pos1 t ∈ vs → pos2 t ∈ vs →
  welded_face vs t = Some f → face_in (Z.of_nat (length vs)) 0 f.
Proof.
  intros (i0 & E0 & L0)%index_of_elem (i1 & E1 & L1)%index_of_elem
         (i2 & E2 & L2)%index_of_elem.
  unfold welded_face. rewrite E0, E1, E2.
  destruct (_ && _); [|done]. intros [= <-].
  apply lookup_lt_Some in L0, L1, L2.
  unfold face_in. simpl. split; [lia|]. intros ?. lia.
Qed.

Lemma clip_mesh_inv m e : mesh_inv (clip m e).
Proof.
  destruct (clip_weld_spec m e) as ((_ & _ & _ & Ht) & Hv & Hf).
  apply mesh_inv_face_in. unfold tsize.
  change (tCoords (clip m e)) with (tCoords (pmesh (weld (clipped_soup m e)))).
  rewrite Ht, Hf. cbn [length]. unfold vsize.
  apply Forall_forall. intros f (t & Ht' & Hw)%list_elem_of_omap.
  destruct (corners_elem t _ Ht') as (Hc0 & Hc1 & Hc2).
  apply (welded_face_in _ t); [..|done]; rewrite Hv; apply first_seen_elem; by right.
Qed.

(** C1, as amended: [clip] carries no texture coordinates.  For every input
    mesh, box and half-space pass, the mesh returned has an empty [tCoords]
    and every face has the value-initialised texture indices; the parameters
    [t] the passes report ([tinfos]) are not used. *)
Theorem clip_no_texture m e :
  tCoords (clip m e) = []
  ∧ Forall (λ f, ta f = 0 ∧ tb f = 0 ∧ tc f = 0) (faces (clip m e)).
Proof.
  destruct (clip_weld_spec m e) as ((_ & _ & _ & Ht) & _ & Hf).
  split; [exact Ht|]. rewrite Hf. apply Forall_forall.
  intros f (t & _ & Hw)%list_elem_of_omap. unfold welded_face in Hw.
  destruct (_ && _); [|done]. by injection Hw as <-.
Qed.

(** C5: the vertices of the mesh [clip] returns hold no position twice, and
    they are the positions of the corners of the clipped triangles in the
    order they were first seen: the first occurrence of a position takes the
    next unused index. *)
Theorem clip_welds_first_seen m e :
  NoDup (vertices (clip m e))
  ∧ vertices (clip m e) = first_seen [] (corners (clipped_soup m e)).
Proof.
  destruct (clip_weld_spec m e) as ((_ & _ & Hd & _) & Hv & _). by split.
Qed.

(** C6: the faces of the mesh [clip] returns are, in order, those of the
    clipped triangles whose three welded indices are pairwise distinct; a
    triangle with two equal indices yields no face.  The welded indices are
    the places of the corners in the vertex list. *)
Theorem clip_faces_distinct_indices m e :
  let vs := vertices (clip m e) in
  faces (clip m e) = omap (welded_face vs) (clipped_soup m e)
  ∧ Forall (λ t, vs !! Z.to_nat (index_of vs (pos0 t)) = Some (pos0 t)
                 ∧ vs !! Z.to_nat (index_of vs (pos1 t)) = Some (pos1 t)
                 ∧ vs !! Z.to_nat (index_of vs (pos2 t)) = Some (pos2 t))
           (clipped_soup m e).
Proof.
  intros vs. destruct (clip_weld_spec m e) as (_ & Hv & Hf). split; [exact Hf|].
  apply Forall_forall. intros t Ht.
  destruct (corners_elem t _ Ht) as (Hc0 & Hc1 & Hc2).
  assert (Hin : ∀ p, p ∈ corners (clipped_soup m e) →
                vs !! Z.to_nat (index_of vs p) = Some p).
  { intros p Hp. destruct (index_of_elem vs p) as (i & -> & Hl).
    - subst vs. rewrite Hv. apply first_seen_elem. by right.
    - by rewrite Nat2Z.id. }
  auto.
Qed.

End ClipFacts.

Lemma refine_run_spec (P : Mesh → Prop) m N :
  (∀ mesh em, P mesh → P (refine_step (mesh, em)).1) → P m →
  ∃ r em n,
    refine_run m N = Some (r, em, n)
    ∧ refine_continue N (r, em) = false
    ∧ length (vertices r) = (length (vertices m) + n)%nat
    ∧ fsize m ≤ fsize r
    ∧ (faces m ≠ [] → heap em ≠ [])
    ∧ P r.
Proof.
  intros HP Hp. unfold refine_run.
  destruct (refine_init_ok m) as [Hok Hne].
  destruct (refine_loop_spec P N (λ mesh em _ _, HP mesh em)
              (refine_fuel m N) m (refine_init m) Hok) as (r & em & n & Hr & Hc & Hv & Hf & Hh & Hp');
    [unfold refine_fuel; lia|done|].
  exists r, em, n. split_and!; try done. auto.
Qed.

Lemma refine_mesh_inv m N :
  mesh_inv m → ∃ r, refine m N = Some r ∧ mesh_inv r.
Proof.
  intros Hinv.
  destruct (refine_run_spec mesh_inv m N) as (r & em & n & Hr & _ & _ & _ & _ & Hp);
    [intros; by apply refine_step_mesh_inv|done|].
  exists r. unfold refine. by rewrite Hr.
Qed.

(** C4: [refine] returns a mesh with at least [min(N, faces.size())] faces,
    and its vertex count is that of the input plus the number [n] of rounds
    of the main loop, each of which is one split step.  It holds for every
    mesh, the non-empty ones among them. *)
Theorem refine_growth m N :
  ∃ r em n,
    refine_run m N = Some (r, em, n)
    ∧ Z.min N (fsize m) ≤ fsize r
    ∧ length (vertices r) = (length (vertices m) + n)%nat.
Proof.
  destruct (refine_run_spec (λ _, True) m N) as (r & em & n & Hr & _ & Hv & Hf & _);
    [done|done|].
  exists r, em, n. split_and!; [done|lia|done].
Qed.

(** C8: [refine] terminates.  The main loop ends in a state where the face
    count has reached [maxFacesCount] or the heap is empty, and it ends
    below the target only when the input mesh has no face. *)
Theorem refine_terminates m N :
  ∃ r em n,
    refine_run m N = Some (r, em, n)
    ∧ refine_continue N (r, em) = false
    ∧ (N ≤ fsize r ∨ (heap em = [] ∧ faces m = [])).
Proof.
  destruct (refine_run_spec (λ _, True) m N) as (r & em & n & Hr & Hc & _ & _ & Hh & _);
    [done|done|].
  exists r, em, n. split_and!; [done|done|].
  unfold refine_continue in Hc. cbn [fst snd] in Hc.
  apply andb_false_iff in Hc as [Hc|Hc]; apply bool_decide_eq_false in Hc.
  - left. lia.
  - right. assert (Hnil : heap em = []).
    { unfold EdgeMap_size in Hc. destruct (heap em); [done|simpl in Hc; lia]. }
    split; [done|]. destruct (faces m) as [|f fs] eqn:E; [done|].
    exfalso. by apply Hh.
Qed.

(** C10: [clip], [removeNonManifoldEdges] and [refine] return a mesh that
    satisfies the index invariant when the input does. *)
Theorem mesh_inv_preserved `{!TriClip} m :
  mesh_inv m →
  (∀ e, mesh_inv (clip m e))
  ∧ mesh_inv (removeNonManifoldEdges m)
  ∧ (∀ N, ∃ r, refine m N = Some r ∧ mesh_inv r).
Proof.
  intros Hinv. split_and!.
  - intros e. apply clip_mesh_inv.
  - by apply removeNonManifoldEdges_mesh_inv.
  - intros N. by apply refine_mesh_inv.
Qed.

End Facts.

(** ** The PLY loader *)

Lemma getline_header_lines s : ∀ cur,
  match getline s with
  | (line, Some rest) =>
      header_lines_from cur s =
      (rev cur ++ line) ::
        (if bool_decide (rev cur ++ line = chars "end_header") then []
         else header_lines_from [] rest)
  | (line, None) => header_lines_from cur s = []
  end.
Proof.
  induction s as [|ch s IH]; intros cur; simpl; [done|].
  destruct (Ascii.eqb ch "010") eqn:E.
  - by rewrite app_nil_r.
  - specialize (IH (ch :: cur)). destruct (getline s) as [line [rest|]]; [|done].
    simpl in IH. by rewrite <- !app_assoc in IH.
Qed.

Lemma getline_rest_length s line rest :
  getline s = (line, Some rest) → (length rest < length s)%nat.
Proof.
  revert line. induction s as [|ch s IH]; intros line; simpl; [done|].
  destruct (Ascii.eqb ch "010").
  - intros [= _ <-]. lia.
  - destruct (getline s) as [l [r|]] eqn:E; [|done].
    intros [= _ <-]. specialize (IH l eq_refl). lia.
Qed.

Lemma read_header_spec fuel : ∀ s nvert ntris,
  (length s < fuel)%nat →
  read_header fuel s nvert ntris = Error StreamFailure
  ∨ ∃ rest, read_header fuel s nvert ntris
            = Ok (scan_counts (header_lines s) nvert ntris, rest).
Proof.
  induction fuel as [|fuel IH]; intros s nvert ntris Hlen; [lia|].
  destruct s as [|ch s]; [by left|]. cbn [read_header].
  pose proof (getline_header_lines (ch :: s) []) as Hl.
  pose proof (getline_rest_length (ch :: s)) as Hr.
  destruct (getline (ch :: s)) as [line [rest|]].
  - cbn [rev app] in Hl. unfold header_lines. rewrite Hl.
    case_bool_decide.
    + right. by exists rest.
    + specialize (Hr line rest eq_refl).
      destruct (IH rest (default nvert (scan_element "vertex" line))
                  (default ntris (scan_element "face" line))) as [->|[r ->]]; [lia|by left|].
      right. by exists r.
  - right. exists []. unfold header_lines. by rewrite Hl.
Qed.

Lemma scan_counts_none_vertex lines : ∀ nvert ntris,
  Forall (λ l, scan_element "vertex" l = None) lines →
  (scan_counts lines nvert ntris).1 = nvert.
Proof.
  unfold scan_counts. induction lines as [|l lines IH]; intros nvert ntris Hn; [done|].
  apply Forall_cons in Hn as [Hl Hn]. simpl. rewrite Hl. simpl. by apply IH.
Qed.

Lemma scan_counts_none_face lines : ∀ nvert ntris,
  Forall (λ l, scan_element "face" l = None) lines →
  (scan_counts lines nvert ntris).2 = ntris.
Proof.
  unfold scan_counts. induction lines as [|l lines IH]; intros nvert ntris Hn; [done|].
  apply Forall_cons in Hn as [Hl Hn]. simpl. rewrite Hl. simpl. by apply IH.
Qed.

Section LoadPlyFacts.
Context `{StreamNum}.

Lemma load_points_read n : ∀ s mesh ps s',
  read_points n s = Some (ps, s') →
  load_points n s mesh = Ok (mkMesh (vertices mesh ++ ps) (tCoords mesh) (faces mesh), s')
  ∧ length ps = n.
Proof.
  induction n as [|n IH]; intros s mesh ps s'; cbn [read_points load_points].
  - intros [= <- <-]. rewrite app_nil_r. by destruct mesh.
  - destruct (read_double s) as [[x s1]|]; [|done]. cbn.
    destruct (read_double s1) as [[y s2]|]; [|done]. cbn.
    destruct (read_double s2) as [[z s3]|]; [|done]. cbn.
    destruct (read_points n s3) as [[ps' s4]|] eqn:E; [|done]. cbn.
    intros [= <- <-].
    destruct (IH s3 (mkMesh (vertices mesh ++ [(x, y, z)]) (tCoords mesh) (faces mesh))
                ps' s4 E) as [-> Hlen].
    cbn. rewrite <- app_assoc. simpl. by rewrite Hlen.
Qed.

Lemma load_triangles_read n : ∀ s mesh ts s',
  read_triangles n s = Some (ts, s') →
  load_triangles n s mesh
  = Ok (mkMesh (vertices mesh) (tCoords mesh) (faces mesh ++ map triangle_face ts), s')
  ∧ length ts = n.
Proof.
  induction n as [|n IH]; intros s mesh ts s'; cbn [read_triangles load_triangles].
  - intros [= <- <-]. simpl. rewrite app_nil_r. by destruct mesh.
  - destruct (read_int s) as [[k s1]|]; [|done]. cbn.
    destruct (read_int s1) as [[ia s2]|]; [|done]. cbn.
    destruct (read_int s2) as [[ib s3]|]; [|done]. cbn.
    destruct (read_int s3) as [[ic s4]|]; [|done]. cbn.
    case_bool_decide; [|done].
    destruct (read_triangles n s4) as [[ts' s5]|] eqn:E; [|done]. cbn.
    intros [= <- <-].
    destruct (IH s4 (addFace3 mesh (to_index ia) (to_index ib) (to_index ic)) ts' s5 E)
      as [-> Hlen].
    cbn. rewrite <- app_assoc. simpl. by rewrite Hlen.
Qed.

Lemma load_triangles_app k : ∀ j s mesh,
  load_triangles (k + j) s mesh =
  match load_triangles k s mesh with
  | Ok (mesh', s') => load_triangles j s' mesh'
  | Error e => Error e
  | OutOfFuel => OutOfFuel
  end.
Proof.
  induction k as [|k IH]; intros j s mesh; cbn [Nat.add load_triangles]; [done|].
  destruct (read_int s) as [[n s1]|]; [|done].
  destruct (read_int s1) as [[ia s2]|]; [|done].
  destruct (read_int s2) as [[ib s3]|]; [|done].
  destruct (read_int s3) as [[ic s4]|]; [|done].
  case_bool_decide; [apply IH|done].
Qed.

Lemma load_triangles_bad j s mesh n s' :
  read_int s = Some (n, s') → n ≠ 3 →
  load_triangles (S j) s mesh = Error NotTriangle
  ∨ load_triangles (S j) s mesh = Error StreamFailure.
Proof.
  intros Hr Hn. cbn [load_triangles]. rewrite Hr.
  destruct (read_int s') as [[ia s2]|]; [|by right].
  destruct (read_int s2) as [[ib s3]|]; [|by right].
  destruct (read_int s3) as [[ic s4]|]; [|by right].
  rewrite bool_decide_eq_false_2 by done. by left.
Qed.

End LoadPlyFacts.

(** ** Manifold meshes and [removeNonManifoldEdges] *)

Section ManifoldFacts.
Context `{Numeric}.

Lemma incident_count_untag fs k :
  incident_count (map untag fs) k = incident_count fs k.
Proof.
  unfold incident_count. induction fs as [|f fs IH]; [done|].
  cbn [map]. rewrite !filter_cons.
  assert (Hiff : k ∈ edgeKeys (untag f) ↔ k ∈ edgeKeys f) by done.
  destruct (decide (k ∈ edgeKeys (untag f))), (decide (k ∈ edgeKeys f));
    cbn [length]; rewrite ?IH; tauto.
Qed.

Lemma incident_count_filter (P : Face → Prop) `{∀ f, Decision (P f)} fs k :
  (incident_count (filter P fs) k ≤ incident_count fs k)%nat.
Proof.
  unfold incident_count. induction fs as [|f fs IH]; [done|].
  rewrite (filter_cons P). destruct (decide (P f)).
  - rewrite !filter_cons. destruct (decide (k ∈ edgeKeys f)); simpl; lia.
  - rewrite (filter_cons (λ f, k ∈ edgeKeys f) f).
    destruct (decide (k ∈ edgeKeys f)); simpl; lia.
Qed.

Lemma incident_count_pos fs k f :
  f ∈ fs → k ∈ edgeKeys f → (0 < incident_count fs k)%nat.
Proof.
  intros Hf Hk. unfold incident_count.
  assert (Hin : f ∈ filter (λ f, k ∈ edgeKeys f) fs) by (by apply list_elem_of_filter).
  destruct (filter _ fs); [by apply elem_of_nil in Hin|simpl; lia].
Qed.

Lemma manifold_not_marked fs f : key_manifold fs → ¬ key_marked fs f.
Proof.
  intros Hm (k & _ & Hk)%Exists_exists. specialize (Hm k). lia.
Qed.

Lemma filter_all {A} (P : A → Prop) `{∀ x, Decision (P x)} (l : list A) :
  (∀ x, x ∈ l → P x) → filter P l = l.
Proof.
  induction l as [|x l IH]; intros Hl; [done|].
  rewrite filter_cons_True by (apply Hl; by left).
  f_equal. apply IH. intros y Hy. apply Hl. by right.
Qed.

Lemma manifold_keeps_all fs :
  key_manifold fs → filter (λ f, ¬ key_marked fs f) fs = fs.
Proof.
  intros Hm. apply filter_all. intros f _. by apply manifold_not_marked.
Qed.

(** No key of the faces kept has more than two of them. *)
Lemma kept_faces_manifold fs :
  key_manifold (map untag (filter (λ f, ¬ key_marked fs f) fs)).
Proof.
  intros k. rewrite incident_count_untag.
  destruct (decide (2 < incident_count fs k)%nat) as [Hbig|Hsmall].
  - assert (Hnil : filter (λ f, k ∈ edgeKeys f) (filter (λ f, ¬ key_marked fs f) fs) = []).
    { destruct (filter _ (filter _ fs)) as [|g l] eqn:E; [done|]. exfalso.
      assert (Hg : g ∈ g :: l) by (by left). rewrite <- E in Hg.
      apply list_elem_of_filter in Hg as [Hk [Hnm _]%list_elem_of_filter].
      apply Hnm. apply Exists_exists. by exists k. }
    unfold incident_count. rewrite Hnil. simpl. lia.
  - pose proof (incident_count_filter (λ f, ¬ key_marked fs f) fs k). lia.
Qed.

(** On indices that fit an [int], a list that is manifold has no key with
    more than two faces. *)
Lemma manifold_key_manifold fs : int_indices fs → manifold fs → key_manifold fs.
Proof.
  intros Hfit Hm k.
  destruct (filter (λ f, k ∈ edgeKeys f) fs) as [|f l] eqn:E;
    [unfold incident_count; rewrite E; simpl; lia|].
  assert (Hf : f ∈ filter (λ f, k ∈ edgeKeys f) fs) by (rewrite E; by left).
  apply list_elem_of_filter in Hf as [Hk Hf].
  assert (Hfit' := Hfit). unfold int_indices in Hfit'. rewrite Forall_forall in Hfit'.
  rewrite edgeKeys_fit in Hk by (by apply Hfit').
  rewrite !elem_of_cons, elem_of_nil in Hk.
  destruct Hk as [->|[->|[->|[]]]]; rewrite incident_count_edge by done; apply Hm.
Qed.

(** On a mesh whose vertex indices fit an [int] and where no edge has more
    than two incident faces, [removeNonManifoldEdges] removes nothing: it
    returns the arrays and all the faces, in their order, each with the tag
    reset. *)
Theorem removeNonManifoldEdges_manifold_fixed m :
  int_indices (faces m) → manifold (faces m) →
  removeNonManifoldEdges m = mkMesh (vertices m) (tCoords m) (map untag (faces m)).
Proof.
  intros Hfit Hm. rewrite removeNonManifoldEdges_faces.
  rewrite manifold_keeps_all; [done|]. by apply manifold_key_manifold.
Qed.

(** [removeNonManifoldEdges] is idempotent: a second pass finds nothing to
    remove and returns the mesh of the first. *)
Theorem removeNonManifoldEdges_idempotent m :
  removeNonManifoldEdges (removeNonManifoldEdges m) = removeNonManifoldEdges m.
Proof.
  rewrite (removeNonManifoldEdges_faces m), removeNonManifoldEdges_faces.
  cbn [vertices tCoords faces].
  rewrite manifold_keeps_all by apply kept_faces_manifold. f_equal.
  rewrite <- list_fmap_compose. apply list_fmap_ext. intros. reflexivity.
Qed.

End ManifoldFacts.

(** ** The faces of a clipped mesh *)

Section ClipExtra.
Context `{TriClip}.

Lemma welded_face_proper vs t f :
  welded_face vs t = Some f → degenerate f = false.
Proof.
  unfold welded_face.
  destruct (bool_decide (index_of vs (pos0 t) ≠ index_of vs (pos1 t))) eqn:E01; [|done].
  destruct (bool_decide (index_of vs (pos1 t) ≠ index_of vs (pos2 t))) eqn:E12; [|done].
  destruct (bool_decide (index_of vs (pos0 t) ≠ index_of vs (pos2 t))) eqn:E02; [|done].
  simpl. intros [= <-].
  apply bool_decide_eq_true in E01, E12, E02.
  unfold degenerate. simpl.
  rewrite !bool_decide_eq_false_2; [done|congruence|done|done].
Qed.

(** Every face of the mesh [clip] returns is a proper triangle on vertices
    of that mesh: not degenerate, and [good].  [saveAsPly] writes them all. *)
Theorem clip_faces_proper m e :
  Forall (λ f, degenerate f = false ∧ good (clip m e) f = true) (faces (clip m e)).
Proof.
  destruct (clip_weld_spec m e) as (_ & Hv & Hf).
  apply Forall_forall. intros f Hin. split.
  - rewrite Hf in Hin. apply list_elem_of_omap in Hin as (t & _ & Hw).
    by apply welded_face_proper in Hw.
  - pose proof (clip_mesh_inv m e) as [Hall _].
    rewrite Forall_forall in Hall. specialize (Hall f Hin).
    unfold face_vertices_ok in Hall. unfold good.
    rewrite !bool_decide_eq_true_2; [done|lia..].
Qed.

End ClipExtra.

(** ** The arrays and the face count under [refine] *)

Section RefineExtra.
Context `{Numeric}.

(** The main loop, by an invariant indexed by the rounds made. *)
Lemma refine_loop_ind (I : nat → Mesh * EdgeMap → Prop) N :
  (∀ k st, I k st → refine_continue N st = true → I (S k) (refine_step st)) →
  ∀ fuel st r n k,
    I k st → refine_loop fuel N st = Some (r, n) →
    I (k + n)%nat r ∧ refine_continue N r = false.
Proof.
  intros Hstep. induction fuel as [|fuel IH]; intros st r n k Hi; cbn [refine_loop].
  - destruct (refine_continue N st) eqn:Ec; [done|].
    intros [= <- <-]. by rewrite Nat.add_0_r.
  - destruct (refine_continue N st) eqn:Ec.
    + destruct (refine_loop fuel N (refine_step st)) as [[r' n']|] eqn:E; [|done].
      intros [= <- <-]. destruct (IH _ _ _ (S k) (Hstep _ _ Hi Ec) E) as [Hr Hc].
      split; [|done]. by replace (k + S n')%nat with (S k + n')%nat by lia.
    + intros [= <- <-]. by rewrite Nat.add_0_r.
Qed.

Lemma map_imageId_vec_set (l : list Face) i F :
  imageId F = imageId (vec_get l i defaultFace) →
  map imageId (vec_set l i F) = map imageId l.
Proof.
  intros HF. unfold vec_set, vec_get in *. case_bool_decide; [|done].
  destruct (decide (Z.to_nat i < length l)%nat) as [Hlt|Hge].
  - destruct (lookup_lt_is_Some_2 l _ Hlt) as [g Hg].
    rewrite (nth_lookup_Some _ _ _ _ Hg) in HF.
    change (map imageId) with (fmap (M := list) imageId).
    rewrite list_fmap_insert, HF. apply list_insert_id.
    by rewrite list_lookup_fmap, Hg.
  - rewrite list_insert_ge by lia. done.
Qed.

(** What one split leaves of the arrays: the vertices, the texture
    coordinates up to one more when there are any, the tags of the faces
    with tag 0 for the appended half. *)
Lemma splitEdge_arrays mesh em fid ty vid :
  let r := splitEdge (mesh, em) fid ty vid in
  vertices r.1 = vertices mesh
  ∧ (∃ ext, tCoords r.1 = tCoords mesh ++ ext
            ∧ length ext = if bool_decide (tCoords mesh = []) then 0%nat else 1%nat)
  ∧ map imageId (faces r.1) = map imageId (faces mesh) ++ [0].
Proof.
  intros r. destruct (splitEdge_shape mesh em fid ty vid) as (Hv & _ & _).
  split; [exact Hv|]. subst r.
  assert (Hpush : ∀ t1 t2,
            (∃ ext, tCoords (push_tcMiddle mesh t1 t2) = tCoords mesh ++ ext
                    ∧ length ext = if bool_decide (tCoords mesh = []) then 0%nat else 1%nat)
            ∧ faces (push_tcMiddle mesh t1 t2) = faces mesh).
  { intros t1 t2. unfold push_tcMiddle, tsize.
    destruct (tCoords mesh) as [|t ts] eqn:E.
    - rewrite bool_decide_eq_false_2 by (simpl; lia).
      split; [|done]. exists []. simpl. by rewrite ?E.
    - rewrite bool_decide_eq_true_2 by (simpl; lia). cbn [tCoords faces].
      split; [|done]. eexists [_]. simpl. by rewrite ?E. }
  unfold splitEdge. destruct ty; cbv zeta; cbn [fst];
    match goal with
    | |- context [push_tcMiddle mesh ?t1 ?t2] =>
        destruct (Hpush t1 t2) as [Ht Hf];
        set (mesh1 := push_tcMiddle mesh t1 t2) in *
    end;
    (split; [exact Ht|]);
    cbn [faces set_face]; rewrite !map_imageId_vec_set by reflexivity;
    cbn [faces addFace]; rewrite map_app, Hf; reflexivity.
Qed.

(** What one round leaves of the arrays. *)
Lemma refine_step_arrays mesh em :
  let r := refine_step (mesh, em) in
  let d := (length (faces r.1) - length (faces mesh))%nat in
  (length (faces mesh) ≤ length (faces r.1))%nat
  ∧ (∃ p, vertices r.1 = vertices mesh ++ [p])
  ∧ (∃ ext, tCoords r.1 = tCoords mesh ++ ext
            ∧ length ext = if bool_decide (tCoords mesh = []) then 0%nat else d)
  ∧ map imageId (faces r.1) = map imageId (faces mesh) ++ replicate d 0.
Proof.
  unfold refine_step. destruct (pop_top_edge em) as [edge em1].
  set (mesh1 := mkMesh (vertices mesh ++ [_]) (tCoords mesh) (faces mesh)).
  assert (Hsplit : ∀ (st : Mesh * EdgeMap) fid ty vid,
            let r := splitEdge st fid ty vid in
            vertices r.1 = vertices st.1
            ∧ length (faces r.1) = S (length (faces st.1))
            ∧ (∃ ext, tCoords r.1 = tCoords st.1 ++ ext
                      ∧ length ext = if bool_decide (tCoords st.1 = []) then 0%nat else 1%nat)
            ∧ map imageId (faces r.1) = map imageId (faces st.1) ++ [0]).
  { intros [m e] fid ty vid.
    destruct (splitEdge_shape m e fid ty vid) as (Hv & Hl & _).
    destruct (splitEdge_arrays m e fid ty vid) as (_ & Ht & Hi). done. }
  assert (Hf1 : faces mesh1 = faces mesh) by done.
  assert (Ht1' : tCoords mesh1 = tCoords mesh) by done.
  assert (Hv1' : ∃ p, vertices mesh1 = vertices mesh ++ [p]) by by eexists.
  clearbody mesh1.
  destruct (bool_decide (0 ≤ f1 edge)); [|destruct (bool_decide (0 ≤ f2 edge))].
  - destruct (Hsplit (mesh1, em1) (f1 edge) (et1 edge) (Z.of_nat (length (vertices mesh1)) - 1))
      as (Hv1 & Hl1 & (ext1 & Ht1 & He1) & Hi1).
    cbn [fst] in *. cbv zeta in *.
    set (st2 := splitEdge (mesh1, em1) (f1 edge) (et1 edge) _) in *.
    destruct (bool_decide (0 ≤ f2 edge)).
    + destruct (Hsplit st2 (f2 edge) (et2 edge) (Z.of_nat (length (vertices st2.1)) - 1))
        as (Hv2 & Hl2 & (ext2 & Ht2 & He2) & Hi2).
      cbv zeta in *. rewrite Hl2, Hi2, Ht2, Hv2, Hl1, Hi1, Ht1, Hv1, ?Hf1, ?Ht1' in *.
      replace (S (S (length (faces mesh))) - length (faces mesh))%nat with 2%nat by lia.
      split_and!; [lia|done| |by rewrite <- app_assoc].
      exists (ext1 ++ ext2). split; [by rewrite app_assoc|].
      rewrite length_app, He2, He1.
      destruct (tCoords mesh) as [|t ts]; simpl.
      * destruct ext1; [done|simpl in He1; lia].
      * done.
    + rewrite Hl1, Hi1, Ht1, Hv1, ?Hf1, ?Ht1' in *.
      replace (S (length (faces mesh)) - length (faces mesh))%nat with 1%nat by lia.
      split_and!; [lia|done| |done]. by exists ext1.
  - destruct (Hsplit (mesh1, em1) (f2 edge) (et2 edge) (Z.of_nat (length (vertices mesh1)) - 1))
      as (Hv1 & Hl1 & (ext1 & Ht1 & He1) & Hi1).
    cbn [fst] in *. cbv zeta in *. rewrite Hl1, Hi1, Ht1, Hv1, ?Hf1, ?Ht1' in *.
    replace (S (length (faces mesh)) - length (faces mesh))%nat with 1%nat by lia.
    split_and!; [lia|done| |done]. by exists ext1.
  - cbn [fst]. rewrite Hf1, Ht1', Nat.sub_diag. split_and!; [done|done| |by rewrite app_nil_r].
    exists []. rewrite app_nil_r. split; [done|]. by case_bool_decide.
Qed.

Lemma extends_arrays_refl m : extends_arrays m m.
Proof.
  unfold extends_arrays. rewrite Nat.sub_diag.
  split_and!; [done|by exists []; rewrite app_nil_r| |by rewrite app_nil_r].
  exists []. rewrite app_nil_r. split; [done|by case_bool_decide].
Qed.

Lemma extends_arrays_step m mesh em :
  extends_arrays m mesh → extends_arrays m (refine_step (mesh, em)).1.
Proof.
  intros (Hl & (vs & Hv) & (ts & Ht & Hlt) & Hi).
  destruct (refine_step_arrays mesh em) as (Hl' & (p & Hv') & (ext & Ht' & Hle) & Hi').
  cbv zeta in *. set (r := (refine_step (mesh, em)).1) in *.
  unfold extends_arrays. split_and!.
  - lia.
  - exists (vs ++ [p]). by rewrite Hv', Hv, app_assoc.
  - exists (ts ++ ext). split; [by rewrite Ht', Ht, app_assoc|].
    rewrite length_app, Hlt, Hle.
    destruct (tCoords m) as [|t0 tm] eqn:Em; simpl in *.
    + destruct ts; [|simpl in Hlt; lia]. simpl in Ht. rewrite Ht. done.
    + rewrite Ht. simpl. lia.
  - rewrite Hi', Hi, <- app_assoc, <- replicate_add. f_equal. f_equal. lia.
Qed.

Lemma refine_run_arrays m N :
  ∃ r em n, refine_run m N = Some (r, em, n) ∧ extends_arrays m r.
Proof.
  destruct (refine_run_spec (extends_arrays m) m N) as (r & em & n & Hr & _ & _ & _ & _ & HP).
  - intros. by apply extends_arrays_step.
  - apply extends_arrays_refl.
  - by exists r, em, n.
Qed.

(** [refine] appends: the vertices and the texture coordinates of the
    input stay where they are, in front of the new ones. *)
Theorem refine_appends m N :
  ∃ r vs ts, refine m N = Some r
    ∧ vertices r = vertices m ++ vs ∧ tCoords r = tCoords m ++ ts.
Proof.
  destruct (refine_run_arrays m N) as (r & em & n & Hr & _ & (vs & Hv) & (ts & Ht & _) & _).
  exists r, vs, ts. unfold refine. by rewrite Hr.
Qed.

(** A mesh without texture coordinates gets none from [refine]; a textured
    one gets exactly one new texture coordinate for each new face. *)
Theorem refine_texture_count m N :
  ∃ r, refine m N = Some r
    ∧ tsize r = if bool_decide (tCoords m = []) then 0
                else tsize m + (fsize r - fsize m).
Proof.
  destruct (refine_run_arrays m N) as (r & em & n & Hr & Hl & _ & (ts & Ht & Hlt) & _).
  exists r. unfold refine. rewrite Hr. split; [done|].
  unfold tsize, fsize. rewrite Ht, length_app, Hlt.
  case_bool_decide as E; [rewrite E; simpl|]; lia.
Qed.

(** [refine] keeps the surface tag of every face of the input at its index;
    each face it adds carries the tag 0, whatever the tag of the face it
    was cut from. *)
Theorem refine_imageIds m N :
  ∃ r, refine m N = Some r
    ∧ map imageId (faces r)
      = map imageId (faces m) ++ replicate (Z.to_nat (fsize r - fsize m)) 0.
Proof.
  destruct (refine_run_arrays m N) as (r & em & n & Hr & Hl & _ & _ & Hi).
  exists r. unfold refine. rewrite Hr. split; [done|].
  rewrite Hi. do 2 f_equal. unfold fsize. lia.
Qed.

(** Nothing to do: with the face budget already met, or with no face at
    all, [refine] returns the mesh as it is. *)
Theorem refine_nothing_to_do m N :
  N ≤ fsize m ∨ faces m = [] → refine m N = Some m.
Proof.
  intros Hm. unfold refine, refine_run.
  assert (Hc : refine_continue N (m, refine_init m) = false).
  { unfold refine_continue. cbn [fst snd]. destruct Hm as [Hm|Hm].
    - rewrite bool_decide_eq_false_2 by lia. done.
    - unfold refine_init. rewrite Hm. cbn.
      rewrite andb_false_r. done. }
  destruct (refine_fuel m N); cbn [refine_loop]; rewrite Hc; done.
Qed.

(** The rounds of the loop, counted: each adds one vertex and one or two
    faces, and a round starts only below the budget, so the result exceeds
    the budget by one face at most. *)
Lemma refine_run_rounds m N :
  ∃ r em n, refine_run m N = Some (r, em, n)
    ∧ refine_continue N (r, em) = false
    ∧ (faces m ≠ [] → heap em ≠ [])
    ∧ Z.of_nat n ≤ fsize r - fsize m ≤ 2 * Z.of_nat n
    ∧ fsize r ≤ Z.max (fsize m) (N + 1).
Proof.
  destruct (refine_run_spec (λ _, True) m N) as (r & em & n & Hr & Hstop & _ & _ & Hh & _);
    [done..|].
  exists r, em, n.
  pose (I := λ (k : nat) (st : Mesh * EdgeMap),
         edgeMap_ok (fsize st.1) st.2
         ∧ Z.of_nat k ≤ fsize st.1 - fsize m ≤ 2 * Z.of_nat k
         ∧ fsize st.1 ≤ Z.max (fsize m) (N + 1)).
  assert (HI : I (0 + n)%nat (r, em) ∧ refine_continue N (r, em) = false).
  { apply (refine_loop_ind I N) with (fuel := refine_fuel m N) (st := (m, refine_init m));
      [|unfold I; cbn [fst snd]; split_and!; [apply refine_init_ok|lia..]|done].
    intros k [mesh e] (Hok & Hk & Hmax) Hc; cbn [fst snd] in *.
    apply andb_true_iff in Hc as [Hlt Hne].
    apply bool_decide_eq_true in Hlt, Hne. cbn [fst snd] in *.
    assert (Hnil : heap e ≠ []).
    { unfold EdgeMap_size in Hne. destruct (heap e); [simpl in Hne; lia|done]. }
    destruct (refine_step_spec mesh e Hok Hnil) as (_ & Hgrow & Hok' & Hnil'). cbv zeta in *.
    unfold I. split_and!; [done|lia..]. }
  destruct HI as [(_ & H1 & H2) _]. cbn [fst snd] in *.
  split_and!; [done..|lia|lia|lia].
Qed.

(** With at least one face and the budget not yet met, [refine] reaches the
    budget and overshoots it by one face at most. *)
Theorem refine_reaches_budget m N :
  faces m ≠ [] → fsize m ≤ N →
  ∃ r, refine m N = Some r ∧ N ≤ fsize r ≤ N + 1.
Proof.
  intros Hne Hle.
  destruct (refine_run_rounds m N) as (r & em & n & Hr & Hstop & Hh & _ & Hmax).
  exists r. unfold refine. rewrite Hr. split; [done|].
  unfold refine_continue in Hstop. cbn [fst snd] in Hstop.
  apply andb_false_iff in Hstop as [Hs|Hs]; apply bool_decide_eq_false in Hs.
  - lia.
  - specialize (Hh Hne). unfold EdgeMap_size in Hs. destruct (heap em); [done|simpl in Hs; lia].
Qed.

(** Each round of [refine] adds one vertex and one or two faces: the number
    of new faces lies between the number of new vertices and twice it. *)
Theorem refine_faces_per_vertex m N :
  ∃ r, refine m N = Some r
    ∧ vsize r - vsize m ≤ fsize r - fsize m ≤ 2 * (vsize r - vsize m).
Proof.
  destruct (refine_run_spec (λ _, True) m N) as (r & em & n & Hr & _ & Hv & _); [done..|].
  destruct (refine_run_rounds m N) as (r' & em' & n' & Hr' & _ & _ & Hn & _).
  rewrite Hr in Hr'. injection Hr' as <- <- <-.
  exists r. unfold refine. rewrite Hr. split; [done|].
  unfold vsize. rewrite Hv. lia.
Qed.

End RefineExtra.

(** ** The refiner bisects edges *)

Section RefinerFacts.
Context `{Numeric}.

Lemma em_wf_empty : em_wf emptyEdgeMap.
Proof.
  split_and!; simpl.
  - constructor.
  - intros h Hh. by apply elem_of_nil in Hh.
  - intros k h Hk. by rewrite lookup_empty in Hk.
Qed.

Lemma rec_at_wf em k e :
  em_wf em → rec_at em k = Some e → (v1 e, v2 e) = k.
Proof.
  intros (_ & _ & Hm) Hr. unfold rec_at in Hr.
  destruct (emap em !! k) as [h|] eqn:E; [|done]. simpl in Hr.
  destruct (Hm _ _ E) as (_ & e' & He' & Hk). congruence.
Qed.

Lemma addFaceEdge_view em pv1 pv2 fid ty len :
  em_wf em →
  let em' := addFaceEdge em pv1 pv2 fid ty len in
  em_wf em'
  ∧ ∀ k, rec_at em' k =
         if decide (k = EdgeKey pv1 pv2)
         then Some (Edge_addFace (default (Edge_new pv1 pv2 len) (rec_at em k)) pv1 pv2 fid ty)
         else rec_at em k.
Proof.
  intros (Hnd & Hh & Hm). unfold addFaceEdge.
  destruct (emap em !! EdgeKey pv1 pv2) as [h|] eqn:E; cbv zeta.
  - destruct (Hm _ _ E) as (Hin & e & He & Hk). split; [split_and!|]; simpl.
    + done.
    + intros h' Hin'. destruct (Hh h' Hin') as (e' & He' & Hle' & Hk').
      destruct (decide (h' = h)) as [->|Hne].
      * rewrite list_lookup_alter_eq, He'. simpl. eexists; split; [done|].
        by destruct (Edge_addFace_ends e' pv1 pv2 fid ty) as [-> ->].
      * rewrite list_lookup_alter_ne by done. eauto.
    + intros k h' Hl. destruct (Hm _ _ Hl) as (Hin' & e' & He' & Hk').
      split; [done|]. destruct (decide (h' = h)) as [->|Hne].
      * rewrite list_lookup_alter_eq, He'. simpl. eexists; split; [done|].
        by destruct (Edge_addFace_ends e' pv1 pv2 fid ty) as [-> ->].
      * rewrite list_lookup_alter_ne by done. eauto.
    + intros k. unfold rec_at. simpl. destruct (decide (k = EdgeKey pv1 pv2)) as [->|Hk'].
      * rewrite E. simpl. by rewrite list_lookup_alter_eq, He.
      * destruct (emap em !! k) as [h'|] eqn:E'; [|done]. simpl.
        destruct (decide (h' = h)) as [->|Hne]; [|by rewrite list_lookup_alter_ne].
        destruct (Hm _ _ E') as (_ & e' & He' & Hk''). congruence.
  - set (ne := Edge_addFace (Edge_new pv1 pv2 len) pv1 pv2 fid ty).
    set (h := length (store em)).
    assert (Hperm : push_heap (compareEdgePtr (store em ++ [ne])) (heap em ++ [h])
                    ≡ₚ heap em ++ [h]) by apply push_heap_Permutation.
    assert (Hne : (store em ++ [ne]) !! h = Some ne).
    { subst h. rewrite lookup_app_r by lia. by rewrite Nat.sub_diag. }
    assert (Hold : ∀ h' e', store em !! h' = Some e' → (store em ++ [ne]) !! h' = Some e').
    { intros h' e' Hl. by apply lookup_app_l_Some. }
    assert (Hfresh : h ∉ heap em).
    { intros Hin. destruct (Hh h Hin) as (e & He & _).
      apply lookup_lt_Some in He. subst h. lia. }
    assert (Hle : v1 ne ≤ v2 ne).
    { subst ne. destruct (Edge_addFace_ends (Edge_new pv1 pv2 len) pv1 pv2 fid ty) as [-> ->].
      simpl. lia. }
    assert (Hkey : (v1 ne, v2 ne) = EdgeKey pv1 pv2).
    { subst ne. by destruct (Edge_addFace_ends (Edge_new pv1 pv2 len) pv1 pv2 fid ty) as [-> ->]. }
    split; [split_and!|]; simpl.
    + rewrite Hperm. apply NoDup_app. split_and!; [done| |apply NoDup_singleton].
      intros x Hx ->%list_elem_of_singleton. done.
    + intros h'. rewrite Hperm, elem_of_app, list_elem_of_singleton. intros [Hin'| ->].
      * destruct (Hh h' Hin') as (e' & He' & Hle' & Hk'). exists e'.
        split; [by apply Hold|]. split; [done|].
        rewrite lookup_insert_ne; [done|]. intros Heq. rewrite <- Heq in Hk'. congruence.
      * exists ne. split; [done|]. split; [done|]. by rewrite Hkey, lookup_insert_eq.
    + intros k h' Hl. rewrite Hperm, elem_of_app, list_elem_of_singleton.
      destruct (decide (EdgeKey pv1 pv2 = k)) as [<-|Hk].
      * rewrite lookup_insert_eq in Hl. injection Hl as <-.
        split; [by right|]. by exists ne.
      * rewrite lookup_insert_ne in Hl by done.
        destruct (Hm _ _ Hl) as (Hin' & e' & He' & Hk').
        split; [by left|]. eauto.
    + intros k. unfold rec_at. simpl. destruct (decide (k = EdgeKey pv1 pv2)) as [->|Hk'].
      * rewrite lookup_insert_eq, E. simpl. done.
      * rewrite lookup_insert_ne by done.
        destruct (emap em !! k) as [h'|] eqn:E'; [|done]. simpl.
        destruct (Hm _ _ E') as (_ & e' & He' & _). rewrite He'. by apply Hold.
Qed.

Lemma pop_top_edge_view em :
  em_wf em → heap em ≠ [] →
  let r := pop_top_edge em in
  em_wf r.2
  ∧ rec_at em (v1 r.1, v2 r.1) = Some r.1
  ∧ ∀ k, rec_at r.2 k = if decide (k = (v1 r.1, v2 r.1)) then None else rec_at em k.
Proof.
  intros (Hnd & Hh & Hm) Hne. unfold pop_top_edge. cbv zeta. cbn [fst snd].
  destruct (heap em) as [|h0 hp] eqn:Eh; [done|]. cbn [nth].
  assert (Hin0 : h0 ∈ h0 :: hp) by (by left).
  destruct (Hh _ Hin0) as (e0 & He0 & Hle0 & Hk0).
  rewrite (deref_lookup _ _ _ He0).
  replace (EdgeKey (v1 e0) (v2 e0)) with (v1 e0, v2 e0)
    by (unfold EdgeKey; f_equal; lia).
  assert (Hperm : pop_back (pop_heap (compareEdgePtr (store em)) (h0 :: hp)) ≡ₚ hp)
    by apply pop_back_pop_heap.
  apply NoDup_cons in Hnd as [Hn0 Hnd].
  split_and!; [split_and!| |]; simpl.
  - by rewrite Hperm.
  - intros h. rewrite Hperm. intros Hin.
    assert (Hin' : h ∈ h0 :: hp) by (by right).
    destruct (Hh _ Hin') as (e & He & Hle & Hk). exists e. split; [done|]. split; [done|].
    rewrite lookup_delete_ne; [done|]. intros Heq. rewrite <- Heq in Hk.
    assert (h = h0) by congruence. subst. done.
  - intros k h Hl. apply lookup_delete_Some in Hl as [Hk Hl].
    destruct (Hm _ _ Hl) as (Hin & e & He & Hke).
    apply elem_of_cons in Hin as [->|Hin].
    + assert (e = e0) by congruence. subst. done.
    + rewrite Hperm. eauto.
  - unfold rec_at. rewrite Hk0. simpl. done.
  - intros k. unfold rec_at. simpl. destruct (decide (k = (v1 e0, v2 e0))) as [->|Hk].
    + by rewrite lookup_delete_eq.
    + by rewrite lookup_delete_ne.
Qed.

Lemma slots_sat_mono (Q Q' : Z * Z → Z * EdgeType → Prop) em :
  slots_sat Q em → (∀ pq s, Q pq s → Q' pq s) → slots_sat Q' em.
Proof.
  intros Hs HQ k e Hr. destruct (Hs k e Hr) as (Hlt & Hf & H1 & H2).
  split_and!; [done|done|intros; apply HQ; auto..].
Qed.

Lemma slots_sat_key (Q : Z * Z → Z * EdgeType → Prop) em k0 :
  em_wf em → rec_at em k0 = None → slots_sat Q em →
  slots_sat (λ pq s, Q pq s ∧ EdgeKey pq.1 pq.2 ≠ k0) em.
Proof.
  intros Hwf Hnone Hs k e Hr. destruct (Hs k e Hr) as (Hlt & Hf & H1 & H2).
  pose proof (rec_at_wf em k e Hwf Hr) as Hk.
  assert (Hne : k ≠ k0) by congruence.
  split_and!; [done|done|..]; intros Hx; (split; [auto|]); cbn [fst snd]; unfold EdgeKey.
  - rewrite Z.min_l, Z.max_r by lia. congruence.
  - rewrite Z.min_r, Z.max_l by lia. congruence.
Qed.

Lemma addFaceEdge_slots (Q Q' : Z * Z → Z * EdgeType → Prop) em pv1 pv2 fid ty len :
  em_wf em → pv1 ≠ pv2 → 0 ≤ fid →
  slots_sat Q em →
  Q' (pv1, pv2) (fid, ty) →
  (∀ pq s, pq ≠ (pv1, pv2) → Q pq s → Q' pq s) →
  slots_sat Q' (addFaceEdge em pv1 pv2 fid ty len).
Proof.
  intros Hwf Hne Hfid Hs Hnew Hold k e Hr.
  destruct (addFaceEdge_view em pv1 pv2 fid ty len Hwf) as [_ Hv].
  rewrite Hv in Hr. destruct (decide (k = EdgeKey pv1 pv2)) as [->|Hk].
  - injection Hr as <-.
    destruct (rec_at em (EdgeKey pv1 pv2)) as [e0|] eqn:E0; cbn [default from_option]; unfold id.
    + destruct (Hs _ _ E0) as (Hlt & Hf & H1 & H2).
      pose proof (rec_at_wf em _ e0 Hwf E0) as Hk0. unfold EdgeKey in Hk0.
      injection Hk0 as Hv1 Hv2.
      unfold Edge_addFace. case_bool_decide as Hc; cbn [v1 v2 f1 f2 et1 et2].
      * rewrite Z.min_l in Hv1 by lia. rewrite Z.max_r in Hv2 by lia.
        rewrite Hv1, Hv2 in *. split_and!; [lia|by left|done|].
        intros Hx. apply Hold; [|auto]. intros [=]. lia.
      * rewrite Z.min_r in Hv1 by lia. rewrite Z.max_l in Hv2 by lia.
        rewrite Hv1, Hv2 in *. split_and!; [lia|by right| |done].
        intros Hx. apply Hold; [|auto]. intros [=]. lia.
    + unfold Edge_addFace, Edge_new.
      case_bool_decide as Hc; cbn [v1 v2 f1 f2 et1 et2].
      * rewrite Z.min_l, Z.max_r by lia. split_and!; [lia|by left|done|lia].
      * rewrite Z.min_r, Z.max_l by lia. split_and!; [lia|by right|lia|done].
  - destruct (Hs _ _ Hr) as (Hlt & Hf & H1 & H2).
    pose proof (rec_at_wf em _ e Hwf Hr) as Hke.
    assert (Hd1 : (v1 e, v2 e) ≠ (pv1, pv2)).
    { intros [= <- <-]. apply Hk. rewrite <- Hke. unfold EdgeKey.
      by rewrite Z.min_l, Z.max_r by lia. }
    assert (Hd2 : (v2 e, v1 e) ≠ (pv1, pv2)).
    { intros [= <- <-]. apply Hk. rewrite <- Hke. unfold EdgeKey.
      by rewrite Z.min_r, Z.max_l by lia. }
    split_and!; [done|done|..]; intros Hx; apply Hold; auto.
Qed.

Lemma addFaceEdge_none em pv1 pv2 fid ty len k0 :
  em_wf em → EdgeKey pv1 pv2 ≠ k0 → rec_at em k0 = None →
  rec_at (addFaceEdge em pv1 pv2 fid ty len) k0 = None.
Proof.
  intros Hwf Hne Hnone.
  destruct (addFaceEdge_view em pv1 pv2 fid ty len Hwf) as [_ Hv].
  rewrite Hv. by rewrite decide_False by done.
Qed.

Lemma addFaceEdges_slots (Q0 Q : Z * Z → Z * EdgeType → Prop) mesh em g :
  em_wf em → 0 ≤ g → degenerate (face mesh g) = false →
  slots_sat Q0 em →
  (∀ t, Q (face_edge (face mesh g) t) (g, t)) →
  (∀ pq s, Q0 pq s → (∀ t, pq ≠ face_edge (face mesh g) t) → Q pq s) →
  em_wf (addFaceEdges em mesh g)
  ∧ slots_sat Q (addFaceEdges em mesh g)
  ∧ ∀ k0, rec_at em k0 = None →
          (∀ t, EdgeKey (face_edge (face mesh g) t).1 (face_edge (face mesh g) t).2 ≠ k0) →
          rec_at (addFaceEdges em mesh g) k0 = None.
Proof.
  intros Hwf Hg Hnd Hs HQ Hrest. unfold addFaceEdges. cbv zeta.
  set (f := face mesh g) in *.
  destruct (degenerate_false f Hnd) as (Hab & Hbc & Hca).
  set (l1 := norm_2 _). set (l2 := norm_2 _). set (l3 := norm_2 _).
  set (em1 := addFaceEdge em (a f) (b f) g AB l1).
  set (em2 := addFaceEdge em1 (b f) (c f) g BC l2).
  destruct (addFaceEdge_view em (a f) (b f) g AB l1 Hwf) as [Hwf1 _].
  destruct (addFaceEdge_view em1 (b f) (c f) g BC l2 Hwf1) as [Hwf2 _].
  destruct (addFaceEdge_view em2 (c f) (a f) g CA l3 Hwf2) as [Hwf3 _].
  pose (Q1 := λ (pq : Z * Z) (s : Z * EdgeType),
          (pq = (a f, b f) ∧ s = (g, AB)) ∨ (pq ≠ (a f, b f) ∧ Q0 pq s)).
  pose (Q2 := λ (pq : Z * Z) (s : Z * EdgeType),
          (pq = (b f, c f) ∧ s = (g, BC)) ∨ (pq ≠ (b f, c f) ∧ Q1 pq s)).
  pose (Q3 := λ (pq : Z * Z) (s : Z * EdgeType),
          (pq = (c f, a f) ∧ s = (g, CA)) ∨ (pq ≠ (c f, a f) ∧ Q2 pq s)).
  assert (Hs1 : slots_sat Q1 em1).
  { apply (addFaceEdge_slots Q0 Q1); [done..|by left|]. intros pq s Hpq Hq. by right. }
  assert (Hs2 : slots_sat Q2 em2).
  { apply (addFaceEdge_slots Q1 Q2); [done..|by left|]. intros pq s Hpq Hq. by right. }
  assert (Hs3 : slots_sat Q3 (addFaceEdge em2 (c f) (a f) g CA l3)).
  { apply (addFaceEdge_slots Q2 Q3); [done..|by left|]. intros pq s Hpq Hq. by right. }
  split; [done|]. split.
  - eapply slots_sat_mono; [exact Hs3|]. intros pq s Hq3.
    destruct Hq3 as [[-> ->]|[Hn3 Hq2]]; [apply (HQ CA)|].
    destruct Hq2 as [[-> ->]|[Hn2 Hq1]]; [apply (HQ BC)|].
    destruct Hq1 as [[-> ->]|[Hn1 Hq0]]; [apply (HQ AB)|].
    apply Hrest; [done|]. by intros [].
  - intros k0 Hnone Hk.
    apply addFaceEdge_none; [done|apply (Hk CA)|].
    apply addFaceEdge_none; [done|apply (Hk BC)|].
    apply addFaceEdge_none; [done|apply (Hk AB)|done].
Qed.

Lemma splitEdge_faces mesh em fid ty vid :
  0 ≤ fid < fsize mesh →
  let r := splitEdge (mesh, em) fid ty vid in
  faces r.1
  = <[Z.to_nat fid := face r.1 fid]> (faces mesh) ++ [face r.1 (fsize mesh)].
Proof.
  intros Hfid. unfold fsize in Hfid.
  assert (Hshape : ∀ (fs : list Face) Nw F1 F2,
            0 ≤ fid < Z.of_nat (length fs) →
            let l := vec_set (vec_set (fs ++ [Nw]) fid F1) fid F2 in
            l = <[Z.to_nat fid := vec_get l fid defaultFace]> fs
                ++ [vec_get l (Z.of_nat (length fs)) defaultFace]).
  { intros fs Nw F1 F2 Hlen l. subst l. unfold vec_set, vec_get.
    rewrite !bool_decide_eq_true_2 by lia. rewrite Nat2Z.id.
    rewrite list_insert_insert_eq, insert_app_l by lia.
    rewrite !nth_lookup, lookup_app_l by (rewrite length_insert; lia).
    rewrite list_lookup_insert_eq by lia. cbn [default from_option]. unfold id.
    rewrite lookup_app_r by (rewrite length_insert; lia).
    rewrite length_insert, Nat.sub_diag. done. }
  unfold splitEdge. destruct ty; cbv zeta; cbn [fst]; unfold face, fsize;
    cbn [set_face addFace faces];
    match goal with
    | |- context [push_tcMiddle mesh ?t1 ?t2] =>
        destruct (push_tcMiddle_frame mesh t1 t2) as [_ Hpf];
        set (mesh1 := push_tcMiddle mesh t1 t2) in *
    end;
    rewrite <- Hpf in Hfid |- *; by apply Hshape.
Qed.

Lemma face_insert_ne (fs : list Face) (i : nat) K Nw g :
  0 ≤ g < Z.of_nat (length fs) → Z.to_nat g ≠ i →
  vec_get (<[i := K]> fs ++ [Nw]) g defaultFace = vec_get fs g defaultFace.
Proof.
  intros Hg Hne. unfold vec_get. rewrite !bool_decide_eq_true_2 by lia.
  rewrite !nth_lookup, lookup_app_l by (rewrite length_insert; lia).
  by rewrite list_lookup_insert_ne.
Qed.

Lemma splitEdge_round mesh em fid ty vid p q :
  em_wf em → 0 ≤ fid < fsize mesh →
  degenerate (face mesh fid) = false →
  0 ≤ a (face mesh fid) < vid ∧ 0 ≤ b (face mesh fid) < vid ∧ 0 ≤ c (face mesh fid) < vid →
  face_edge (face mesh fid) ty = (p, q) →
  rec_at em (EdgeKey p q) = None →
  slots_sat (presents mesh) em →
  let r := splitEdge (mesh, em) fid ty vid in
  em_wf r.2
  ∧ slots_sat (presents r.1) r.2
  ∧ rec_at r.2 (EdgeKey p q) = None
  ∧ face_bisected (map abc (faces mesh)) (map abc (faces r.1)) p q vid
  ∧ (∀ g, 0 ≤ g < fsize mesh → g ≠ fid → face r.1 g = face mesh g)
  ∧ (∀ g, g = fid ∨ g = fsize mesh →
       degenerate (face r.1 g) = false
       ∧ 0 ≤ a (face r.1 g) ≤ vid ∧ 0 ≤ b (face r.1 g) ≤ vid ∧ 0 ≤ c (face r.1 g) ≤ vid).
Proof.
  intros Hwf Hfid Hnd Hin Hpq Hnone Hs r.
  destruct (splitEdge_shape mesh em fid ty vid) as (Hv & Hl & Hem).
  destruct (splitEdge_halves mesh em fid ty vid Hfid) as [HK HN].
  pose proof (splitEdge_faces mesh em fid ty vid Hfid) as Hfs.
  cbv zeta in Hv, Hl, Hem, HK, HN, Hfs. fold r in Hv, Hl, Hem, HK, HN, Hfs.
  assert (Hsz : fsize r.1 = fsize mesh + 1) by (unfold fsize; lia).
  rewrite Hsz in Hem. replace (fsize mesh + 1 - 1) with (fsize mesh) in Hem by lia.
  destruct (degenerate_false _ Hnd) as (Hab & Hbc & Hca).
  assert (Hother : ∀ g, 0 ≤ g < fsize mesh → g ≠ fid → face r.1 g = face mesh g).
  { intros g Hg Hne. unfold face. rewrite Hfs. apply face_insert_ne; [done|lia]. }
  assert (Hlook : map abc (faces mesh) !! Z.to_nat fid = Some (abc (face mesh fid))).
  { rewrite list_lookup_fmap. unfold face, vec_get.
    rewrite bool_decide_eq_true_2 by lia. rewrite nth_lookup.
    destruct (faces mesh !! Z.to_nat fid) eqn:E; [done|].
    apply lookup_ge_None in E. unfold fsize in Hfid. lia. }
  remember (face mesh fid) as f eqn:Ef.
  remember (face r.1 fid) as K eqn:EK.
  remember (face r.1 (fsize mesh)) as Nw eqn:EN.
  clearbody r. destruct r as [mesh' em']. cbn [fst snd] in *.
  unfold abc in HK, HN.
  (* the vertices of the halves, edge by edge *)
  assert (Hhalves :
    ∃ z, same_triangle (a f, b f, c f) (p, q, z)
         ∧ same_triangle (a K, b K, c K) (p, vid, z)
         ∧ same_triangle (a Nw, b Nw, c Nw) (vid, q, z)
         ∧ (∀ t, t ≠ ty → ∃ g t', (g = K ∨ g = Nw) ∧ face_edge g t' = face_edge f t)
         ∧ p ≠ q ∧ q ≠ z ∧ z ≠ p
         ∧ 0 ≤ p < vid ∧ 0 ≤ q < vid ∧ 0 ≤ z < vid).
  { unfold same_triangle, rot.
    destruct ty; injection HK as HK1 HK2 HK3; injection HN as HN1 HN2 HN3;
      injection Hpq as <- <-; rewrite HK1, HK2, HK3, HN1, HN2, HN3.
    - exists (c f). split_and!; auto; try lia.
      intros [] Ht; [done|exists Nw, AB|exists K, CA]; cbn [face_edge];
        rewrite ?HK1, ?HK2, ?HK3, ?HN1, ?HN2, ?HN3; auto.
    - exists (a f). split_and!; auto; try lia.
      intros [] Ht; [exists K, AB|done|exists Nw, AB]; cbn [face_edge];
        rewrite ?HK1, ?HK2, ?HK3, ?HN1, ?HN2, ?HN3; auto.
    - exists (b f). split_and!; auto; try lia.
      intros [] Ht; [exists Nw, AB|exists K, BC|done]; cbn [face_edge];
        rewrite ?HK1, ?HK2, ?HK3, ?HN1, ?HN2, ?HN3; auto. }
  destruct Hhalves as (z & Htr & HtK & HtN & Hkept & Hz).
  assert (HKN : ∀ g, g = K ∨ g = Nw →
            degenerate g = false
            ∧ (0 ≤ a g ≤ vid ∧ 0 ≤ b g ≤ vid ∧ 0 ≤ c g ≤ vid)
            ∧ ∀ t, EdgeKey (face_edge g t).1 (face_edge g t).2 ≠ EdgeKey p q).
  { clear - HtK HtN Hz. unfold same_triangle, rot in HtK, HtN.
    intros g Hg. unfold degenerate, EdgeKey.
    assert (Hg' : same_triangle (a g, b g, c g) (p, vid, z)
                  ∨ same_triangle (a g, b g, c g) (vid, q, z))
      by (destruct Hg as [-> | ->]; auto).
    clear Hg HtK HtN. unfold same_triangle, rot in Hg'.
    destruct Hg' as [[Hg|[Hg|Hg]]|[Hg|[Hg|Hg]]]; injection Hg as Ha Hb Hc;
      rewrite !bool_decide_eq_false_2 by lia;
      (split_and!; [done|lia..|]); intros []; cbn [face_edge fst snd]; intros [=]; lia. }
  pose (Q0 := λ (pq : Z * Z) (s : Z * EdgeType),
          presents mesh pq s ∧ EdgeKey pq.1 pq.2 ≠ EdgeKey p q).
  pose (Qm := λ (pq : Z * Z) (s : Z * EdgeType),
          presents mesh' pq s ∨ ∃ t, pq = face_edge Nw t).
  assert (Hs0 : slots_sat Q0 em) by (by apply slots_sat_key).
  destruct (HKN K (or_introl eq_refl)) as (HndK & HinK & HkK).
  destruct (HKN Nw (or_intror eq_refl)) as (HndN & HinN & HkN).
  destruct (addFaceEdges_slots Q0 Qm mesh' em fid Hwf) as (Hwf1 & Hs1 & Hn1);
    rewrite <- ?EK; [lia|exact HndK|exact Hs0| | |].
  { intros t. left. split; cbn [fst snd]; [lia|by rewrite <- EK]. }
  { intros pq [g t] [[Hg Hp] Hk] Hnot. cbn [fst snd] in Hg, Hp, Hk.
    destruct (decide (g = fid)) as [->|Hne].
    - rewrite <- Ef in Hp. destruct (decide (t = ty)) as [->|Hty].
      { exfalso. apply Hk. rewrite <- Hp, Hpq. done. }
      destruct (Hkept t Hty) as (g' & t' & [-> | ->] & Hg').
      + exfalso. apply (Hnot t'). by rewrite Hg'.
      + right. exists t'. by rewrite Hg'.
    - left. split; cbn [fst snd]; [lia|]. by rewrite Hother. }
  destruct (addFaceEdges_slots Qm (presents mesh') mesh' (addFaceEdges em mesh' fid)
              (fsize mesh) Hwf1) as (Hwf2 & Hs2 & Hn2);
    rewrite <- ?EN; [lia|exact HndN|exact Hs1| | |].
  { intros t. split; cbn [fst snd]; [lia|by rewrite <- EN]. }
  { intros pq s [Hp|[t Ht]] Hnot; [exact Hp|]. by destruct (Hnot t). }
  subst em'. split_and!.
  - exact Hwf2.
  - exact Hs2.
  - apply Hn2; [|by rewrite <- EN]. apply Hn1; [exact Hnone|by rewrite <- EK].
  - exists (Z.to_nat fid), (abc f), z, (abc K), (abc Nw).
    split_and!; [exact Hlook|exact Htr|exact HtK|exact HtN|].
    rewrite Hfs, fmap_app, list_fmap_insert. reflexivity.
  - exact Hother.
  - intros g [-> | ->]; rewrite <- ?EK, <- ?EN; [split; [exact HndK|exact HinK]|split; [exact HndN|exact HinN]].
Qed.

Lemma proper_index mesh :
  proper mesh ↔
  ∀ g, 0 ≤ g < fsize mesh →
    degenerate (face mesh g) = false ∧ face_vertices_ok mesh (face mesh g).
Proof.
  unfold proper, fsize, face. split.
  - intros Hp g Hg. unfold vec_get. rewrite bool_decide_eq_true_2 by lia.
    rewrite nth_lookup.
    destruct (faces mesh !! Z.to_nat g) as [f|] eqn:E.
    + rewrite Forall_forall in Hp. apply Hp. by eapply list_elem_of_lookup_2.
    + apply lookup_ge_None in E. lia.
  - intros Hp. apply Forall_forall. intros f [i Hi]%list_elem_of_lookup_1.
    pose proof (lookup_lt_Some _ _ _ Hi) as Hlt.
    specialize (Hp (Z.of_nat i) ltac:(lia)).
    by rewrite (vec_get_lookup _ _ _ _ Hi) in Hp.
Qed.

Lemma face_edge_rev f t t' p q :
  degenerate f = false → face_edge f t = (p, q) → face_edge f t' = (q, p) → False.
Proof.
  intros (Hab & Hbc & Hca)%degenerate_false.
  destruct t, t'; cbn [face_edge]; intros [? ?]%pair_equal_spec [? ?]%pair_equal_spec;
    congruence.
Qed.

Lemma split_in_round mesh em fid ty vid p q :
  em_wf em → 0 ≤ fid < fsize mesh → vid = vsize mesh - 1 →
  (∀ g, 0 ≤ g < fsize mesh →
     degenerate (face mesh g) = false ∧ face_vertices_ok mesh (face mesh g)) →
  0 ≤ a (face mesh fid) < vid ∧ 0 ≤ b (face mesh fid) < vid ∧ 0 ≤ c (face mesh fid) < vid →
  face_edge (face mesh fid) ty = (p, q) →
  rec_at em (EdgeKey p q) = None →
  slots_sat (presents mesh) em →
  let r := splitEdge (mesh, em) fid ty vid in
  em_wf r.2
  ∧ slots_sat (presents r.1) r.2
  ∧ rec_at r.2 (EdgeKey p q) = None
  ∧ face_bisected (map abc (faces mesh)) (map abc (faces r.1)) p q vid
  ∧ vertices r.1 = vertices mesh
  ∧ fsize r.1 = fsize mesh + 1
  ∧ (∀ g, 0 ≤ g < fsize mesh → g ≠ fid → face r.1 g = face mesh g)
  ∧ (∀ g, 0 ≤ g < fsize r.1 →
       degenerate (face r.1 g) = false ∧ face_vertices_ok r.1 (face r.1 g)).
Proof.
  intros Hwf Hfid Hvid Hp Hin Hpq Hnone Hs r.
  destruct (Hp fid Hfid) as [Hnd _].
  destruct (splitEdge_round mesh em fid ty vid p q Hwf Hfid Hnd Hin Hpq Hnone Hs)
    as (Hwf' & Hs' & Hn' & Hb & Hother & Hhalves).
  destruct (splitEdge_shape mesh em fid ty vid) as (Hv & Hl & _).
  fold r in Hwf', Hs', Hn', Hb, Hother, Hhalves, Hv, Hl.
  assert (Hsz : fsize r.1 = fsize mesh + 1) by (unfold fsize; lia).
  split_and!; [done..|].
  intros g Hg. unfold face_vertices_ok, vsize. rewrite Hv. fold (vsize mesh).
  destruct (decide (g = fid ∨ g = fsize mesh)) as [Hh|Hh].
  - destruct (Hhalves g Hh) as (? & ? & ? & ?). split; [done|lia].
  - rewrite Hother by lia. apply Hp. lia.
Qed.

Lemma refine_step_ok st :
  refiner_ok st → heap st.2 ≠ [] →
  let e0 := (pop_top_edge st.2).1 in
  refiner_ok (refine_step st)
  ∧ bisect_at (v1 e0) (v2 e0) st.1 (refine_step st).1
  ∧ rec_at (refine_step st).2 (EdgeKey (v1 e0) (v2 e0)) = None.
Proof.
  destruct st as [mesh em]. intros (Hp & Hok & Hwf & Hs) Hne. cbn [fst snd] in *.
  destruct (refine_step_spec mesh em Hok Hne) as (_ & _ & Hok' & _).
  cbv zeta in Hok'. revert Hok'.
  destruct (pop_top_edge_view em Hwf Hne) as (Hwf1 & He0 & Hview).
  cbv zeta in Hwf1, He0, Hview.
  unfold refine_step. destruct (pop_top_edge em) as [e0 em1]. cbn [fst snd] in *.
  destruct (Hs _ _ He0) as (Hlt & Hfill & Hs1 & Hs2).
  pose proof (proj1 (proper_index mesh) Hp) as Hpi. clear Hp. rename Hpi into Hp.
  set (mesh1 := mkMesh (vertices mesh ++ [_]) (tCoords mesh) (faces mesh)).
  assert (Hvs1 : vsize mesh1 = vsize mesh + 1).
  { unfold vsize, mesh1. cbn [vertices]. rewrite length_app. simpl. lia. }
  assert (Hp1 : ∀ g, 0 ≤ g < fsize mesh1 →
            degenerate (face mesh1 g) = false ∧ face_vertices_ok mesh1 (face mesh1 g)).
  { intros g Hg. destruct (Hp g Hg) as [Hd Hv]. split; [exact Hd|].
    unfold face_vertices_ok in *. rewrite Hvs1.
    change (face mesh1 g) with (face mesh g). lia. }
  assert (Hin1 : ∀ g, 0 ≤ g < fsize mesh1 →
            0 ≤ a (face mesh1 g) < vsize mesh ∧ 0 ≤ b (face mesh1 g) < vsize mesh
            ∧ 0 ≤ c (face mesh1 g) < vsize mesh).
  { intros g Hg. by destruct (Hp g Hg) as [_ Hv]. }
  assert (Hsl1 : slots_sat (presents mesh1) em1).
  { intros k e Hr. rewrite Hview in Hr. destruct (decide _); [done|]. exact (Hs _ _ Hr). }
  assert (Hnone : rec_at em1 (EdgeKey (v1 e0) (v2 e0)) = None).
  { rewrite Hview. rewrite decide_True; [done|]. unfold EdgeKey. f_equal; lia. }
  assert (Hsym : EdgeKey (v2 e0) (v1 e0) = EdgeKey (v1 e0) (v2 e0)).
  { unfold EdgeKey. f_equal; lia. }
  assert (Hvid : Z.of_nat (length (vertices mesh1)) - 1 = vsize mesh).
  { fold (vsize mesh1). lia. }
  assert (Hverts : vertices mesh1
                   = vertices mesh
                     ++ [p3_scale (p3_add (vertex mesh (v1 e0)) (vertex mesh (v2 e0))) s_half])
    by done.
  assert (Hends : 0 ≤ v1 e0 < vsize mesh ∧ 0 ≤ v2 e0 < vsize mesh).
  { destruct Hfill as [Hf|Hf].
    - destruct (Hs1 Hf) as [Hg Hpq]. cbn [fst snd] in Hg, Hpq.
      destruct (Hin1 _ Hg) as (? & ? & ?). change (face mesh1 ?g) with (face mesh g) in *.
      destruct (et1 e0); cbn [face_edge] in Hpq; injection Hpq as <- <-; lia.
    - destruct (Hs2 Hf) as [Hg Hpq]. cbn [fst snd] in Hg, Hpq.
      destruct (Hin1 _ Hg) as (? & ? & ?). change (face mesh1 ?g) with (face mesh g) in *.
      destruct (et2 e0); cbn [face_edge] in Hpq; injection Hpq as <- <-; lia. }
  cbn [fst]. rewrite Hvid.
  assert (Hfaces1 : faces mesh1 = faces mesh) by done.
  assert (Hs1' : 0 ≤ f1 e0 → presents mesh1 (v1 e0, v2 e0) (f1 e0, et1 e0)) by exact Hs1.
  assert (Hs2' : 0 ≤ f2 e0 → presents mesh1 (v2 e0, v1 e0) (f2 e0, et2 e0)) by exact Hs2.
  clear Hs1 Hs2 Hp Hs. clearbody mesh1.
  destruct (bool_decide (0 ≤ f1 e0)) eqn:E1.
  - apply bool_decide_eq_true in E1. destruct (Hs1' E1) as [Hg1 Hpq1]. cbn [fst snd] in Hg1, Hpq1.
    destruct (split_in_round mesh1 em1 (f1 e0) (et1 e0) (vsize mesh) (v1 e0) (v2 e0))
      as (Hwf2 & Hsl2 & Hn2 & Hb2 & Hv2 & Hsz2 & Hoth2 & Hp2);
      [exact Hwf1|exact Hg1|lia|exact Hp1|apply Hin1; exact Hg1|exact Hpq1|exact Hnone
      |exact Hsl1|].
    set (st2 := splitEdge (mesh1, em1) (f1 e0) (et1 e0) (vsize mesh)) in *.
    clearbody st2. destruct st2 as [mesh2 em2]. cbn [fst snd] in *.
    rewrite Hv2, Hvid.
    destruct (bool_decide (0 ≤ f2 e0)) eqn:E2.
    + apply bool_decide_eq_true in E2. destruct (Hs2' E2) as [Hg2 Hpq2].
      cbn [fst snd] in Hg2, Hpq2.
      assert (Hne12 : f2 e0 ≠ f1 e0).
      { intros Heq. rewrite Heq in Hpq2. destruct (Hp1 _ Hg1) as [Hd _].
        exact (face_edge_rev _ _ _ _ _ Hd Hpq1 Hpq2). }
      assert (Hf2 : face mesh2 (f2 e0) = face mesh1 (f2 e0)).
      { apply Hoth2; [exact Hg2|exact Hne12]. }
      destruct (split_in_round mesh2 em2 (f2 e0) (et2 e0) (vsize mesh) (v2 e0) (v1 e0))
        as (Hwf3 & Hsl3 & Hn3 & Hb3 & Hv3 & Hsz3 & Hoth3 & Hp3);
        [exact Hwf2|lia|unfold vsize in *; rewrite Hv2; lia|exact Hp2
        |rewrite Hf2; apply Hin1; exact Hg2|rewrite Hf2; exact Hpq2
        |rewrite Hsym; exact Hn2|exact Hsl2|].
      set (st3 := splitEdge (mesh2, em2) (f2 e0) (et2 e0) (vsize mesh)) in *.
      clearbody st3. destruct st3 as [mesh3 em3]. cbn [fst snd] in *.
      intros Hok'. split.
      * split_and!; [apply (proj2 (proper_index _)); exact Hp3|exact Hok'|exact Hwf3|exact Hsl3].
      * split; [|rewrite <- Hsym; exact Hn3].
        do 3 (split; [lia|]).
        split; [rewrite Hv3, Hv2; exact Hverts|].
        cbv zeta. rewrite <- Hfaces1. right. right. exists (map abc (faces mesh2)).
        split; [exact Hb2|exact Hb3].
    + cbn [fst snd]. intros Hok'. split.
      * split_and!; [apply (proj2 (proper_index _)); exact Hp2|exact Hok'|exact Hwf2|exact Hsl2].
      * split; [|exact Hn2].
        do 3 (split; [lia|]).
        split; [rewrite Hv2; exact Hverts|].
        cbv zeta. rewrite <- Hfaces1. left. exact Hb2.
  - apply bool_decide_eq_false in E1.
    destruct Hfill as [Hf|E2]; [lia|].
    rewrite (bool_decide_eq_true_2 _ E2). cbn [fst]. rewrite Hvid.
    destruct (Hs2' E2) as [Hg2 Hpq2]. cbn [fst snd] in Hg2, Hpq2.
    destruct (split_in_round mesh1 em1 (f2 e0) (et2 e0) (vsize mesh) (v2 e0) (v1 e0))
      as (Hwf2 & Hsl2 & Hn2 & Hb2 & Hv2 & Hsz2 & Hoth2 & Hp2);
      [exact Hwf1|exact Hg2|lia|exact Hp1|apply Hin1; exact Hg2|exact Hpq2
      |rewrite Hsym; exact Hnone|exact Hsl1|].
    set (st2 := splitEdge (mesh1, em1) (f2 e0) (et2 e0) (vsize mesh)) in *.
    clearbody st2. destruct st2 as [mesh2 em2]. cbn [fst snd] in *.
    intros Hok'. split.
    + split_and!; [apply (proj2 (proper_index _)); exact Hp2|exact Hok'|exact Hwf2|exact Hsl2].
    + split; [|rewrite <- Hsym; exact Hn2].
      do 3 (split; [lia|]).
      split; [rewrite Hv2; exact Hverts|].
      cbv zeta. rewrite <- Hfaces1. right. left. exact Hb2.
Qed.

Lemma refine_init_refiner_ok m : proper m → refiner_ok (m, refine_init m).
Proof.
  intros Hp. split_and!; cbn [fst snd]; [done|apply refine_init_ok|..].
  all: pose proof (proj1 (proper_index m) Hp) as Hpi.
  all: assert (Hfold : ∀ l em,
         Forall (λ i : nat, (i < length (faces m))%nat) l →
         em_wf em ∧ slots_sat (presents m) em →
         em_wf (foldl (λ em i, addFaceEdges em m (Z.of_nat i)) em l)
         ∧ slots_sat (presents m) (foldl (λ em i, addFaceEdges em m (Z.of_nat i)) em l)).
  1,3: induction l as [|i l IH]; intros em Hl [Hwf Hs]; [done|];
       apply Forall_cons in Hl as [Hi Hl]; cbn [foldl]; apply IH; [done|];
       assert (Hg : 0 ≤ Z.of_nat i < fsize m) by (unfold fsize; lia);
       destruct (Hpi _ Hg) as [Hd _];
       destruct (addFaceEdges_slots (presents m) (presents m) m em (Z.of_nat i) Hwf)
         as (Hwf' & Hs' & _); [lia|done|done|by intros t|by intros|done].
  all: unfold refine_init; apply Hfold.
  all: try (apply Forall_forall; intros i Hi%elem_of_seq; lia).
  all: split; [apply em_wf_empty|]; intros k e Hr; unfold rec_at in Hr; simpl in Hr;
       by rewrite lookup_empty in Hr.
Qed.

Lemma refine_run_refiner_ok m N :
  proper m →
  ∃ r em n, refine_run m N = Some (r, em, n) ∧ refiner_ok (r, em) ∧ rtc bisect m r.
Proof.
  intros Hp.
  destruct (refine_run_spec (λ _, True) m N) as (r & em & n & Hr & _); [done..|].
  exists r, em, n. split; [done|].
  pose (I := λ (k : nat) (st : Mesh * EdgeMap), refiner_ok st ∧ rtc bisect m st.1).
  destruct (refine_loop_ind I N) with (fuel := refine_fuel m N) (st := (m, refine_init m))
    (r := (r, em)) (n := n) (k := 0%nat) as [[Hok Hrtc] _].
  - intros k st [Hok Hrtc] Hc. unfold refine_continue in Hc.
    apply andb_true_iff in Hc as [_ Hsz]. apply bool_decide_eq_true in Hsz.
    assert (Hne : heap st.2 ≠ []).
    { unfold EdgeMap_size in Hsz. destruct (heap st.2); [simpl in Hsz; lia|done]. }
    destruct (refine_step_ok st Hok Hne) as (Hok' & Hb & _).
    split; [done|]. eapply rtc_r; [done|]. by eexists _, _.
  - split; [by apply refine_init_refiner_ok|]. cbn [fst]. apply rtc_refl.
  - exact Hr.
  - done.
Qed.

(** [refine] subdivides: on a mesh whose faces are not degenerate and have
    their vertex indices within bounds, every round bisects one edge at
    its middle, and cuts the faces registered on it (one, or two that
    present it in opposite directions) through the new vertex.  The mesh
    returned comes from the input by such steps. *)
Theorem refine_subdivides m N :
  proper m → ∃ r, refine m N = Some r ∧ rtc bisect m r.
Proof.
  intros Hp. destruct (refine_run_refiner_ok m N Hp) as (r & em & n & Hr & _ & Hrtc).
  exists r. unfold refine. rewrite Hr. done.
Qed.

(** [refine] makes no degenerate face: when no face of the input is
    degenerate and every vertex index is within bounds, the same holds of
    the mesh returned. *)
Theorem refine_proper m N :
  proper m → ∃ r, refine m N = Some r ∧ proper r.
Proof.
  intros Hp. destruct (refine_run_refiner_ok m N Hp) as (r & em & n & Hr & Hok & _).
  exists r. unfold refine. rewrite Hr. split; [done|]. by destruct Hok.
Qed.

End RefinerFacts.

(** ** The refiner keeps an oriented surface whole *)

Section WatertightFacts.
Context `{Numeric}.

Lemma slot_of_addFaceEdge em pv1 pv2 fid ty len pq :
  em_wf em → pv1 ≠ pv2 → 0 ≤ fid →
  slot_of (addFaceEdge em pv1 pv2 fid ty len) pq
  = if decide (pq = (pv1, pv2)) then Some (fid, ty) else slot_of em pq.
Proof.
  intros Hwf Hne Hfid. destruct pq as [p q].
  destruct (addFaceEdge_view em pv1 pv2 fid ty len Hwf) as [_ Hv].
  unfold slot_of. cbn [fst snd]. rewrite Hv.
  destruct (decide (EdgeKey p q = EdgeKey pv1 pv2)) as [Hk|Hk].
  - cbn [mbind option_bind]. rewrite Hk.
    destruct (decide ((p, q) = (pv1, pv2))) as [[= -> ->]|Hd].
    + rewrite slot_addFace_same. cbn [fst]. by rewrite bool_decide_eq_true_2.
    + rewrite slot_addFace_other.
      2:{ intros Hb. apply Hd. by apply (EdgeKey_presented p q pv1 pv2 Hk). }
      destruct (rec_at em (EdgeKey pv1 pv2)) as [e|] eqn:E; cbn [default from_option mbind option_bind];
        [done|].
      unfold slot, Edge_new. destruct (bool_decide (p < q)); cbn [f1 f2 fst];
        by rewrite bool_decide_eq_false_2 by lia.
  - rewrite decide_False; [done|]. intros [= -> ->]. done.
Qed.

Lemma slot_of_addFaceEdges em mesh g :
  em_wf em → 0 ≤ g → degenerate (face mesh g) = false →
  let em' := addFaceEdges em mesh g in
  (∀ t, slot_of em' (face_edge (face mesh g) t) = Some (g, t))
  ∧ (∀ pq, (∀ t, pq ≠ face_edge (face mesh g) t) → slot_of em' pq = slot_of em pq).
Proof.
  intros Hwf Hg Hnd. unfold addFaceEdges. cbv zeta.
  set (f := face mesh g) in *.
  destruct (degenerate_false f Hnd) as (Hab & Hbc & Hca).
  set (l1 := norm_2 _). set (l2 := norm_2 _). set (l3 := norm_2 _).
  set (em1 := addFaceEdge em (a f) (b f) g AB l1).
  set (em2 := addFaceEdge em1 (b f) (c f) g BC l2).
  destruct (addFaceEdge_view em (a f) (b f) g AB l1 Hwf) as [Hwf1 _].
  destruct (addFaceEdge_view em1 (b f) (c f) g BC l2 Hwf1) as [Hwf2 _].
  fold em1 in Hwf1. fold em2 in Hwf2.
  assert (Hall : ∀ pq, slot_of (addFaceEdge em2 (c f) (a f) g CA l3) pq
            = if decide (pq = (c f, a f)) then Some (g, CA)
              else if decide (pq = (b f, c f)) then Some (g, BC)
              else if decide (pq = (a f, b f)) then Some (g, AB)
              else slot_of em pq).
  { intros pq. rewrite slot_of_addFaceEdge by done. destruct (decide _); [done|].
    unfold em2. rewrite slot_of_addFaceEdge by done. destruct (decide _); [done|].
    unfold em1. by rewrite slot_of_addFaceEdge by done. }
  split.
  - intros t. rewrite Hall. destruct t; cbn [face_edge].
    + rewrite decide_False by (intros [=]; lia). rewrite decide_False by (intros [=]; lia).
      by rewrite decide_True.
    + rewrite decide_False by (intros [=]; lia). by rewrite decide_True.
    + by rewrite decide_True.
  - intros pq Hpq. rewrite Hall.
    rewrite decide_False by (apply (Hpq CA)).
    rewrite decide_False by (apply (Hpq BC)).
    by rewrite decide_False by (apply (Hpq AB)).
Qed.

Lemma slot_of_true (Q : Z * Z → Z * EdgeType → Prop) em pq s :
  em_wf em → slots_sat Q em → slot_of em pq = Some s → Q pq s.
Proof.
  intros Hwf Hs. destruct pq as [p q]. unfold slot_of. cbn [fst snd].
  destruct (rec_at em (EdgeKey p q)) as [e|] eqn:E; [|done]. cbn [mbind option_bind].
  case_bool_decide as Hf; [|done]. intros [= <-].
  destruct (Hs _ _ E) as (Hlt & _ & H1 & H2).
  pose proof (rec_at_wf em _ e Hwf E) as Hk. unfold EdgeKey in Hk.
  injection Hk as Hv1 Hv2. unfold slot in *.
  case_bool_decide as Hc; cbn [fst] in Hf.
  - rewrite Z.min_l in Hv1 by lia. rewrite Z.max_r in Hv2 by lia. subst. auto.
  - assert (p ≠ q) by lia.
    rewrite Z.min_r in Hv1 by lia. rewrite Z.max_l in Hv2 by lia. subst. auto.
Qed.

Lemma slot_of_none em pq :
  rec_at em (EdgeKey pq.1 pq.2) = None → slot_of em pq = None.
Proof. intros Hn. unfold slot_of. by rewrite Hn. Qed.

Lemma addFaceEdges_wf em mesh g : em_wf em → em_wf (addFaceEdges em mesh g).
Proof.
  intros Hwf. unfold addFaceEdges. cbv zeta.
  repeat (match goal with
          | |- em_wf (addFaceEdge ?e ?p ?q ?g ?t ?l) =>
              apply (addFaceEdge_view e p q g t l)
          end).
  done.
Qed.

Lemma same_triangle_edges f x y z pq :
  same_triangle (abc f) (x, y, z) →
  (∃ t, face_edge f t = pq) ↔ pq = (x, y) ∨ pq = (y, z) ∨ pq = (z, x).
Proof.
  unfold same_triangle, rot, abc. intros [Hf|[Hf|Hf]]; injection Hf as Ha Hb Hc; split.
  all: try (intros [[] <-]; cbn [face_edge]; rewrite ?Ha, ?Hb, ?Hc; by auto).
  all: intros [-> |[-> | ->]];
    first [ by (exists AB; cbn [face_edge]; rewrite ?Ha, ?Hb, ?Hc)
          | by (exists BC; cbn [face_edge]; rewrite ?Ha, ?Hb, ?Hc)
          | by (exists CA; cbn [face_edge]; rewrite ?Ha, ?Hb, ?Hc) ].
Qed.

Lemma same_triangle_corners f x y z :
  same_triangle (abc f) (x, y, z) → corners_of f = {[x; y; z]}.
Proof.
  unfold same_triangle, rot, abc, corners_of.
  intros [Hf|[Hf|Hf]]; injection Hf as -> -> ->; set_solver.
Qed.

Lemma corners_perm f x y z :
  degenerate f = false → corners_of f = {[x; y; z]} →
  same_triangle (abc f) (x, y, z) ∨ same_triangle (abc f) (x, z, y).
Proof.
  intros (Hab & Hbc & Hca)%degenerate_false Hc. unfold corners_of in Hc.
  assert (Ha' : a f = x ∨ a f = y ∨ a f = z).
  { assert (Hin : a f ∈ ({[x; y; z]} : gset Z)) by (rewrite <- Hc; set_solver).
    set_solver. }
  assert (Hb' : b f = x ∨ b f = y ∨ b f = z).
  { assert (Hin : b f ∈ ({[x; y; z]} : gset Z)) by (rewrite <- Hc; set_solver).
    set_solver. }
  assert (Hc' : c f = x ∨ c f = y ∨ c f = z).
  { assert (Hin : c f ∈ ({[x; y; z]} : gset Z)) by (rewrite <- Hc; set_solver).
    set_solver. }
  clear Hc. unfold same_triangle, rot, abc.
  destruct Ha' as [Ha|[Ha|Ha]], Hb' as [Hb|[Hb|Hb]], Hc' as [Hc|[Hc|Hc]];
    rewrite Ha, Hb, Hc in *; try congruence; auto 10.
Qed.

Lemma splitEdge_halves_apex mesh em fid ty vid p q :
  0 ≤ fid < fsize mesh →
  face_edge (face mesh fid) ty = (p, q) →
  let r := splitEdge (mesh, em) fid ty vid in
  let z := apex (face mesh fid) ty in
  same_triangle (abc (face mesh fid)) (p, q, z)
  ∧ same_triangle (abc (face r.1 fid)) (p, vid, z)
  ∧ same_triangle (abc (face r.1 (fsize mesh))) (vid, q, z).
Proof.
  intros Hfid Hpq r z.
  destruct (splitEdge_halves mesh em fid ty vid Hfid) as [HK HN].
  cbv zeta in HK, HN. fold r in HK, HN. rewrite HK, HN. subst z.
  unfold same_triangle, rot, abc, apex.
  destruct ty; injection Hpq as <- <-; cbn [face_edge]; auto 10.
Qed.

Lemma split_watertight mesh em fid ty vid p q :
  em_wf em → 0 ≤ fid < fsize mesh →
  (∀ g, 0 ≤ g < fsize mesh → degenerate (face mesh g) = false) →
  0 ≤ a (face mesh fid) < vid ∧ 0 ≤ b (face mesh fid) < vid ∧ 0 ≤ c (face mesh fid) < vid →
  face_edge (face mesh fid) ty = (p, q) →
  rec_at em (EdgeKey p q) = None →
  slots_sat (presents mesh) em →
  complete_except (EdgeKey p q) mesh em →
  simplicial mesh →
  let z := apex (face mesh fid) ty in
  (∀ s, 0 ≤ s.1 < fsize mesh →
     let e := face_edge (face mesh s.1) s.2 in
     e ≠ (p, vid) ∧ e ≠ (vid, q) ∧ e ≠ (vid, z) ∧ e ≠ (z, vid)) →
  let r := splitEdge (mesh, em) fid ty vid in
  complete_except (EdgeKey p q) r.1 r.2
  ∧ simplicial r.1
  ∧ (∀ s, 0 ≤ s.1 < fsize r.1 →
       (s.1 < fsize mesh ∧ s.1 ≠ fid ∧ face r.1 s.1 = face mesh s.1)
       ∨ (let e := face_edge (face r.1 s.1) s.2 in
          e = (p, vid) ∨ e = (vid, z) ∨ e = (z, p)
          ∨ e = (vid, q) ∨ e = (q, z) ∨ e = (z, vid))).
Proof.
  intros Hwf Hfid Hnd Hin Hpq Hnone Hs Hc Hsimp z Hfree r.
  destruct (splitEdge_round mesh em fid ty vid p q Hwf Hfid (Hnd _ Hfid) Hin Hpq Hnone Hs)
    as (_ & _ & _ & _ & Hother & Hhalves).
  destruct (splitEdge_shape mesh em fid ty vid) as (_ & Hl & Hem).
  destruct (splitEdge_halves_apex mesh em fid ty vid p q Hfid Hpq) as (Htr & HtK & HtN).
  cbv zeta in Hother, Hhalves, Hl, Hem, Htr, HtK, HtN.
  fold r in Hother, Hhalves, Hl, Hem, Htr, HtK, HtN. fold z in Htr, HtK, HtN.
  assert (Hsz : fsize r.1 = fsize mesh + 1) by (unfold fsize; lia).
  rewrite Hsz in Hem. replace (fsize mesh + 1 - 1) with (fsize mesh) in Hem by lia.
  destruct (Hhalves fid (or_introl eq_refl)) as [HndK _].
  destruct (Hhalves (fsize mesh) (or_intror eq_refl)) as [HndN _].
  assert (Hz : p ≠ q ∧ q ≠ z ∧ z ≠ p ∧ 0 ≤ p < vid ∧ 0 ≤ q < vid ∧ 0 ≤ z < vid).
  { destruct (degenerate_false _ (Hnd _ Hfid)) as (Hab & Hbc & Hca).
    clear - Htr Hab Hbc Hca Hin. unfold same_triangle, rot, abc in Htr.
    destruct Htr as [Ht|[Ht|Ht]]; injection Ht as Ha Hb Hc'; lia. }
  clearbody z.
  remember (face mesh fid) as f eqn:Ef.
  remember (face r.1 fid) as K eqn:EK.
  remember (face r.1 (fsize mesh)) as Nw eqn:EN.
  clearbody r. destruct r as [mesh' em']. cbn [fst snd] in *. subst em'.
  assert (Efb : ∀ pq, pq = (p, q) ∨ pq = (q, z) ∨ pq = (z, p) → ∃ t, face_edge f t = pq).
  { intros pq. apply (same_triangle_edges f p q z pq Htr). }
  assert (EKf : ∀ t, face_edge K t = (p, vid) ∨ face_edge K t = (vid, z)
                     ∨ face_edge K t = (z, p)).
  { intros t. apply (same_triangle_edges K p vid z _ HtK). eauto. }
  assert (ENf : ∀ t, face_edge Nw t = (vid, q) ∨ face_edge Nw t = (q, z)
                     ∨ face_edge Nw t = (z, vid)).
  { intros t. apply (same_triangle_edges Nw vid q z _ HtN). eauto. }
  destruct (slot_of_addFaceEdges em mesh' fid Hwf) as [HaK Hao];
    [lia|by rewrite <- EK|]. rewrite <- EK in HaK, Hao.
  destruct (slot_of_addFaceEdges (addFaceEdges em mesh' fid) mesh' (fsize mesh))
    as [HbN Hbo]; [by apply addFaceEdges_wf|lia|by rewrite <- EN|].
  rewrite <- EN in HbN, Hbo. cbv zeta in HaK, Hao, HbN, Hbo.
  assert (HKN : ∀ t t', face_edge K t ≠ face_edge Nw t').
  { intros t t' Heq. pose proof (EKf t) as H1. pose proof (ENf t') as H2.
    rewrite <- Heq in H2.
    clear - H1 H2 Hz. destruct H1 as [H1|[H1|H1]], H2 as [H2|[H2|H2]];
      rewrite H1 in H2; injection H2; lia. }
  split_and!.
  - intros [g t] Hg. cbn [fst snd] in *. cbv zeta. intros Hk.
    destruct (decide (g = fsize mesh)) as [->|Hgn]; [rewrite <- EN; apply HbN|].
    destruct (decide (g = fid)) as [->|Hgf].
    { rewrite <- EK. rewrite Hbo by (intros t'; apply HKN). apply HaK. }
    assert (Hgo : 0 ≤ g < fsize mesh) by lia.
    rewrite Hother in Hk |- * by done.
    pose proof (Hc (g, t) Hgo Hk) as Hsl. cbn [fst snd] in Hsl.
    destruct (Hfree (g, t) Hgo) as (F1 & F2 & F3 & F4). cbn [fst snd] in F1, F2, F3, F4.
    assert (Hret : ∀ t', face_edge f t' = face_edge (face mesh g) t →
              EdgeKey (face_edge f t').1 (face_edge f t').2 ≠ EdgeKey p q → False).
    { intros t' Heq Hk'. pose proof (Hc (fid, t') Hfid) as Hsl'. cbn [fst snd] in Hsl'.
      rewrite <- Ef in Hsl'. specialize (Hsl' Hk'). rewrite Heq in Hsl'. congruence. }
    assert (Hnot : ∀ t' g', g' = K ∨ g' = Nw → face_edge (face mesh g) t ≠ face_edge g' t').
    { intros t' g' Hg' Heq.
      assert (H1 : (face_edge (face mesh g) t = (p, vid) ∨ face_edge (face mesh g) t = (vid, z)
                    ∨ face_edge (face mesh g) t = (z, p))
                   ∨ (face_edge (face mesh g) t = (vid, q) ∨ face_edge (face mesh g) t = (q, z)
                      ∨ face_edge (face mesh g) t = (z, vid))).
      { rewrite Heq. destruct Hg' as [-> | ->]; [left; apply EKf|right; apply ENf]. }
      destruct H1 as [[H1|[H1|H1]]|[H1|[H1|H1]]]; try done.
      - destruct (Efb (z, p)) as [t0 H2]; [auto|]. apply (Hret t0); [congruence|].
        rewrite H2. cbn [fst snd]. unfold EdgeKey. intros [=]. lia.
      - destruct (Efb (q, z)) as [t0 H2]; [auto|]. apply (Hret t0); [congruence|].
        rewrite H2. cbn [fst snd]. unfold EdgeKey. intros [=]. lia. }
    rewrite Hbo by (intros t'; apply Hnot; by right).
    rewrite Hao by (intros t'; apply Hnot; by left). exact Hsl.
  - intros g g' Hg Hg' Hcor.
    assert (Hcase : ∀ g, 0 ≤ g < fsize mesh' →
              (g = fid ∧ face mesh' g = K) ∨ (g = fsize mesh ∧ face mesh' g = Nw)
              ∨ (0 ≤ g < fsize mesh ∧ g ≠ fid ∧ face mesh' g = face mesh g)).
    { intros g0 Hg0. destruct (decide (g0 = fid)) as [->|?]; [by left|].
      destruct (decide (g0 = fsize mesh)) as [->|?]; [right; by left|].
      right. right. split; [lia|]. split; [done|]. apply Hother; [lia|done]. }
    assert (HcK : corners_of K = {[p; vid; z]}) by (by apply same_triangle_corners).
    assert (HcN : corners_of Nw = {[vid; q; z]}) by (by apply same_triangle_corners).
    assert (Hold : ∀ g0 x y w e1 e2, 0 ≤ g0 < fsize mesh →
              corners_of (face mesh g0) = {[x; y; w]} →
              e1 = (x, y) ∨ e1 = (y, w) ∨ e1 = (w, x) →
              e2 = (x, w) ∨ e2 = (w, y) ∨ e2 = (y, x) →
              (∀ t, face_edge (face mesh g0) t ≠ e1) →
              (∀ t, face_edge (face mesh g0) t ≠ e2) → False).
    { intros g0 x y w e1 e2 Hg0 Hc0 He1 He2 Hn1 Hn2.
      destruct (corners_perm _ x y w (Hnd _ Hg0) Hc0) as [Hp|Hp].
      - pose proof (same_triangle_edges (face mesh g0) x y w e1 Hp) as [_ [t Ht]]; [auto|].
        by apply (Hn1 t).
      - pose proof (same_triangle_edges (face mesh g0) x w y e2 Hp) as [_ [t Ht]]; [auto|].
        by apply (Hn2 t). }
    assert (HoK : ∀ g0, 0 ≤ g0 < fsize mesh → corners_of (face mesh g0) ≠ corners_of K).
    { intros g0 Hg0 Heq. rewrite HcK in Heq.
      apply (Hold g0 p vid z (p, vid) (z, vid) Hg0 Heq); [auto|auto|..]; intros t;
        destruct (Hfree (g0, t) Hg0) as (? & ? & ? & ?); done. }
    assert (HoN : ∀ g0, 0 ≤ g0 < fsize mesh → corners_of (face mesh g0) ≠ corners_of Nw).
    { intros g0 Hg0 Heq. rewrite HcN in Heq.
      apply (Hold g0 vid q z (vid, q) (vid, z) Hg0 Heq); [auto|auto|..]; intros t;
        destruct (Hfree (g0, t) Hg0) as (? & ? & ? & ?); done. }
    assert (HKNc : corners_of K ≠ corners_of Nw).
    { rewrite HcK, HcN. intros Heq.
      assert (Hp : p ∈ ({[vid; q; z]} : gset Z)) by (rewrite <- Heq; set_solver).
      set_unfold in Hp. lia. }
    destruct (Hcase g Hg) as [[-> E1]|[[-> E1]|(Ho1 & Hn1 & E1)]],
             (Hcase g' Hg') as [[-> E2]|[[-> E2]|(Ho2 & Hn2 & E2)]];
      rewrite ?E1, ?E2 in Hcor; try done;
      first [ destruct (HKNc Hcor) | destruct (HKNc (eq_sym Hcor))
            | destruct (HoK _ Ho2 (eq_sym Hcor)) | destruct (HoN _ Ho2 (eq_sym Hcor))
            | destruct (HoK _ Ho1 Hcor) | destruct (HoN _ Ho1 Hcor)
            | by apply Hsimp ].
  - intros [g t] Hg. cbn [fst snd] in *. cbv zeta.
    destruct (decide (g = fid)) as [->|Hgf].
    { right. rewrite <- EK. pose proof (EKf t). tauto. }
    destruct (decide (g = fsize mesh)) as [->|Hgn].
    { right. rewrite <- EN. pose proof (ENf t). tauto. }
    left. split; [lia|]. split; [done|]. apply Hother; [lia|done].
Qed.

Lemma split_full k0 mesh em fid ty vid p q :
  mid_round k0 vid (mesh, em) →
  0 ≤ fid < fsize mesh →
  0 ≤ a (face mesh fid) < vid ∧ 0 ≤ b (face mesh fid) < vid ∧ 0 ≤ c (face mesh fid) < vid →
  face_edge (face mesh fid) ty = (p, q) →
  EdgeKey p q = k0 →
  let z := apex (face mesh fid) ty in
  (∀ s, 0 ≤ s.1 < fsize mesh →
     let e := face_edge (face mesh s.1) s.2 in
     e ≠ (p, vid) ∧ e ≠ (vid, q) ∧ e ≠ (vid, z) ∧ e ≠ (z, vid)) →
  let r := splitEdge (mesh, em) fid ty vid in
  mid_round k0 vid r
  ∧ fsize r.1 = fsize mesh + 1
  ∧ vertices r.1 = vertices mesh
  ∧ (∀ g, 0 ≤ g < fsize mesh → g ≠ fid → face r.1 g = face mesh g)
  ∧ (∀ s, 0 ≤ s.1 < fsize r.1 →
       (s.1 < fsize mesh ∧ s.1 ≠ fid ∧ face r.1 s.1 = face mesh s.1)
       ∨ (let e := face_edge (face r.1 s.1) s.2 in
          e = (p, vid) ∨ e = (vid, z) ∨ e = (z, p)
          ∨ e = (vid, q) ∨ e = (q, z) ∨ e = (z, vid))).
Proof.
  intros (Hwf & Hp & Hvid & Hnone & Hs & Hc & Hsimp) Hfid Hin Hpq <- z Hfree r.
  cbn [fst snd] in *.
  destruct (split_in_round mesh em fid ty vid p q Hwf Hfid Hvid Hp Hin Hpq Hnone Hs)
    as (Hwf' & Hs' & Hn' & _ & Hv' & Hsz' & Hoth' & Hp').
  destruct (split_watertight mesh em fid ty vid p q Hwf Hfid (λ g Hg, proj1 (Hp g Hg))
              Hin Hpq Hnone Hs Hc Hsimp Hfree) as (Hc' & Hsimp' & Hcls').
  fold r in Hwf', Hs', Hn', Hv', Hsz', Hoth', Hp', Hc', Hsimp', Hcls'. fold z in Hcls'.
  split; [|by split_and!]. split_and!; try done.
  unfold vsize in *. by rewrite Hv'.
Qed.

Lemma apex_triangle f t p q :
  face_edge f t = (p, q) → same_triangle (abc f) (p, q, apex f t).
Proof.
  unfold same_triangle, rot, abc, apex. destruct t; cbn [face_edge]; intros [= <- <-]; auto.
Qed.

Lemma EdgeKey_ends x y u w :
  u < w → EdgeKey x y = (u, w) → (x, y) = (u, w) ∨ (x, y) = (w, u).
Proof.
  unfold EdgeKey. intros Hlt [= H1 H2].
  destruct (decide (x ≤ y)); [left|right]; f_equal; lia.
Qed.

Lemma slot_of_pop em :
  em_wf em → heap em ≠ [] →
  let r := pop_top_edge em in
  ∀ pq, EdgeKey pq.1 pq.2 ≠ (v1 r.1, v2 r.1) → slot_of r.2 pq = slot_of em pq.
Proof.
  intros Hwf Hne r pq Hk.
  destruct (pop_top_edge_view em Hwf Hne) as (_ & _ & Hview). fold r in Hview.
  unfold slot_of. rewrite Hview. by rewrite decide_False.
Qed.

Lemma slot_of_rec em e (p q : Z) :
  rec_at em (EdgeKey p q) = Some e →
  slot_of em (p, q) = if bool_decide (0 ≤ (slot e p q).1) then Some (slot e p q) else None.
Proof. intros Hr. unfold slot_of. cbn [fst snd]. by rewrite Hr. Qed.

Lemma apex_facts f t p q n :
  degenerate f = false → face_edge f t = (p, q) →
  0 ≤ a f < n ∧ 0 ≤ b f < n ∧ 0 ≤ c f < n →
  p ≠ q ∧ q ≠ apex f t ∧ apex f t ≠ p
  ∧ 0 ≤ p < n ∧ 0 ≤ q < n ∧ 0 ≤ apex f t < n.
Proof.
  intros (Hab & Hbc & Hca)%degenerate_false Hpq Hin. unfold apex.
  destruct t; cbn [face_edge] in Hpq; injection Hpq as <- <-; lia.
Qed.

Lemma EdgeKey_sym x y : EdgeKey x y = EdgeKey y x.
Proof. unfold EdgeKey. f_equal; lia. Qed.

Lemma six_keys (e : Z * Z) p q z vid k0 :
  e = (p, vid) ∨ e = (vid, z) ∨ e = (z, p) ∨ e = (vid, q) ∨ e = (q, z) ∨ e = (z, vid) →
  EdgeKey p q = k0 →
  p ≠ q → q ≠ z → z ≠ p → p < vid → q < vid → z < vid →
  EdgeKey e.1 e.2 ≠ k0.
Proof.
  intros He <- ? ? ? ? ? ?. unfold EdgeKey.
  destruct He as [->|[->|[->|[->|[->| ->]]]]]; cbn [fst snd]; intros [=]; lia.
Qed.

Lemma refine_step_watertight st :
  watertight_ok st → heap st.2 ≠ [] →
  watertight_ok (refine_step st) ∧ bisect_clean st.1 (refine_step st).1.
Proof.
  destruct st as [mesh em]. intros (Hok & Hcomp & Hsimp) Hne. cbn [fst snd] in *.
  destruct (refine_step_ok (mesh, em) Hok Hne) as (Hok' & Hb & Hn'). cbn [fst snd] in *.
  cut (complete (refine_step (mesh, em)).1 (refine_step (mesh, em)).2
       ∧ simplicial (refine_step (mesh, em)).1).
  { intros [Hc' Hs']. split; [by split_and!|].
    eexists _, _. split; [exact Hb|]. intros g t Hg. split; intros Heq.
    - pose proof (Hc' (g, t) Hg) as Hsl. cbn [fst snd] in Hsl. rewrite Heq in Hsl.
      rewrite slot_of_none in Hsl; [done|exact Hn'].
    - pose proof (Hc' (g, t) Hg) as Hsl. cbn [fst snd] in Hsl. rewrite Heq in Hsl.
      rewrite slot_of_none in Hsl; [done|]. cbn [fst snd]. rewrite EdgeKey_sym. exact Hn'. }
  clear Hok' Hb Hn'. destruct Hok as (Hp & _ & Hwf & Hs). cbn [fst snd] in *.
  destruct (pop_top_edge_view em Hwf Hne) as (Hwf1 & He0 & Hview).
  pose proof (slot_of_pop em Hwf Hne) as Hpop.
  cbv zeta in Hwf1, He0, Hview, Hpop.
  unfold refine_step. destruct (pop_top_edge em) as [e0 em1]. cbn [fst snd] in *.
  destruct (Hs _ _ He0) as (Hlt & Hfill & Hs1 & Hs2).
  pose proof (proj1 (proper_index mesh) Hp) as Hpi.
  set (k0 := (v1 e0, v2 e0)) in *.
  assert (Hk0 : EdgeKey (v1 e0) (v2 e0) = k0) by (unfold EdgeKey, k0; f_equal; lia).
  assert (Hk0' : EdgeKey (v2 e0) (v1 e0) = k0) by (unfold EdgeKey, k0; f_equal; lia).
  assert (Hso : ∀ s, 0 ≤ s.1 < fsize mesh →
            EdgeKey (face_edge (face mesh s.1) s.2).1 (face_edge (face mesh s.1) s.2).2 = k0 →
            (s = (f1 e0, et1 e0) ∧ 0 ≤ f1 e0) ∨ (s = (f2 e0, et2 e0) ∧ 0 ≤ f2 e0)).
  { intros s Hsv Hk. pose proof (Hcomp s Hsv) as Hsl.
    destruct (face_edge (face mesh s.1) s.2) as [x y] eqn:E. cbn [fst snd] in Hk.
    destruct (EdgeKey_ends x y _ _ Hlt Hk) as [[= -> ->]|[= -> ->]].
    - rewrite (slot_of_rec em e0) in Hsl by (rewrite Hk0; exact He0).
      unfold slot in Hsl. rewrite (bool_decide_eq_true_2 (v1 e0 < v2 e0)) in Hsl by lia.
      cbn [fst] in Hsl. case_bool_decide; [|done]. injection Hsl as <-. by left.
    - rewrite (slot_of_rec em e0) in Hsl by (rewrite Hk0'; exact He0).
      unfold slot in Hsl. rewrite (bool_decide_eq_false_2 (v2 e0 < v1 e0)) in Hsl by lia.
      cbn [fst] in Hsl. case_bool_decide; [|done]. injection Hsl as <-. by right. }
  set (mesh1 := mkMesh (vertices mesh ++ [_]) (tCoords mesh) (faces mesh)).
  assert (Hvs1 : vsize mesh1 = vsize mesh + 1).
  { unfold vsize, mesh1. cbn [vertices]. rewrite length_app. simpl. lia. }
  assert (Hmid1 : mid_round k0 (vsize mesh) (mesh1, em1)).
  { split_and!; cbn [fst snd].
    - exact Hwf1.
    - intros g Hg. destruct (Hpi g Hg) as [Hd Hv]. split; [exact Hd|].
      unfold face_vertices_ok in *. rewrite Hvs1. change (face mesh1 g) with (face mesh g). lia.
    - lia.
    - rewrite Hview. by rewrite decide_True.
    - intros k e Hr. rewrite Hview in Hr. destruct (decide _); [done|]. exact (Hs _ _ Hr).
    - intros s Hsv. cbv zeta. intros Hk. rewrite Hpop by exact Hk. exact (Hcomp s Hsv).
    - exact Hsimp. }
  assert (Hin1 : ∀ g, 0 ≤ g < fsize mesh1 →
            0 ≤ a (face mesh1 g) < vsize mesh ∧ 0 ≤ b (face mesh1 g) < vsize mesh
            ∧ 0 ≤ c (face mesh1 g) < vsize mesh).
  { intros g Hg. by destruct (Hpi g Hg) as [_ Hv]. }
  assert (Hnd1 : ∀ g, 0 ≤ g < fsize mesh1 → degenerate (face mesh1 g) = false).
  { intros g Hg. by destruct (Hpi g Hg) as [Hd _]. }
  assert (Hs1' : 0 ≤ f1 e0 → presents mesh1 (v1 e0, v2 e0) (f1 e0, et1 e0)) by exact Hs1.
  assert (Hs2' : 0 ≤ f2 e0 → presents mesh1 (v2 e0, v1 e0) (f2 e0, et2 e0)) by exact Hs2.
  assert (Hso' : ∀ s, 0 ≤ s.1 < fsize mesh1 →
            EdgeKey (face_edge (face mesh1 s.1) s.2).1 (face_edge (face mesh1 s.1) s.2).2 = k0 →
            (s = (f1 e0, et1 e0) ∧ 0 ≤ f1 e0) ∨ (s = (f2 e0, et2 e0) ∧ 0 ≤ f2 e0))
    by exact Hso.
  assert (Hsimp1 : simplicial mesh1) by exact Hsimp.
  assert (Hvid : Z.of_nat (length (vertices mesh1)) - 1 = vsize mesh).
  { fold (vsize mesh1). lia. }
  cbn [fst]. rewrite Hvid.
  clear Hs1 Hs2 Hso Hpi Hp Hs Hcomp Hsimp Hview Hpop He0 Hwf Hne Hwf1.
  clearbody mesh1. clearbody k0.
  set (vid := vsize mesh) in *. clearbody vid.
  assert (Hnovid : ∀ s x, 0 ≤ s.1 < fsize mesh1 →
            face_edge (face mesh1 s.1) s.2 ≠ (x, vid)
            ∧ face_edge (face mesh1 s.1) s.2 ≠ (vid, x)).
  { intros [g t] x Hg. cbn [fst snd] in *. destruct (Hin1 g Hg) as (? & ? & ?).
    destruct t; cbn [face_edge]; split; intros [=]; lia. }
  assert (Hfree1 : ∀ p q z (s : Z * EdgeType), 0 ≤ s.1 < fsize mesh1 →
            let e := face_edge (face mesh1 s.1) s.2 in
            e ≠ (p, vid) ∧ e ≠ (vid, q) ∧ e ≠ (vid, z) ∧ e ≠ (z, vid)).
  { intros p q z s Hsv. cbv zeta.
    split_and!; first [apply (Hnovid s _ Hsv)]. }
  destruct (bool_decide (0 ≤ f1 e0)) eqn:E1.
  - apply bool_decide_eq_true in E1. destruct (Hs1' E1) as [Hg1 Hpq1]. cbn [fst snd] in Hg1, Hpq1.
    destruct (apex_facts _ _ _ _ vid (Hnd1 _ Hg1) Hpq1 (Hin1 _ Hg1))
      as (A1 & A2 & A3 & A4 & A5 & A6).
    set (z1 := apex (face mesh1 (f1 e0)) (et1 e0)) in *.
    destruct (split_full k0 mesh1 em1 (f1 e0) (et1 e0) vid (v1 e0) (v2 e0) Hmid1)
      as (Hmid2 & Hsz2 & Hv2 & Hoth2 & Hcls2);
      [exact Hg1|apply Hin1; exact Hg1|exact Hpq1|exact Hk0|apply Hfree1|].
    fold z1 in Hcls2.
    set (st2 := splitEdge (mesh1, em1) (f1 e0) (et1 e0) vid) in *.
    clearbody st2. destruct st2 as [mesh2 em2]. cbn [fst snd] in *.
    rewrite Hv2, Hvid.
    (* no face of the first result is on the edge *)
    assert (Hgone2 : ∀ s, 0 ≤ s.1 < fsize mesh2 →
              EdgeKey (face_edge (face mesh2 s.1) s.2).1 (face_edge (face mesh2 s.1) s.2).2 = k0 →
              s = (f2 e0, et2 e0) ∧ 0 ≤ f2 e0 ∧ f2 e0 ≠ f1 e0).
    { intros s Hsv Hk. destruct (Hcls2 s Hsv) as [(Hl & Hn & Hf)|Hsix].
      - rewrite Hf in Hk. destruct (Hso' s ltac:(lia) Hk) as [[-> _]|[-> ?]]; [done|].
        cbn [fst] in Hn. done.
      - exfalso. cbv zeta in Hsix.
        apply (six_keys _ (v1 e0) (v2 e0) z1 vid k0 Hsix Hk0); [lia..|exact Hk]. }
    destruct (bool_decide (0 ≤ f2 e0)) eqn:E2.
    + apply bool_decide_eq_true in E2. destruct (Hs2' E2) as [Hg2 Hpq2].
      cbn [fst snd] in Hg2, Hpq2.
      assert (Hne12 : f2 e0 ≠ f1 e0).
      { intros Heq. rewrite Heq in Hpq2.
        exact (face_edge_rev _ _ _ _ _ (Hnd1 _ Hg1) Hpq1 Hpq2). }
      assert (Hf2 : face mesh2 (f2 e0) = face mesh1 (f2 e0)).
      { apply Hoth2; [exact Hg2|exact Hne12]. }
      destruct (apex_facts _ _ _ _ vid (Hnd1 _ Hg2) Hpq2 (Hin1 _ Hg2))
        as (B1 & B2 & B3 & B4 & B5 & B6).
      assert (Hz12 : z1 ≠ apex (face mesh1 (f2 e0)) (et2 e0)).
      { intros Heq. apply Hne12. apply (Hsimp1 _ _ Hg2 Hg1).
        rewrite (same_triangle_corners _ _ _ _ (apex_triangle _ _ _ _ Hpq1)).
        rewrite (same_triangle_corners _ _ _ _ (apex_triangle _ _ _ _ Hpq2)).
        fold z1. rewrite <- Heq. set_solver. }
      set (z2 := apex (face mesh1 (f2 e0)) (et2 e0)) in *.
      destruct (split_full k0 mesh2 em2 (f2 e0) (et2 e0) vid (v2 e0) (v1 e0) Hmid2)
        as (Hmid3 & Hsz3 & Hv3 & Hoth3 & Hcls3);
        [lia|rewrite Hf2; apply Hin1; exact Hg2|rewrite Hf2; exact Hpq2|exact Hk0'| |].
      { rewrite Hf2. fold z2. intros s Hsv. cbv zeta.
        destruct (Hcls2 s Hsv) as [(Hl & Hn & Hf)|Hsix].
        - rewrite Hf. apply Hfree1. lia.
        - cbv zeta in Hsix. clear - Hsix A1 A2 A3 A4 A5 A6 B1 B2 B3 B4 B5 B6 Hz12.
          destruct Hsix as [->|[->|[->|[->|[->| ->]]]]]; split_and!; intros [=]; lia. }
      rewrite Hf2 in Hcls3. fold z2 in Hcls3.
      set (st3 := splitEdge (mesh2, em2) (f2 e0) (et2 e0) vid) in *.
      clearbody st3. destruct st3 as [mesh3 em3]. cbn [fst snd] in *.
      destruct Hmid3 as (_ & _ & _ & _ & _ & Hc3 & Hsimp3). cbn [fst snd] in *.
      split; [|exact Hsimp3].
      intros s Hsv. apply Hc3; [exact Hsv|]. intros Hk.
      destruct (Hcls3 s Hsv) as [(Hl & Hn & Hf)|Hsix].
      * rewrite Hf in Hk. destruct (Hgone2 s ltac:(lia) Hk) as (-> & _ & _).
        cbn [fst] in Hn. done.
      * cbv zeta in Hsix.
        apply (six_keys _ (v2 e0) (v1 e0) z2 vid k0 Hsix Hk0'); [lia..|exact Hk].
    + apply bool_decide_eq_false in E2. cbn [fst snd].
      destruct Hmid2 as (_ & _ & _ & _ & _ & Hc2 & Hsimp2). cbn [fst snd] in *.
      split; [|exact Hsimp2].
      intros s Hsv. apply Hc2; [exact Hsv|]. intros Hk.
      destruct (Hgone2 s Hsv Hk) as (_ & ? & _). done.
  - apply bool_decide_eq_false in E1.
    destruct Hfill as [Hf|E2]; [lia|].
    rewrite (bool_decide_eq_true_2 _ E2). cbn [fst]. rewrite Hvid.
    destruct (Hs2' E2) as [Hg2 Hpq2]. cbn [fst snd] in Hg2, Hpq2.
    destruct (apex_facts _ _ _ _ vid (Hnd1 _ Hg2) Hpq2 (Hin1 _ Hg2))
      as (B1 & B2 & B3 & B4 & B5 & B6).
    set (z2 := apex (face mesh1 (f2 e0)) (et2 e0)) in *.
    destruct (split_full k0 mesh1 em1 (f2 e0) (et2 e0) vid (v2 e0) (v1 e0) Hmid1)
      as (Hmid2 & Hsz2 & Hv2 & Hoth2 & Hcls2);
      [exact Hg2|apply Hin1; exact Hg2|exact Hpq2|exact Hk0'|apply Hfree1|].
    fold z2 in Hcls2.
    set (st2 := splitEdge (mesh1, em1) (f2 e0) (et2 e0) vid) in *.
    clearbody st2. destruct st2 as [mesh2 em2]. cbn [fst snd] in *.
    destruct Hmid2 as (_ & _ & _ & _ & _ & Hc2 & Hsimp2). cbn [fst snd] in *.
    split; [|exact Hsimp2].
    intros s Hsv. apply Hc2; [exact Hsv|]. intros Hk.
    destruct (Hcls2 s Hsv) as [(Hl & Hn & Hf)|Hsix].
    + rewrite Hf in Hk. destruct (Hso' s ltac:(lia) Hk) as [[-> ?]|[-> _]]; [done|].
      cbn [fst] in Hn. done.
    + cbv zeta in Hsix.
      apply (six_keys _ (v2 e0) (v1 e0) z2 vid k0 Hsix Hk0'); [lia..|exact Hk].
Qed.

Lemma complete_oriented mesh em : complete mesh em → oriented mesh.
Proof.
  intros Hc s s' Hs Hs' Heq.
  pose proof (Hc s Hs) as H1. pose proof (Hc s' Hs') as H2.
  rewrite Heq in H1. congruence.
Qed.

Lemma refine_init_complete m : proper m → oriented m → complete m (refine_init m).
Proof.
  intros Hp Ho. pose proof (proj1 (proper_index m) Hp) as Hpi.
  assert (Hfold : ∀ n, (n ≤ length (faces m))%nat →
            let em := foldl (λ em i, addFaceEdges em m (Z.of_nat i)) emptyEdgeMap (seq 0 n) in
            em_wf em
            ∧ ∀ s, 0 ≤ s.1 < Z.of_nat n → slot_of em (face_edge (face m s.1) s.2) = Some s).
  { induction n as [|n IH]; intros Hn; cbv zeta.
    - split; [apply em_wf_empty|]. intros s Hs. lia.
    - rewrite seq_S, foldl_app. cbn [foldl Nat.add].
      destruct (IH ltac:(lia)) as [Hwf Hsl]. cbv zeta in Hwf, Hsl.
      set (em := foldl _ emptyEdgeMap (seq 0 n)) in *.
      assert (Hg : 0 ≤ Z.of_nat n < fsize m) by (unfold fsize; lia).
      destruct (Hpi _ Hg) as [Hd _].
      destruct (slot_of_addFaceEdges em m (Z.of_nat n) Hwf ltac:(lia) Hd) as [Hnew Hold].
      split; [by apply addFaceEdges_wf|].
      intros [g t] Hs. cbn [fst snd] in *.
      destruct (decide (g = Z.of_nat n)) as [->|Hne]; [apply Hnew|].
      rewrite Hold; [apply (Hsl (g, t)); cbn [fst]; lia|].
      intros t' Heq. apply Hne.
      assert (Hst : (g, t) = (Z.of_nat n, t')).
      { apply Ho; cbn [fst snd]; [unfold fsize; lia|done|done]. }
      by injection Hst. }
  destruct (Hfold (length (faces m)) ltac:(lia)) as [_ Hsl].
  intros s Hs. apply Hsl. exact Hs.
Qed.

Lemma refine_run_watertight m N :
  proper m → oriented m → simplicial m →
  ∃ r em n, refine_run m N = Some (r, em, n)
    ∧ watertight_ok (r, em) ∧ rtc bisect_clean m r.
Proof.
  intros Hp Ho Hsi.
  destruct (refine_run_spec (λ _, True) m N) as (r & em & n & Hr & _); [done..|].
  exists r, em, n. split; [done|].
  pose (I := λ (k : nat) (st : Mesh * EdgeMap), watertight_ok st ∧ rtc bisect_clean m st.1).
  destruct (refine_loop_ind I N) with (fuel := refine_fuel m N) (st := (m, refine_init m))
    (r := (r, em)) (n := n) (k := 0%nat) as [[Hok Hrtc] _].
  - intros k st [Hok Hrtc] Hc. unfold refine_continue in Hc.
    apply andb_true_iff in Hc as [_ Hsz]. apply bool_decide_eq_true in Hsz.
    assert (Hne : heap st.2 ≠ []).
    { unfold EdgeMap_size in Hsz. destruct (heap st.2); [simpl in Hsz; lia|done]. }
    destruct (refine_step_watertight st Hok Hne) as [Hok' Hb].
    split; [done|]. by eapply rtc_r.
  - split; [|cbn [fst]; apply rtc_refl].
    split_and!; cbn [fst snd];
      [by apply refine_init_refiner_ok|by apply refine_init_complete|done].
  - exact Hr.
  - done.
Qed.

(** [refine] keeps an oriented surface whole.  On a mesh of proper
    triangles where no directed edge belongs to two faces and no two faces
    have the same three vertices, every round bisects an edge and cuts
    every face on that edge: no face of the new mesh still has the edge,
    so the new vertex comes to lie on no edge of a face left uncut.  The
    mesh returned is again oriented in this sense, with no two faces on
    the same three vertices. *)
Theorem refine_watertight m N :
  proper m → oriented m → simplicial m →
  ∃ r, refine m N = Some r ∧ oriented r ∧ simplicial r ∧ rtc bisect_clean m r.
Proof.
  intros Hp Ho Hsi.
  destruct (refine_run_watertight m N Hp Ho Hsi) as (r & em & n & Hr & (_ & Hc & Hs) & Hrtc).
  exists r. unfold refine. rewrite Hr. split; [done|].
  split; [by eapply complete_oriented|]. by split.
Qed.

End WatertightFacts.

(** ** Heaps under a strict weak ordering *)

Section HeapOrder.
Context {A : Type} (comp : A → A → bool).
Hypothesis comp_swo : strict_weak comp.
Implicit Types l : list A.

Ltac halves n :=
  pose proof (Nat.div_mod_eq n 2);
  pose proof (Nat.mod_upper_bound n 2 ltac:(lia)).

Lemma parent_lt (i : nat) : (0 < i → (i - 1) / 2 < i)%nat.
Proof. intros. halves (i - 1)%nat. lia. Qed.

Lemma parent_children (c i : nat) :
  (0 < c)%nat → ((c - 1) / 2)%nat = i ↔ (c = 2 * i + 1 ∨ c = 2 * i + 2)%nat.
Proof.
  intros Hc. halves (c - 1)%nat. split.
  - intros <-. lia.
  - intros [-> | ->].
    + replace (2 * i + 1 - 1)%nat with (i * 2)%nat by lia. by rewrite Nat.div_mul.
    + symmetry. apply (Nat.div_unique _ 2 i 1); lia.
Qed.

Lemma comp_irrefl x : comp x x = false.
Proof.
  destruct comp_swo as [Hasym _]. destruct (comp x x) eqn:E; [|done].
  by rewrite (Hasym _ _ E) in E.
Qed.

Lemma comp_ge_trans x y z : comp x y = false → comp y z = false → comp x z = false.
Proof.
  destruct comp_swo as [_ Hnt]. intros Hxy Hyz.
  destruct (comp x z) eqn:E; [|done]. destruct (Hnt _ y _ E); congruence.
Qed.

Lemma comp_lt_ge x y z : comp x y = true → comp x z = false → comp y z = false.
Proof.
  destruct comp_swo as [Hasym Hnt]. intros Hxy Hxz.
  destruct (comp y z) eqn:E; [|done].
  destruct (Hnt _ x _ E) as [Hyx|Hxz']; [|congruence].
  rewrite (Hasym _ _ Hxy) in Hyx. done.
Qed.

Lemma comp_lt_trans x y z : comp x y = true → comp y z = true → comp x z = true.
Proof.
  destruct comp_swo as [Hasym Hnt]. intros Hxy Hyz.
  destruct (Hnt _ x _ Hyz) as [Hyx|Hxz]; [|done].
  rewrite (Hasym _ _ Hxy) in Hyx. done.
Qed.

(** The root of a heap is not exceeded. *)
Lemma heap_top_max l : is_heap comp l →
  ∀ (i : nat) r x, l !! 0%nat = Some r → l !! i = Some x → comp r x = false.
Proof.
  intros Hh i. induction (lt_wf i) as [i _ IH]. intros r x Hr Hx.
  destruct (decide (i = 0)%nat) as [->|Hi].
  - assert (x = r) by congruence. subst. apply comp_irrefl.
  - pose proof (parent_lt i ltac:(lia)) as Hp.
    pose proof (lookup_lt_Some _ _ _ Hx) as Hlen.
    destruct (lookup_lt_is_Some_2 l ((i - 1) / 2)%nat ltac:(lia)) as [p Hpl].
    apply (comp_ge_trans r p x).
    + by apply (IH _ Hp).
    + apply (Hh i x p); [lia|done..].
Qed.

Lemma swap_lookup_fst l (i j : nat) x y :
  l !! i = Some x → l !! j = Some y → swap l i j !! i = Some y.
Proof.
  intros Hi Hj. unfold swap. rewrite Hi, Hj.
  apply list_lookup_insert_eq. rewrite length_insert. by eapply lookup_lt_Some.
Qed.

Lemma swap_lookup_snd l (i j : nat) x y :
  i ≠ j → l !! i = Some x → l !! j = Some y → swap l i j !! j = Some x.
Proof.
  intros Hne Hi Hj. unfold swap. rewrite Hi, Hj.
  rewrite list_lookup_insert_ne by done.
  apply list_lookup_insert_eq. by eapply lookup_lt_Some.
Qed.

Lemma sift_up_heap fuel : ∀ l (i : nat),
  (i < fuel)%nat → (i < length l)%nat → heap_but_up comp l i →
  is_heap comp (sift_up comp fuel l i).
Proof.
  destruct comp_swo as [Hasym _].
  induction fuel as [|fuel IH]; intros l i Hf Hi [H1 H2]; [lia|].
  cbn [sift_up]. destruct i as [|i'].
  { intros j x p Hj Hx Hp. apply (H1 j x p); [lia|lia|done..]. }
  set (i := S i') in *. set (q := ((i - 1) / 2)%nat).
  pose proof (parent_lt i ltac:(lia)) as Hq. fold q in Hq.
  destruct (lookup_lt_is_Some_2 l q ltac:(lia)) as [P HP].
  destruct (lookup_lt_is_Some_2 l i ltac:(lia)) as [X HX].
  rewrite HP, HX. destruct (comp P X) eqn:Ecmp.
  2:{ intros j x p Hj Hx Hp. destruct (decide (j = i)) as [->|Hne].
      - fold q in Hp. assert (x = X) by congruence. assert (p = P) by congruence. by subst.
      - apply (H1 j x p); [lia|done..]. }
  apply IH; [lia|rewrite swap_length; lia|].
  assert (Hsq : swap l q i !! q = Some X) by (by eapply swap_lookup_fst).
  assert (Hsi : swap l q i !! i = Some P) by (eapply swap_lookup_snd; [lia|done..]).
  assert (Hso : ∀ k : nat, k ≠ q → k ≠ i → swap l q i !! k = l !! k)
    by (intros; by apply swap_lookup_other).
  split.
  - intros j x p Hj Hne Hx Hp.
    destruct (decide (j = i)) as [->|Hji].
    { fold q in Hp. assert (x = P) by congruence. assert (p = X) by congruence.
      subst. by apply Hasym. }
    rewrite Hso in Hx by done.
    pose proof (parent_lt j ltac:(lia)) as Hpj.
    destruct (decide (((j - 1) / 2)%nat = q)) as [Eq|Nq].
    { rewrite Eq in Hp. assert (p = X) by congruence. subst p.
      apply (comp_lt_ge P X x Ecmp). apply (H1 j x P); [lia|done|done|by rewrite Eq]. }
    destruct (decide (((j - 1) / 2)%nat = i)) as [Ei|Ni].
    { rewrite Ei in Hp. assert (p = P) by congruence. subst p.
      apply (H2 j x P); [lia|lia|done|done|done]. }
    rewrite Hso in Hp by done. by apply (H1 j x p).
  - intros c x g Hq0 Hc Hpc Hx Hg.
    pose proof (parent_lt q ltac:(lia)) as Hpq.
    rewrite Hso in Hg by lia.
    assert (HgP : comp g P = false) by (apply (H1 q P g); [lia|lia|done..]).
    destruct (decide (c = i)) as [->|Hci].
    { assert (x = P) by congruence. by subst. }
    pose proof (parent_lt c ltac:(lia)) as Hpc'. rewrite Hpc in Hpc'.
    rewrite Hso in Hx by lia.
    apply (comp_ge_trans g P x HgP). apply (H1 c x P); [lia|done|done|by rewrite Hpc].
Qed.

Lemma push_heap_heap l x : is_heap comp l → is_heap comp (push_heap comp (l ++ [x])).
Proof.
  intros Hh. unfold push_heap. rewrite length_app. cbn [length].
  replace (length l + 1 - 1)%nat with (length l) by lia.
  apply sift_up_heap; [lia|rewrite length_app; simpl; lia|].
  split.
  - intros j y p Hj Hne Hy Hp.
    pose proof (lookup_lt_Some _ _ _ Hy) as Hlen. rewrite length_app in Hlen. simpl in Hlen.
    pose proof (parent_lt j ltac:(lia)).
    rewrite lookup_app_l in Hy, Hp by lia. apply (Hh j y p); [lia|done..].
  - intros c y g Hi Hc Hpc Hy Hg.
    pose proof (lookup_lt_Some _ _ _ Hy) as Hlen. rewrite length_app in Hlen. simpl in Hlen.
    apply parent_children in Hpc; lia.
Qed.

Lemma larger_child_cases l (n cur cand : nat) :
  (larger_child comp l n cur cand = cand ∧ (cand < n)%nat
   ∧ ∃ x y, l !! cur = Some x ∧ l !! cand = Some y ∧ comp x y = true)
  ∨ (larger_child comp l n cur cand = cur
     ∧ ∀ x y, l !! cur = Some x → l !! cand = Some y → (cand < n)%nat → comp x y = false).
Proof.
  unfold larger_child.
  destruct (l !! cur) as [x|] eqn:Ex; [|right; split; [done|intros; done]].
  destruct (l !! cand) as [y|] eqn:Ey; [|right; split; [done|intros; done]].
  destruct (bool_decide (cand < n)%nat) eqn:Eb; cbn [andb].
  - apply bool_decide_eq_true in Eb. destruct (comp x y) eqn:Ec.
    + left. split; [done|]. split; [done|]. by exists x, y.
    + right. split; [done|]. intros x' y' [= <-] [= <-] _. done.
  - apply bool_decide_eq_false in Eb. right. split; [done|]. intros. lia.
Qed.

Lemma sift_down_heap fuel : ∀ l (n i : nat),
  (n ≤ length l)%nat → (n - i ≤ fuel)%nat → heap_but_down comp l n i →
  is_heap_upto comp (sift_down comp fuel l n i) n.
Proof.
  destruct comp_swo as [Hasym _].
  induction fuel as [|fuel IH]; intros l n i Hn Hf [H1 H2].
  { cbn [sift_down]. intros j x p Hj Hx Hp. pose proof (parent_lt j ltac:(lia)).
    apply (H1 j x p); [done|lia|done..]. }
  cbn [sift_down]. cbv zeta.
  set (c1 := (2 * i + 1)%nat). set (c2 := (2 * i + 2)%nat).
  assert (Hkids : ∀ j : nat, (0 < j)%nat → ((j - 1) / 2)%nat = i → j = c1 ∨ j = c2).
  { intros j Hj Hp. by apply parent_children in Hp. }
  assert (Hpar : ((c1 - 1) / 2)%nat = i ∧ ((c2 - 1) / 2)%nat = i).
  { split; apply parent_children; unfold c1, c2; lia. }
  (* the largest of the element and its children *)
  assert (Hcases :
    let m := larger_child comp l n (larger_child comp l n i c1) c2 in
    (m = i ∧ ∀ (c : nat) x y, c = c1 ∨ c = c2 → (c < n)%nat →
               l !! i = Some x → l !! c = Some y → comp x y = false)
    ∨ ((m = c1 ∨ m = c2) ∧ (m < n)%nat
       ∧ ∃ x M, l !! i = Some x ∧ l !! m = Some M ∧ comp x M = true
           ∧ ∀ (c : nat) y, c = c1 ∨ c = c2 → c ≠ m → (c < n)%nat →
               l !! c = Some y → comp M y = false)).
  { cbv zeta.
    destruct (larger_child_cases l n i c1) as [(E1 & L1 & x & y1 & Hx & Hy1 & C1)|[E1 F1]];
      rewrite E1;
      match goal with
      | |- context [larger_child comp l n ?cur c2] =>
          destruct (larger_child_cases l n cur c2)
            as [(E2 & L2 & x' & y2 & Hx' & Hy2 & C2)|[E2 F2]]
      end;
      rewrite E2.
    - right. split; [by right|]. split; [done|]. exists x, y2.
      assert (x' = y1) by congruence. subst x'.
      split_and!; [done|done|by eapply comp_lt_trans|].
      intros c y [-> | ->] Hne Hc Hy; [|done].
      assert (y = y1) by congruence. subst. by apply Hasym.
    - right. split; [by left|]. split; [done|]. exists x, y1.
      split_and!; [done..|].
      intros c y [-> | ->] Hne Hc Hy; [done|]. by apply (F2 y1 y).
    - right. split; [by right|]. split; [done|]. exists x', y2.
      split_and!; [done..|].
      intros c y [-> | ->] Hne Hc Hy; [|done].
      apply (comp_lt_ge x' y2 y C2). by apply (F1 x' y).
    - left. split; [done|]. intros c x y [-> | ->] Hc Hx Hy; [by apply (F1 x y)|by apply (F2 x y)]. }
  cbv zeta in Hcases.
  set (m := larger_child comp l n (larger_child comp l n i c1) c2) in *. clearbody m.
  destruct Hcases as [[-> Hle]|(Hm & Hmn & x & M & Hx & HM & Hlt & Hoth)].
  - rewrite bool_decide_eq_true_2 by done.
    intros j y p Hj Hy Hp.
    destruct (decide (((j - 1) / 2)%nat = i)) as [Ep|Np]; [|by apply (H1 j y p)].
    rewrite Ep in Hp. apply (Hle j p y); [apply Hkids; [lia|done]|lia|done..].
  - assert (Hmi : m ≠ i) by (unfold c1, c2 in Hm; lia).
    rewrite bool_decide_eq_false_2 by done.
    assert (Hpm : ((m - 1) / 2)%nat = i) by (destruct Hm as [-> | ->]; apply Hpar).
    apply IH; [rewrite swap_length; lia|unfold c1, c2 in Hm; lia|].
    assert (Hsi : swap l i m !! i = Some M) by (by eapply swap_lookup_fst).
    assert (Hsm : swap l i m !! m = Some x) by (eapply swap_lookup_snd; [lia|done..]).
    assert (Hso : ∀ k : nat, k ≠ i → k ≠ m → swap l i m !! k = l !! k)
      by (intros; by apply swap_lookup_other).
    split.
    + intros j y p Hj Hnp Hy Hp.
      pose proof (parent_lt j ltac:(lia)) as Hpj.
      destruct (decide (j = m)) as [->|Hjm].
      { rewrite Hpm in Hp. assert (y = x) by congruence. assert (p = M) by congruence.
        subst. by apply Hasym. }
      destruct (decide (((j - 1) / 2)%nat = i)) as [Ep|Np].
      { rewrite Ep in Hp. assert (p = M) by congruence. subst p.
        assert (j ≠ i) by lia. rewrite Hso in Hy by done.
        apply (Hoth j y); [apply Hkids; [lia|done]|done|lia|done]. }
      destruct (decide (j = i)) as [->|Hji].
      { assert (y = M) by congruence. subst y.
        assert (Hq : ((i - 1) / 2)%nat ≠ m) by lia.
        rewrite Hso in Hp by lia.
        apply (H2 m M p); [lia|lia|done|done|done]. }
      rewrite Hso in Hy by done. rewrite Hso in Hp by done.
      by apply (H1 j y p).
    + intros c y g Hm0 Hc Hpc Hy Hg.
      pose proof (parent_lt c ltac:(lia)) as Hpc'. rewrite Hpc in Hpc'.
      rewrite Hpm in Hg. assert (g = M) by congruence. subst g.
      rewrite Hso in Hy by lia.
      apply (H1 c y M); [lia|lia|done|by rewrite Hpc].
Qed.

Lemma pop_heap_heap l : is_heap comp l → is_heap comp (pop_back (pop_heap comp l)).
Proof.
  intros Hh. unfold pop_heap, pop_back. cbv zeta.
  set (n := (length l - 1)%nat).
  assert (Hlen : length (sift_down comp n (swap l 0 n) n 0) = length l).
  { rewrite (Permutation_length (sift_down_Permutation comp _ _ _ _)). apply swap_length. }
  rewrite Hlen. fold n.
  assert (Hup : is_heap_upto comp (sift_down comp n (swap l 0 n) n 0) n).
  { apply sift_down_heap; [rewrite swap_length; lia|lia|]. split.
    - intros j x p Hj Hnp Hx Hp. pose proof (parent_lt j ltac:(lia)).
      rewrite swap_lookup_other in Hx by lia. rewrite swap_lookup_other in Hp by lia.
      apply (Hh j x p); [lia|done..].
    - intros. lia. }
  intros j x p Hj Hx Hp. rewrite length_take in Hj.
  pose proof (parent_lt j ltac:(lia)).
  rewrite lookup_take_lt in Hx, Hp by lia. apply (Hup j x p); [lia|done..].
Qed.

Lemma is_heap_ext (comp' : A → A → bool) l :
  (∀ x y, x ∈ l → y ∈ l → comp' x y = comp x y) → is_heap comp l → is_heap comp' l.
Proof.
  intros Hext Hh j x p Hj Hx Hp. rewrite Hext; [by apply (Hh j x p)|..];
    by eapply list_elem_of_lookup_2.
Qed.

End HeapOrder.

(** ** The refiner takes the longest edge *)

Section LongestFacts.
Context `{Numeric}.
Hypothesis flen_swo : strict_weak flen_ltb.

Lemma compareEdgePtr_swo st : strict_weak (compareEdgePtr st).
Proof.
  destruct flen_swo as [Ha Hn]. unfold compareEdgePtr. split.
  - intros x y. apply Ha.
  - intros x y z. apply Hn.
Qed.

Lemma deref_alter_length (st : list Edge) pv1 pv2 fid ty h x :
  length_ (deref (alter (λ e, Edge_addFace e pv1 pv2 fid ty) h st) x) = length_ (deref st x).
Proof.
  unfold deref. rewrite !nth_lookup.
  destruct (decide (x = h)) as [->|Hne].
  - rewrite list_lookup_alter_eq. destruct (st !! h) as [e|]; [|done]. simpl.
    unfold Edge_addFace. by case_bool_decide.
  - by rewrite list_lookup_alter_ne.
Qed.

Lemma addFaceEdge_heap_ok em pv1 pv2 fid ty len :
  heap_ok em → heap_ok (addFaceEdge em pv1 pv2 fid ty len).
Proof.
  intros [Hv Hh]. unfold addFaceEdge.
  destruct (emap em !! EdgeKey pv1 pv2) as [h|]; cbv zeta; split; simpl.
  - intros h' Hin. rewrite length_alter. by apply Hv.
  - eapply is_heap_ext; [|exact Hh]. intros x y _ _. unfold compareEdgePtr.
    by rewrite !deref_alter_length.
  - intros h'. rewrite push_heap_Permutation, elem_of_app, list_elem_of_singleton, length_app.
    simpl. intros [Hin| ->]; [specialize (Hv _ Hin)|]; lia.
  - apply push_heap_heap; [apply compareEdgePtr_swo|].
    eapply is_heap_ext; [|exact Hh]. intros x y Hx Hy. unfold compareEdgePtr, deref.
    rewrite !app_nth1; [done|by apply Hv..].
Qed.

Lemma addFaceEdges_heap_ok em mesh fid : heap_ok em → heap_ok (addFaceEdges em mesh fid).
Proof.
  intros Hh. unfold addFaceEdges. cbv zeta. by do 3 apply addFaceEdge_heap_ok.
Qed.

Lemma pop_top_edge_heap_ok em : heap_ok em → heap_ok (pop_top_edge em).2.
Proof.
  intros [Hv Hh]. unfold pop_top_edge. cbv zeta. cbn [snd store heap]. split.
  - intros h Hin. apply Hv. unfold pop_back in Hin.
    apply elem_of_take in Hin as (i & Hi & _).
    apply list_elem_of_lookup_2 in Hi. by rewrite pop_heap_Permutation in Hi.
  - apply pop_heap_heap; [apply compareEdgePtr_swo|done].
Qed.

Lemma pop_top_edge_longest em h :
  heap_ok em → h ∈ heap em →
  flen_ltb (length_ (pop_top_edge em).1) (length_ (deref (store em) h)) = false.
Proof.
  intros [Hv Hh] Hin. unfold pop_top_edge. cbv zeta. cbn [fst].
  destruct (heap em) as [|h0 hp] eqn:Eh; [by apply elem_of_nil in Hin|]. cbn [nth].
  apply list_elem_of_lookup_1 in Hin as [i Hi].
  apply (heap_top_max (compareEdgePtr (store em)) (compareEdgePtr_swo _) (h0 :: hp) Hh i h0 h);
    [done|done].
Qed.

Lemma refine_step_heap_ok st : heap_ok st.2 → heap_ok (refine_step st).2.
Proof.
  destruct st as [mesh em]. cbn [snd]. intros Hh. unfold refine_step.
  pose proof (pop_top_edge_heap_ok em Hh) as Hp.
  destruct (pop_top_edge em) as [e0 em1]. cbn [snd] in Hp.
  set (mesh1 := mkMesh _ _ _). clearbody mesh1.
  assert (Hsplit : ∀ (s : Mesh * EdgeMap) fid ty vid,
            heap_ok s.2 → heap_ok (splitEdge s fid ty vid).2).
  { intros [m e] fid ty vid He. cbn [snd] in He.
    destruct (splitEdge_shape m e fid ty vid) as (_ & _ & ->).
    by do 2 apply addFaceEdges_heap_ok. }
  destruct (bool_decide (0 ≤ f1 e0)); destruct (bool_decide (0 ≤ f2 e0)); cbn [fst snd];
    repeat apply Hsplit; done.
Qed.

Lemma refine_init_heap_ok m : heap_ok (refine_init m).
Proof.
  unfold refine_init. generalize (seq 0 (length (faces m))). intros l.
  assert (Hfold : ∀ em, heap_ok em →
            heap_ok (foldl (λ em i, addFaceEdges em m (Z.of_nat i)) em l)).
  { induction l as [|i l IH]; intros em He; [done|]. cbn [foldl]. apply IH.
    by apply addFaceEdges_heap_ok. }
  apply Hfold. split; simpl.
  - intros h Hin. by apply elem_of_nil in Hin.
  - intros j x p Hj. simpl in Hj. lia.
Qed.

(** [refine] takes the longest edge first: in every state its main loop
    reaches, the record the next round takes from the heap has a length
    that none of the records in the heap exceeds.  The comparison of
    lengths is taken to be a strict weak ordering. *)
Theorem refine_longest_first m N st :
  rtc (loop_step N) (m, refine_init m) st →
  ∀ h, h ∈ heap st.2 →
    flen_ltb (length_ (pop_top_edge st.2).1) (length_ (deref (store st.2) h)) = false.
Proof.
  intros Hr h Hin. apply pop_top_edge_longest; [|done]. clear h Hin.
  assert (Hgen : ∀ s, rtc (loop_step N) s st → heap_ok s.2 → heap_ok st.2).
  { clear Hr. intros s Hr. induction Hr as [|s s' s'' [_ ->] _ IH]; [done|].
    intros Hs. apply IH. by apply refine_step_heap_ok. }
  apply (Hgen _ Hr). apply refine_init_heap_ok.
Qed.

End LongestFacts.

(** ** Decimal digits and the header of a written file *)

Ltac eval_digit :=
  match goal with
  | |- context [isdigit ?ch] =>
      let v := eval vm_compute in (isdigit ch) in change (isdigit ch) with v
  end;
  match goal with
  | |- context [digit_val ?ch] =>
      let v := eval vm_compute in (digit_val ch) in change (digit_val ch) with v
  end;
  change (list_ascii_of_string ?s) with (chars s).

Lemma read_digits_uint_acc d : ∀ acc rest,
  stops rest →
  read_digits (Zpos acc) (chars (NilEmpty.string_of_uint d) ++ rest)
  = (Zpos (Pos.of_uint_acc d acc), rest).
Proof.
  induction d; intros acc rest Hr;
    cbn [NilEmpty.string_of_uint chars list_ascii_of_string app read_digits Pos.of_uint_acc].
  { destruct rest as [|ch rest]; [done|]. simpl in Hr. cbn [read_digits]. by rewrite Hr. }
  all: eval_digit; rewrite <- IHd by done; f_equal; lia.
Qed.

Lemma read_digits_uint d : ∀ rest,
  stops rest →
  read_digits 0 (chars (NilEmpty.string_of_uint d) ++ rest)
  = (Z.of_N (Pos.of_uint d), rest).
Proof.
  induction d; intros rest Hr;
    cbn [NilEmpty.string_of_uint chars list_ascii_of_string app read_digits Pos.of_uint].
  { destruct rest as [|ch rest]; [done|]. simpl in Hr. cbn [read_digits]. by rewrite Hr. }
  { eval_digit. by apply IHd. }
  all: eval_digit; cbn [Z.of_N]; rewrite <- read_digits_uint_acc by done; reflexivity.
Qed.

Lemma show_uint_head n :
  ∃ ch s, show_uint n = ch :: s ∧ isdigit ch = true
          ∧ isspace ch = false ∧ Ascii.eqb ch "-" = false ∧ Ascii.eqb ch "+" = false.
Proof.
  unfold show_uint.
  assert (Hnn : N.to_uint (Z.to_N n) ≠ Decimal.Nil).
  { destruct (Z.to_N n); [done|]. apply DecimalPos.Unsigned.to_uint_nonnil. }
  destruct (N.to_uint (Z.to_N n)); [done|..];
    cbn [NilEmpty.string_of_uint chars list_ascii_of_string]; eexists _, _;
    (split; [reflexivity|by vm_compute]).
Qed.

Lemma read_digits_show_uint n rest :
  0 ≤ n → stops rest → read_digits 0 (show_uint n ++ rest) = (n, rest).
Proof.
  intros Hn Hr. unfold show_uint. rewrite read_digits_uint by done.
  change (Pos.of_uint ?d) with (N.of_uint d).
  rewrite DecimalN.Unsigned.of_to. f_equal. lia.
Qed.

Lemma read_dec_show_uint n rest :
  0 ≤ n → stops rest → read_dec (show_uint n ++ rest) = Some (n, rest).
Proof.
  intros Hn Hr. pose proof (read_digits_show_uint n rest Hn Hr) as Hd.
  destruct (show_uint_head n) as (ch & s & Hs & Hdig & _ & Hm & Hp).
  rewrite Hs in *. unfold read_dec. cbn [app]. rewrite Hm, Hp, Hdig.
  cbn [app] in Hd. by rewrite Hd.
Qed.

Lemma skipws_blank ws s : blank ws → skipws (ws ++ s) = skipws s.
Proof.
  induction 1 as [|ch ws Hch _ IH]; [done|]. cbn [app skipws]. by rewrite Hch.
Qed.

Lemma skipws_show_uint n rest : skipws (show_uint n ++ rest) = show_uint n ++ rest.
Proof.
  destruct (show_uint_head n) as (ch & s & Hs & _ & Hsp & _).
  rewrite Hs. cbn [app skipws]. by rewrite Hsp.
Qed.

Lemma read_int_show_uint ws n rest :
  blank ws → 0 ≤ n ≤ int_max → stops rest →
  read_int (ws ++ show_uint n ++ rest) = Some (n, rest).
Proof.
  intros Hws Hn Hr. unfold read_int.
  rewrite skipws_blank, skipws_show_uint, read_dec_show_uint by (done || lia).
  rewrite bool_decide_eq_true_2; [done|]. unfold int_min. lia.
Qed.

Lemma isdigit_not ch x : isdigit ch = true → isdigit x = false → Ascii.eqb ch x = false.
Proof.
  intros Hd Hx. destruct (Ascii.eqb_spec ch x) as [->|]; [congruence|done].
Qed.

Lemma show_uint_digits n : Forall (λ ch, isdigit ch = true) (show_uint n).
Proof.
  unfold show_uint. induction (N.to_uint (Z.to_N n));
    cbn [NilEmpty.string_of_uint chars list_ascii_of_string]; constructor; done.
Qed.

Lemma show_uint_nonl n : nonl (show_uint n).
Proof.
  eapply Forall_impl; [apply show_uint_digits|]. intros ch Hd. by apply isdigit_not.
Qed.

Lemma show_uint_nonul n : nonul (show_uint n).
Proof.
  eapply Forall_impl; [apply show_uint_digits|]. intros ch Hd. by apply isdigit_not.
Qed.

Lemma getline_line line rest : nonl line → getline (line ++ eol ++ rest) = (line, Some rest).
Proof.
  induction 1 as [|ch line Hch _ IH]; [done|].
  cbn [app getline]. rewrite Hch. cbn [app] in IH. by rewrite IH.
Qed.

Lemma c_str_id s : nonul s → c_str s = s.
Proof.
  induction 1 as [|ch s Hch _ IH]; [done|]. cbn [c_str]. by rewrite Hch, IH.
Qed.

Lemma read_header_line fuel line rest nvert ntris :
  nonl line →
  read_header (S fuel) (line ++ eol ++ rest) nvert ntris =
  let nvert := default nvert (scan_element "vertex" line) in
  let ntris := default ntris (scan_element "face" line) in
  if bool_decide (line = chars "end_header") then Ok (nvert, ntris, rest)
  else read_header fuel rest nvert ntris.
Proof.
  intros Hl. cbn [read_header]. rewrite getline_line by done.
  destruct (line ++ eol ++ rest) eqn:E; [|done].
  by destruct line.
Qed.

Lemma match_lit_app lit s : match_lit lit (lit ++ s) = Some s.
Proof.
  induction lit as [|ch lit IH]; [by destruct s|]. cbn [app match_lit].
  by rewrite Ascii.eqb_refl.
Qed.

Lemma match_lit_differ l lit ch s : Ascii.eqb l ch = false → match_lit (l :: lit) (ch :: s) = None.
Proof. intros Hd. cbn [match_lit]. by rewrite Hd. Qed.

Lemma skipws_space ch s : isspace ch = true → skipws (ch :: s) = skipws s.
Proof. intros Hs. cbn [skipws]. by rewrite Hs. Qed.

Lemma skipws_word ch s : isspace ch = false → skipws (ch :: s) = ch :: s.
Proof. intros Hs. cbn [skipws]. by rewrite Hs. Qed.

Lemma scan_element_count d n :
  nonul d → 0 ≤ n → d = show_uint n →
  scan_element "vertex" (chars "element vertex " ++ d) = Some (scan_int n)
  ∧ scan_element "face" (chars "element vertex " ++ d) = None
  ∧ scan_element "face" (chars "element face " ++ d) = Some (scan_int n)
  ∧ scan_element "vertex" (chars "element face " ++ d) = None.
Proof.
  intros Hd Hn Hs.
  assert (Hr : read_dec (skipws d) = Some (n, [])).
  { subst d. rewrite <- (app_nil_r (show_uint n)).
    by rewrite skipws_show_uint, read_dec_show_uint. }
  assert (Hnul : ∀ l, nonul l → nonul (l ++ d)) by (intros l Hl; by apply Forall_app).
  unfold scan_element.
  rewrite !c_str_id by (apply Hnul; repeat constructor).
  clear Hs Hnul Hd.
  change (chars "element vertex " ++ d)
    with (chars "element" ++ " "%char :: "v"%char :: (chars "ertex" ++ " "%char :: d)).
  change (chars "element face " ++ d)
    with (chars "element" ++ " "%char :: "f"%char :: (chars "ace" ++ " "%char :: d)).
  rewrite !match_lit_app. cbn [mbind option_bind].
  rewrite !(skipws_space " ") by done. rewrite (skipws_word "v"), (skipws_word "f") by done.
  change (chars "vertex") with ("v"%char :: chars "ertex").
  change (chars "face") with ("f"%char :: chars "ace").
  rewrite (match_lit_differ "f" _ "v"), (match_lit_differ "v" _ "f") by done.
  change ("v"%char :: chars "ertex" ++ " "%char :: d)
    with (("v"%char :: chars "ertex") ++ " "%char :: d).
  change ("f"%char :: chars "ace" ++ " "%char :: d)
    with (("f"%char :: chars "ace") ++ " "%char :: d).
  rewrite !match_lit_app. cbn [mbind option_bind].
  rewrite !(skipws_space " ") by done. rewrite Hr. done.
Qed.

Lemma read_header_saveAsPly fuel nv nf body :
  0 ≤ nv → 0 ≤ nf → (10 ≤ fuel)%nat →
  read_header fuel
    (chars "ply" ++ eol
     ++ chars "format ascii 1.0" ++ eol
     ++ chars "comment generated by window-mesh" ++ eol
     ++ (chars "element vertex " ++ show_uint nv) ++ eol
     ++ chars "property float x" ++ eol
     ++ chars "property float y" ++ eol
     ++ chars "property float z" ++ eol
     ++ (chars "element face " ++ show_uint nf) ++ eol
     ++ chars "property list uchar int vertex_indices" ++ eol
     ++ chars "end_header" ++ eol ++ body) (-1) (-1)
  = Ok (scan_int nv, scan_int nf, body).
Proof.
  intros Hnv Hnf Hfuel.
  do 10 (destruct fuel as [|fuel]; [lia|]). clear Hfuel.
  destruct (scan_element_count (show_uint nv) nv) as (Hv1 & Hv2 & _);
    [apply show_uint_nonul|done..|].
  destruct (scan_element_count (show_uint nf) nf) as (_ & _ & Hf1 & Hf2);
    [apply show_uint_nonul|done..|].
  rewrite read_header_line by (repeat constructor). cbv zeta.
  rewrite bool_decide_eq_false_2 by (by vm_compute).
  change (scan_element "vertex" (chars "ply")) with (@None Z).
  change (scan_element "face" (chars "ply")) with (@None Z). cbn [default from_option].
  rewrite read_header_line by (repeat constructor). cbv zeta.
  rewrite bool_decide_eq_false_2 by (by vm_compute).
  change (scan_element "vertex" (chars "format ascii 1.0")) with (@None Z).
  change (scan_element "face" (chars "format ascii 1.0")) with (@None Z).
  cbn [default from_option].
  rewrite read_header_line by (repeat constructor). cbv zeta.
  rewrite bool_decide_eq_false_2 by (by vm_compute).
  change (scan_element "vertex" (chars "comment generated by window-mesh")) with (@None Z).
  change (scan_element "face" (chars "comment generated by window-mesh")) with (@None Z).
  cbn [default from_option].
  rewrite read_header_line
    by (apply Forall_app; split; [repeat constructor|apply show_uint_nonl]).
  cbv zeta. rewrite Hv1, Hv2. cbn [default from_option].
  rewrite bool_decide_eq_false_2 by (intros Heq; discriminate Heq).
  rewrite read_header_line by (repeat constructor). cbv zeta.
  rewrite bool_decide_eq_false_2 by (by vm_compute).
  change (scan_element "vertex" (chars "property float x")) with (@None Z).
  change (scan_element "face" (chars "property float x")) with (@None Z).
  cbn [default from_option].
  rewrite read_header_line by (repeat constructor). cbv zeta.
  rewrite bool_decide_eq_false_2 by (by vm_compute).
  change (scan_element "vertex" (chars "property float y")) with (@None Z).
  change (scan_element "face" (chars "property float y")) with (@None Z).
  cbn [default from_option].
  rewrite read_header_line by (repeat constructor). cbv zeta.
  rewrite bool_decide_eq_false_2 by (by vm_compute).
  change (scan_element "vertex" (chars "property float z")) with (@None Z).
  change (scan_element "face" (chars "property float z")) with (@None Z).
  cbn [default from_option].
  rewrite read_header_line
    by (apply Forall_app; split; [repeat constructor|apply show_uint_nonl]).
  cbv zeta. rewrite Hf1, Hf2. cbn [default from_option].
  rewrite bool_decide_eq_false_2 by (intros Heq; discriminate Heq).
  rewrite read_header_line by (repeat constructor). cbv zeta.
  rewrite bool_decide_eq_false_2 by (by vm_compute).
  change (scan_element "vertex" (chars "property list uchar int vertex_indices")) with (@None Z).
  change (scan_element "face" (chars "property list uchar int vertex_indices")) with (@None Z).
  cbn [default from_option].
  rewrite read_header_line by (repeat constructor). cbv zeta.
  rewrite bool_decide_eq_true_2 by done.
  change (scan_element "vertex" (chars "end_header")) with (@None Z).
  change (scan_element "face" (chars "end_header")) with (@None Z).
  done.
Qed.

(** ** Reading what [saveAsPly] wrote *)

(** ** Well-formed headers *)

Lemma scan_int_small n : int_min ≤ n ≤ int_max → scan_int n = n.
Proof.
  unfold int_min, int_max, scan_int, to_int, long_min, long_max. intros Hn.
  rewrite Z.min_r, Z.max_r by lia. rewrite Z.mod_small; lia.
Qed.

Lemma match_lit_Some lit : ∀ s r, match_lit lit s = Some r → s = lit ++ r.
Proof.
  induction lit as [|ch lit IH]; intros s r; cbn [match_lit].
  - by intros [= <-].
  - destruct s as [|x s]; [done|]. destruct (Ascii.eqb_spec ch x) as [->|]; [|done].
    intros Hm. cbn [app]. f_equal. by apply IH.
Qed.

Lemma c_str_prefix s : c_str s `prefix_of` s.
Proof.
  induction s as [|ch s IH]; [done|]. cbn [c_str].
  destruct (Ascii.eqb ch zero); [apply prefix_nil|]. by apply prefix_cons.
Qed.

(** A line that does not begin with [element] declares no count. *)
Lemma scan_element_other kind l :
  ¬ (chars "element" `prefix_of` l) → scan_element kind l = None.
Proof.
  intros Hp. unfold scan_element.
  destruct (match_lit (chars "element") (c_str l)) as [r|] eqn:E; [|done].
  exfalso. apply Hp. apply match_lit_Some in E.
  transitivity (c_str l); [|apply c_str_prefix]. rewrite E. by apply prefix_app_r.
Qed.

Lemma header_line_scan h :
  header_line_ok h →
  let l := header_line_text h in
  nonl l ∧ l ≠ chars "end_header"
  ∧ scan_element "vertex" l = match h with ElementVertex n => Some n | _ => None end
  ∧ scan_element "face" l = match h with ElementFace n => Some n | _ => None end.
Proof.
  destruct h as [n|n|l]; cbn [header_line_ok header_line_text]; intros Hn.
  - destruct (scan_element_count (show_uint n) n) as (Hv1 & Hv2 & _);
      [apply show_uint_nonul|lia|done|].
    rewrite scan_int_small in Hv1 by (unfold int_min; lia).
    split_and!; [|done|done|done].
    apply Forall_app. split; [repeat constructor|apply show_uint_nonl].
  - destruct (scan_element_count (show_uint n) n) as (_ & _ & Hf1 & Hf2);
      [apply show_uint_nonul|lia|done|].
    rewrite scan_int_small in Hf1 by (unfold int_min; lia).
    split_and!; [|done|done|done].
    apply Forall_app. split; [repeat constructor|apply show_uint_nonl].
  - destruct Hn as (Hl & Hp & He). split_and!; [done|done|..]; by apply scan_element_other.
Qed.

Lemma header_text_length hs : (length hs < length (header_text hs))%nat.
Proof.
  induction hs as [|h hs IH]; cbn [header_text foldr]; [simpl; lia|].
  fold (header_text hs). rewrite !length_app. simpl. lia.
Qed.

(** The header loop reads a well-formed header to its end and returns the
    counts declared. *)
Lemma read_header_text hs : ∀ fuel nv nf body,
  Forall header_line_ok hs → (length hs < fuel)%nat →
  read_header fuel (header_text hs ++ body) nv nf
  = Ok (default nv (declared_vertices hs), default nf (declared_faces hs), body).
Proof.
  induction hs as [|h hs IH]; intros fuel nv nf body Hok Hfuel;
    (destruct fuel as [|fuel]; [simpl in Hfuel; lia|]).
  - cbn [header_text foldr]. rewrite <- app_assoc.
    rewrite read_header_line by (repeat constructor). cbv zeta.
    rewrite bool_decide_eq_true_2 by done.
    change (scan_element "vertex" (chars "end_header")) with (@None Z).
    change (scan_element "face" (chars "end_header")) with (@None Z). done.
  - apply Forall_cons in Hok as [Hh Hok].
    destruct (header_line_scan h Hh) as (Hl & He & Hv & Hf).
    cbn [header_text foldr]. fold (header_text hs). rewrite <- !app_assoc.
    rewrite read_header_line by done. cbv zeta.
    rewrite bool_decide_eq_false_2 by done.
    rewrite IH by (done || simpl in Hfuel; lia). rewrite Hv, Hf.
    cbn [declared_vertices declared_faces].
    destruct (declared_vertices hs), (declared_faces hs), h; done.
Qed.

Lemma declared_vertices_ok hs n :
  Forall header_line_ok hs → declared_vertices hs = Some n → 0 ≤ n ≤ int_max.
Proof.
  induction 1 as [|h hs Hh _ IH]; [done|]. cbn [declared_vertices].
  destruct (declared_vertices hs); [by auto|].
  destruct h; [|done..]. by intros [= <-].
Qed.

Lemma declared_faces_ok hs n :
  Forall header_line_ok hs → declared_faces hs = Some n → 0 ≤ n ≤ int_max.
Proof.
  induction 1 as [|h hs Hh _ IH]; [done|]. cbn [declared_faces].
  destruct (declared_faces hs); [by auto|].
  destruct h; [done| |done]. by intros [= <-].
Qed.

Section LoadPlyContract.
Context `{StreamNum}.

(** C9: [loadPly] fails when no line scanned by the header loop declares a
    vertex count, or none declares a face count; it fails when a face
    record read begins with a number other than 3; and for a well-formed
    file, a header of lines ended by [end_header] that declares both
    counts, followed by a body that reads as that many points and records
    [3 a b c], it returns these points and triangles in file order. *)
Theorem loadPly_contract :
  (∀ s,
     Forall (λ l, scan_element "vertex" l = None) (header_lines s)
     ∨ Forall (λ l, scan_element "face" l = None) (header_lines s) →
     loadPly (Some s) = Error UnknownFormat ∨ loadPly (Some s) = Error StreamFailure)
  ∧ (∀ s nvert ntris body mesh1 s1 k mesh2 s2 n s3,
       read_header (S (length s)) s (-1) (-1) = Ok (nvert, ntris, body) →
       0 ≤ nvert → 0 ≤ ntris →
       load_points (Z.to_nat nvert) body emptyMesh = Ok (mesh1, s1) →
       (k < Z.to_nat ntris)%nat →
       load_triangles k s1 mesh1 = Ok (mesh2, s2) →
       read_int s2 = Some (n, s3) → n ≠ 3 →
       loadPly (Some s) = Error NotTriangle ∨ loadPly (Some s) = Error StreamFailure)
  ∧ (∀ hs nvert ntris body vs s1 ts s2,
       Forall header_line_ok hs →
       declared_vertices hs = Some nvert → declared_faces hs = Some ntris →
       read_points (Z.to_nat nvert) body = Some (vs, s1) →
       read_triangles (Z.to_nat ntris) s1 = Some (ts, s2) →
       loadPly (Some (header_text hs ++ body)) = Ok (mkMesh vs [] (map triangle_face ts))
       ∧ Z.of_nat (length vs) = nvert ∧ Z.of_nat (length ts) = ntris).
Proof.
  split_and!.
  - intros s Hnone. unfold loadPly.
    destruct (read_header_spec (S (length s)) s (-1) (-1)) as [->|[rest ->]];
      [lia|by right|].
    destruct (scan_counts (header_lines s) (-1) (-1)) as [nv nt] eqn:E.
    left. rewrite bool_decide_eq_true_2; [done|].
    destruct Hnone as [Hv|Hf].
    + left. pose proof (scan_counts_none_vertex _ (-1) (-1) Hv) as Hs.
      rewrite E in Hs. simpl in Hs. lia.
    + right. pose proof (scan_counts_none_face _ (-1) (-1) Hf) as Hs.
      rewrite E in Hs. simpl in Hs. lia.
  - intros s nvert ntris body mesh1 s1 k mesh2 s2 n s3 Hh Hnv Hnt Hp Hk Ht Hr Hn.
    unfold loadPly. rewrite Hh, bool_decide_eq_false_2 by lia. rewrite Hp.
    replace (Z.to_nat ntris) with (k + S (Z.to_nat ntris - S k))%nat by lia.
    rewrite load_triangles_app, Ht.
    destruct (load_triangles_bad (Z.to_nat ntris - S k) s2 mesh2 n s3 Hr Hn) as [->| ->];
      auto.
  - intros hs nvert ntris body vs s1 ts s2 Hok Hdv Hdf Hp Ht.
    pose proof (declared_vertices_ok hs nvert Hok Hdv) as Hnv.
    pose proof (declared_faces_ok hs ntris Hok Hdf) as Hnt.
    unfold loadPly. rewrite read_header_text.
    2: done.
    2: { pose proof (header_text_length hs). rewrite length_app. lia. }
    rewrite Hdv, Hdf. cbn [default from_option]. unfold id.
    rewrite bool_decide_eq_false_2 by lia.
    destruct (load_points_read _ _ emptyMesh _ _ Hp) as [-> Hlv].
    destruct (load_triangles_read _ _ (mkMesh ([] ++ vs) [] []) _ _ Ht) as [Hl Hlt].
    cbn [vertices tCoords faces emptyMesh] in *. rewrite Hl. cbn.
    split_and!; [done|lia|lia].
Qed.

End LoadPlyContract.

Section PlyRoundTrip.
Context `{StreamNum} `{!StreamOut}.

Lemma saveAsPly_text mesh :
  saveAsPly mesh =
  chars "ply" ++ eol
  ++ chars "format ascii 1.0" ++ eol
  ++ chars "comment generated by window-mesh" ++ eol
  ++ (chars "element vertex " ++ show_uint (vsize mesh)) ++ eol
  ++ chars "property float x" ++ eol
  ++ chars "property float y" ++ eol
  ++ chars "property float z" ++ eol
  ++ (chars "element face " ++ show_uint (validFaces mesh)) ++ eol
  ++ chars "property list uchar int vertex_indices" ++ eol
  ++ chars "end_header" ++ eol
  ++ concat (map ply_vertex_line (vertices mesh))
  ++ concat (map ply_face_line (ply_faces mesh)).
Proof.
  unfold saveAsPly, ply_faces. generalize (faces mesh). intros fs.
  assert (Hv : ∀ vs out,
    foldl (λ out vertex,
             out ++ show_double vertex.1.1 ++ chars " " ++ show_double vertex.1.2
                 ++ chars " " ++ show_double vertex.2 ++ eol) out vs
    = out ++ concat (map ply_vertex_line vs)).
  { induction vs as [|v vs IH]; intros out; [by rewrite app_nil_r|].
    cbn [foldl map concat]. rewrite IH. unfold ply_vertex_line. by rewrite <- ?app_assoc. }
  assert (Hf : ∀ out,
    foldl (λ out face,
             if degenerate face then out
             else if negb (good mesh face) then out
             else out ++ chars "3 " ++ show_uint (a face) ++ chars " " ++ show_uint (b face)
                      ++ chars " " ++ show_uint (c face) ++ eol) out fs
    = out ++ concat (map ply_face_line
                         (filter (λ f, degenerate f = false ∧ good mesh f = true) fs))).
  { induction fs as [|f fs IH]; intros out; [by rewrite app_nil_r|].
    cbn [foldl]. rewrite IH, filter_cons.
    destruct (degenerate f) eqn:Ed.
    - rewrite decide_False by (intros [? _]; done). done.
    - destruct (good mesh f) eqn:Eg; cbn [negb].
      + rewrite decide_True by done. cbn [map concat]. unfold ply_face_line.
        by rewrite <- ?app_assoc.
      + rewrite decide_False by (intros [_ ?]; done). done. }
  rewrite Hf, Hv. by rewrite <- ?app_assoc.
Qed.

Lemma validFaces_count mesh :
  fsize mesh < 2 ^ 32 → validFaces mesh = Z.of_nat (length (ply_faces mesh)).
Proof.
  unfold validFaces, ply_faces, fsize. generalize (faces mesh). intros fs.
  induction fs as [|f fs IH] using rev_ind; intros Hlen; [done|].
  rewrite length_app in Hlen. cbn [length] in Hlen.
  rewrite foldl_app, filter_app, length_app. cbn [foldl]. rewrite IH by lia.
  pose proof (length_filter (λ f, degenerate f = false ∧ good mesh f = true) fs).
  rewrite filter_cons, filter_nil.
  destruct (degenerate f) eqn:Ed; cbn [negb andb].
  - rewrite decide_False by (intros [? _]; done). simpl. lia.
  - destruct (good mesh f) eqn:Eg.
    + rewrite decide_True by done. simpl. rewrite Z.mod_small; lia.
    + rewrite decide_False by (intros [_ ?]; done). simpl. lia.
Qed.

Lemma blank_eol : blank eol.
Proof. by repeat constructor. Qed.

Lemma blank_space : blank (chars " ").
Proof. by repeat constructor. Qed.

Lemma space_app s : chars " " ++ s = " "%char :: s.
Proof. done. Qed.

Lemma eol_app s : eol ++ s = "010"%char :: s.
Proof. done. Qed.

Lemma read_points_text vs : ∀ ws rest,
  blank ws → Forall point_reads_back vs →
  ∃ ws', blank ws'
    ∧ read_points (length vs) (ws ++ concat (map ply_vertex_line vs) ++ rest)
      = Some (vs, ws' ++ rest).
Proof.
  induction vs as [|[[x y] z] vs IH]; intros ws rest Hws Hvs.
  - exists ws. by split.
  - apply Forall_cons in Hvs as [(Hx & Hy & Hz) Hvs]. cbn [fst snd] in Hx, Hy, Hz.
    destruct (IH eol rest blank_eol Hvs) as (ws' & Hws' & Hread).
    exists ws'. split; [done|].
    assert (Hy' : ∀ r, read_double (" "%char :: show_double y ++ " "%char :: r)
                       = Some (y, " "%char :: r)).
    { intros r. apply (Hy (chars " ") " "%char r); [apply blank_space|done]. }
    assert (Hz' : ∀ r, read_double (" "%char :: show_double z ++ "010"%char :: r)
                       = Some (z, "010"%char :: r)).
    { intros r. apply (Hz (chars " ") "010"%char r); [apply blank_space|done]. }
    cbn [length read_points map concat]. unfold ply_vertex_line at 1. cbn [fst snd].
    rewrite <- !app_assoc.
    rewrite !space_app, eol_app.
    rewrite (Hx ws " "%char) by done. cbn [mbind option_bind].
    rewrite Hy'. cbn [mbind option_bind].
    rewrite Hz'. cbn [mbind option_bind].
    rewrite <- eol_app, Hread. done.
Qed.

Lemma read_triangles_text nv fs : ∀ ws rest,
  blank ws → nv ≤ int_max + 1 →
  Forall (λ f, 0 ≤ a f < nv ∧ 0 ≤ b f < nv ∧ 0 ≤ c f < nv) fs →
  ∃ ws', blank ws'
    ∧ read_triangles (length fs) (ws ++ concat (map ply_face_line fs) ++ rest)
      = Some (map (λ f, (a f, b f, c f)) fs, ws' ++ rest).
Proof.
  induction fs as [|f fs IH]; intros ws rest Hws Hnv Hfs.
  - exists ws. by split.
  - apply Forall_cons in Hfs as [(Ha & Hb & Hc) Hfs].
    destruct (IH eol rest blank_eol Hnv Hfs) as (ws' & Hws' & Hread).
    exists ws'. split; [done|].
    assert (Hi : ∀ n r, 0 ≤ n < nv → stops r →
                 read_int (" "%char :: show_uint n ++ r) = Some (n, r)).
    { intros n r Hn Hr. apply (read_int_show_uint (chars " ") n r); [apply blank_space|lia|done]. }
    cbn [length read_triangles map concat]. unfold ply_face_line at 1.
    rewrite <- !app_assoc.
    change (chars "3 " ++ ?s) with (show_uint 3 ++ " "%char :: s).
    rewrite !space_app, eol_app.
    rewrite (read_int_show_uint ws 3) by (done || (unfold int_max; lia)).
    cbn [mbind option_bind].
    do 3 (rewrite Hi by done; cbn [mbind option_bind]).
    rewrite bool_decide_eq_true_2 by done.
    rewrite <- eol_app, Hread. done.
Qed.

Lemma ply_faces_good mesh :
  Forall (λ f, 0 ≤ a f < vsize mesh ∧ 0 ≤ b f < vsize mesh ∧ 0 ≤ c f < vsize mesh)
         (ply_faces mesh).
Proof.
  apply Forall_forall. intros f [[_ Hg] _]%list_elem_of_filter.
  unfold good in Hg. apply andb_true_iff in Hg as [[Ha Hb]%andb_true_iff Hc].
  apply bool_decide_eq_true in Ha, Hb, Hc. done.
Qed.

(** A mesh written by [saveAsPly] is read by [loadPly]: the vertices come
    back, and the faces that are neither degenerate nor out of range, in
    their order, with the three vertex indices each; the texture
    coordinates, the texture indices and the tags do not.  The counts have
    to fit an [int], and each coordinate has to be read back from what is
    written for it. *)
Theorem loadPly_saveAsPly mesh :
  vsize mesh < 2 ^ 31 → fsize mesh < 2 ^ 31 →
  Forall point_reads_back (vertices mesh) →
  loadPly (Some (saveAsPly mesh))
  = Ok (mkMesh (vertices mesh) []
               (map (λ f, mkFace (a f) (b f) (c f) 0 0 0 0) (ply_faces mesh))).
Proof.
  intros Hnv Hnf Hvs.
  assert (Hcount : validFaces mesh = Z.of_nat (length (ply_faces mesh))).
  { apply validFaces_count. lia. }
  assert (Hle : (length (ply_faces mesh) ≤ length (faces mesh))%nat) by apply length_filter.
  unfold fsize, vsize in Hnv, Hnf.
  assert (Hint : ∀ n, 0 ≤ n < 2 ^ 31 → scan_int n = n).
  { intros n Hn. unfold scan_int, to_int, long_min, long_max.
    rewrite Z.min_r, Z.max_r by lia. rewrite Z.mod_small; lia. }
  rewrite saveAsPly_text. unfold loadPly.
  rewrite read_header_saveAsPly; [|unfold vsize; lia|lia|].
  2:{ rewrite !length_app. change (length (chars "format ascii 1.0")) with 16%nat. lia. }
  rewrite !Hint by (unfold vsize; lia).
  rewrite bool_decide_eq_false_2 by (unfold vsize; lia).
  destruct (read_points_text (vertices mesh) []
              (concat (map ply_face_line (ply_faces mesh))) (Forall_nil_2 _) Hvs)
    as (ws1 & Hws1 & Hpts).
  cbn [app] in Hpts.
  apply (load_points_read _ _ emptyMesh) in Hpts as [Hpts _].
  unfold vsize. rewrite Nat2Z.id, Hpts.
  destruct (read_triangles_text (vsize mesh) (ply_faces mesh) ws1 [] Hws1) as (ws2 & _ & Htris);
    [unfold vsize, int_max; lia|apply ply_faces_good|].
  rewrite app_nil_r in Htris.
  eapply load_triangles_read in Htris as [Htris _].
  rewrite Hcount, Nat2Z.id, Htris. cbn [vertices tCoords faces emptyMesh app].
  do 2 f_equal. rewrite <- list_fmap_compose.
  apply Forall_fmap_ext_1. eapply Forall_impl; [apply ply_faces_good|].
  intros f (Ha & Hb & Hc). unfold compose, triangle_face, to_index. cbn [fst snd].
  unfold vsize in *. rewrite !Z.mod_small by lia. done.
Qed.

End PlyRoundTrip.

Section LoadPlyExtra.
Context `{StreamNum}.

Lemma load_points_untextured n : ∀ s mesh mesh' s',
  load_points n s mesh = Ok (mesh', s') → untextured mesh → untextured mesh'.
Proof.
  induction n as [|n IH]; intros s mesh mesh' s' Hl Hm; cbn [load_points] in Hl.
  - by injection Hl as <- _.
  - repeat case_match; try done. by eapply IH.
Qed.

Lemma load_triangles_untextured n : ∀ s mesh mesh' s',
  load_triangles n s mesh = Ok (mesh', s') → untextured mesh → untextured mesh'.
Proof.
  induction n as [|n IH]; intros s mesh mesh' s' Hl Hm; cbn [load_triangles] in Hl.
  - by injection Hl as <- _.
  - repeat case_match; try done. eapply IH; [done|].
    destruct Hm as [Ht Hf]. split; [done|].
    cbn [addFace3 faces]. apply Forall_app. split; [done|]. by repeat constructor.
Qed.

(** A mesh read by [loadPly] has no texture coordinates, and its faces have
    the value-initialised texture indices and tag: the file format of the
    loader has neither. *)
Theorem loadPly_untextured file mesh :
  loadPly file = Ok mesh → untextured mesh.
Proof.
  unfold loadPly. intros Hl. repeat case_match; try done. injection Hl as <-.
  eapply load_triangles_untextured; [done|].
  eapply load_points_untextured; [done|]. by split.
Qed.

End LoadPlyExtra.

(** ** The instances on the rationals *)

Lemma isspace_stops sep rest : isspace sep = true → stops (sep :: rest).
Proof.
  unfold stops, isspace, isdigit. generalize (Z.of_N (N_of_ascii sep)). intros n Hs.
  apply orb_true_iff in Hs as [Hs|[H1 H2]%andb_true_iff]; apply andb_false_iff; lia.
Qed.

Lemma Q_reads_back (v : Z) : reads_back (inject_Z v).
Proof.
  intros ws sep rest Hws Hsep. pose proof (isspace_stops sep rest Hsep) as Hstop.
  cbn [read_double show_double Q_StreamNum Q_StreamOut inject_Z Qnum Qden Pos.eqb].
  rewrite app_nil_r, skipws_blank by done. unfold show_int.
  destruct (Z.ltb_spec v 0) as [Hneg|Hpos].
  - cbn [app skipws]. change (isspace "-") with false. cbv iota.
    unfold read_dec. change (Ascii.eqb "-" "-") with true. cbv iota.
    pose proof (read_digits_show_uint (- v) (sep :: rest) ltac:(lia) Hstop) as Hd.
    destruct (show_uint_head (- v)) as (ch & s & Hs & Hdig & _).
    rewrite Hs in *. cbn [app] in *. rewrite Hdig, Hd. do 2 f_equal.
    unfold inject_Z. f_equal. lia.
  - rewrite skipws_show_uint, read_dec_show_uint by done. done.
Qed.

(** ** Evaluation on concrete inputs *)

(** Scenario 1 of the spec: the triangle cut by [x <= 1] gives two
    triangles over four welded vertices, two of them new. *)
Example clip_scenario_1 :
  clip tri_mesh half_box =
  mkMesh [QP 1 1 0; QP 0 2 0; QP 0 0 0; QP 1 0 0] []
         [mkFace 0 1 2 0 0 0 0; mkFace 0 2 3 0 0 0 0].
Proof. vm_compute. reflexivity. Qed.

(** Scenario 2 of the spec: one split, on the longest edge (1, 2); the face
    kept in place and the appended half share the midpoint, vertex 3. *)
Example refine_scenario_2 :
  refine tri_mesh 2 =
  Some (mkMesh [QP 0 0 0; QP 2 0 0; QP 0 2 0; QP 1 1 0]
               [(0%Q, 0%Q); (1%Q, 0%Q); (0%Q, 1%Q); ((1 # 2)%Q, (1 # 2)%Q)]
               [mkFace 0 1 3 0 1 3 7; mkFace 2 0 3 2 0 3 0]).
Proof. vm_compute. reflexivity. Qed.

(** Scenario 3 of the spec: the three faces go, the arrays stay. *)
Example removeNonManifoldEdges_scenario_3 :
  removeNonManifoldEdges fan_mesh = mkMesh (vertices fan_mesh) [] [].
Proof. vm_compute. reflexivity. Qed.

(** A mesh without texture coordinates: the texture index of the halves is
    [tCoords.size()-1] wrapped, 2^64 - 1. *)
Example refine_no_texture :
  (λ m, faces m) <$> refine (mkMesh (vertices tri_mesh) [] (faces tri_mesh)) 2 =
  Some [mkFace 0 1 3 0 1 18446744073709551615 7;
        mkFace 2 0 3 2 0 18446744073709551615 0].
Proof. vm_compute. reflexivity. Qed.

(** C7 fails as stated: the one face of [tri_mesh] has tag 7 and is not
    marked, and the face returned has tag 0; the faces returned are not the
    unmarked faces of the input. *)
Lemma removeNonManifoldEdges_tag_counterexample :
  faces (removeNonManifoldEdges tri_mesh)
  ≠ filter (λ f, ¬ marked (faces tri_mesh) f) (faces tri_mesh).
Proof. vm_compute. discriminate. Qed.

(** C7 at a fan of three triangles and a triangle apart: the fan goes, the
    fourth face stays, its tag 5 reset. *)
Lemma removeNonManifoldEdges_frame_witness :
  int_indices (faces fan_wing_mesh)
  ∧ removeNonManifoldEdges fan_wing_mesh
    = mkMesh (vertices fan_wing_mesh) [] [mkFace 2 3 4 0 0 0 0].
Proof.
  assert (Hfit : int_indices (faces fan_wing_mesh)).
  { repeat constructor; simpl; unfold int_max; lia. }
  split; [exact Hfit|].
  etransitivity; [apply (removeNonManifoldEdges_frame fan_wing_mesh Hfit)|].
  vm_compute. reflexivity.
Defined.

(** Indices that do not fit an [int]: the third face has the key of the
    edge (0, 1) and the three faces go. *)
Example removeNonManifoldEdges_int_keys :
  removeNonManifoldEdges wide_mesh = mkMesh (vertices wide_mesh) [] [].
Proof. vm_compute. reflexivity. Qed.

(** Counts that do not fit an [int]. *)
Example scan_element_overflow :
  scan_element "vertex" (chars "element vertex 4294967301") = Some 5
  ∧ scan_element "vertex" (chars "element vertex 18446744073709551617") = Some (-1).
Proof. split; vm_compute; reflexivity. Qed.


(** C1 fails as stated: the triangle of scenario 1 with texture coordinates
    is cut by the plane [x <= 1], and the faces of the mesh returned denote
    no texture coordinate, [tCoords] being empty. *)
Lemma clip_texture_counterexample :
  tCoords tri_mesh ≠ []
  ∧ (clip_passes (clip_soup tri_mesh) (clip_planes half_box)).2 ≠ []
  ∧ faces (clip tri_mesh half_box) ≠ []
  ∧ ¬ carries_texture (clip tri_mesh half_box).
Proof.
  split_and!; try (vm_compute; discriminate).
  intros Hc. unfold carries_texture in Hc.
  assert (Hf : faces (clip tri_mesh half_box) = 
               [mkFace 0 1 2 0 0 0 0; mkFace 0 2 3 0 0 0 0]) by (vm_compute; reflexivity).
  assert (Ht : tCoords (clip tri_mesh half_box) = []) by (vm_compute; reflexivity).
  rewrite Hf, Ht in Hc. apply Forall_cons in Hc as [[[x Hx] _] _]. discriminate Hx.
Qed.

(** The triangle of scenario 1 satisfies the index invariant. *)
Lemma tri_mesh_inv : mesh_inv tri_mesh.
Proof.
  split.
  - repeat constructor; simpl; lia.
  - intros _. repeat constructor; simpl; lia.
Defined.

(** C10 at the triangle of scenario 1. *)
Lemma mesh_inv_preserved_witness :
  mesh_inv tri_mesh
  ∧ (∀ e, mesh_inv (clip tri_mesh e))
  ∧ mesh_inv (removeNonManifoldEdges tri_mesh)
  ∧ (∀ N, ∃ r, refine tri_mesh N = Some r ∧ mesh_inv r).
Proof.
  split; [exact tri_mesh_inv|].
  apply (mesh_inv_preserved tri_mesh tri_mesh_inv).
Defined.

(** C2 at the triangle of scenario 2, split across [BC] at vertex 3: the
    edge (2, 0), which belonged to face 0 as [CA], is linked to the new
    face 1 as its [AB]. *)
Lemma splitEdge_relinks_witness :
  edgeMap_ok (fsize tri_mesh4) (refine_init tri_mesh4)
  ∧ 0 ≤ 0 < fsize tri_mesh4
  ∧ let r := splitEdge (tri_mesh4, refine_init tri_mesh4) 0 BC 3 in
    ∃ e, edge_record r.2 2 0 = Some e ∧ slot e 2 0 = (1, AB).
Proof.
  assert (Hok : edgeMap_ok (fsize tri_mesh4) (refine_init tri_mesh4))
    by apply refine_init_ok.
  assert (Hfid : 0 ≤ 0 < fsize tri_mesh4) by (unfold fsize; simpl; lia).
  split; [exact Hok|]. split; [exact Hfid|]. intros r.
  destruct (splitEdge_relinks tri_mesh4 (refine_init tri_mesh4) 0 BC 3 Hok Hfid
              1 AB (or_intror eq_refl)) as (e & He & _ & _ & Hs).
  exists e. split; [exact He|].
  apply Hs; [reflexivity|discriminate|discriminate|discriminate].
Defined.

(** The text of the header. *)
Example header_text_example :
  header_text ply_header_lines
  = chars ("ply" ++ newline ++ "format ascii 1.0" ++ newline
           ++ "comment generated by window-mesh" ++ newline
           ++ "element vertex 3" ++ newline
           ++ "property float x" ++ newline ++ "property float y" ++ newline
           ++ "property float z" ++ newline
           ++ "element face 1" ++ newline
           ++ "property list uchar int vertex_indices" ++ newline
           ++ "end_header" ++ newline)%string.
Proof. vm_compute. reflexivity. Qed.

Lemma ply_header_lines_ok : Forall header_line_ok ply_header_lines.
Proof.
  repeat (apply Forall_cons; split); [..|apply Forall_nil];
    cbn [header_line_ok]; try (unfold int_max; lia);
    (split_and!; [repeat constructor|intros [k Hk]; vm_compute in Hk; discriminate
                 |vm_compute; discriminate]).
Qed.

(** C9 at three files: no face count, a quad record, and a triangle after
    the header above. *)
Lemma loadPly_contract_witness :
  (loadPly (Some ply_no_face_count) = Error UnknownFormat
   ∨ loadPly (Some ply_no_face_count) = Error StreamFailure)
  ∧ (loadPly (Some ply_quad) = Error NotTriangle
     ∨ loadPly (Some ply_quad) = Error StreamFailure)
  ∧ Forall header_line_ok ply_header_lines
  ∧ (200 < length (header_text ply_header_lines ++ ply_body))%nat
  ∧ loadPly (Some (header_text ply_header_lines ++ ply_body))
    = Ok (mkMesh [QP 0 0 0; QP 2 0 0; QP 0 2 0] [] [mkFace 0 1 2 0 0 0 0]).
Proof.
  destruct (loadPly_contract (H := Q_numeric)) as (Ha & Hb & Hc).
  split; [|split; [|split; [exact ply_header_lines_ok|split; [vm_compute; lia|]]]].
  - apply Ha. right.
    let ls := eval vm_compute in (header_lines ply_no_face_count) in
    change (header_lines ply_no_face_count) with ls.
    repeat (apply Forall_cons; split; [vm_compute; reflexivity|]). constructor.
  - apply (Hb ply_quad 1 1 (chars ("0 0 0" ++ newline ++ "4 0 1 2 3" ++ newline)%string)
              (mkMesh (H := Q_numeric) [QP 0 0 0] [] []) (chars (newline ++ "4 0 1 2 3" ++ newline)%string)
              0%nat (mkMesh (H := Q_numeric) [QP 0 0 0] [] []) (chars (newline ++ "4 0 1 2 3" ++ newline)%string)
              4 (chars (" 0 1 2 3" ++ newline)%string)).
    all: try (vm_compute; reflexivity); try lia.
  - apply (Hc ply_header_lines 3 1 ply_body
              [QP 0 0 0; QP 2 0 0; QP 0 2 0]
              (chars (newline ++ "3 0 1 2" ++ newline)%string)
              [(0, 1, 2)] (chars newline));
      [exact ply_header_lines_ok|vm_compute; reflexivity..].
Defined.

Lemma tri_mesh_proper : proper tri_mesh.
Proof.
  repeat constructor; unfold vsize; simpl; lia.
Qed.

Lemma tri_mesh_oriented : oriented tri_mesh ∧ simplicial tri_mesh.
Proof.
  split.
  - intros [g t] [g' t'] Hg Hg'. unfold fsize in *. cbn [fst snd] in *. simpl in Hg, Hg'.
    assert (g = 0) as -> by lia. assert (g' = 0) as -> by lia.
    destruct t, t'; cbn; intros [=]; done.
  - intros g g' Hg Hg' _. unfold fsize in *. simpl in Hg, Hg'. lia.
Qed.

Lemma Qltb_strict_weak : strict_weak Qltb.
Proof.
  unfold Qltb. split.
  - intros x y Hxy. apply Z.ltb_lt in Hxy. apply Z.ltb_ge. lia.
  - intros x y z Hxz. apply Z.ltb_lt in Hxz.
    destruct (Z.ltb_spec (Qnum x * Z.pos (Qden y)) (Qnum y * Z.pos (Qden x))) as [Hxy|Hxy];
      [by left|right].
    apply Z.ltb_lt. apply Z.nle_gt. intros Hzy.
    assert (Hle : (Qnum z * Z.pos (Qden x) ≤ Qnum x * Z.pos (Qden z))%Z).
    { assert (Hq1 : (z <= y)%Q) by (unfold Qle; lia).
      assert (Hq2 : (y <= x)%Q) by (unfold Qle; lia).
      pose proof (Qle_trans _ _ _ Hq1 Hq2) as Hq. unfold Qle in Hq. lia. }
    lia.
Qed.

(** The one triangle of scenario 1 is manifold and is returned, the tag 7
    reset. *)
Lemma removeNonManifoldEdges_manifold_fixed_witness :
  int_indices (faces tri_mesh) ∧ manifold (faces tri_mesh)
  ∧ removeNonManifoldEdges tri_mesh
    = mkMesh (vertices tri_mesh) (tCoords tri_mesh) [mkFace 0 1 2 0 1 2 0].
Proof.
  assert (Hfit : int_indices (faces tri_mesh)).
  { repeat constructor; simpl; unfold int_max; lia. }
  assert (Hm : manifold (faces tri_mesh)).
  { intros u v. unfold edge_faces.
    etransitivity; [apply length_filter|]. simpl. lia. }
  split; [exact Hfit|]. split; [exact Hm|].
  apply (removeNonManifoldEdges_manifold_fixed tri_mesh Hfit Hm).
Defined.

(** One face and a budget of one: nothing is done. *)
Lemma refine_nothing_to_do_witness :
  (1 ≤ fsize tri_mesh ∨ faces tri_mesh = []) ∧ refine tri_mesh 1 = Some tri_mesh.
Proof.
  assert (Hm : 1 ≤ fsize tri_mesh ∨ faces tri_mesh = []) by (left; reflexivity).
  split; [exact Hm|]. apply (refine_nothing_to_do tri_mesh 1 Hm).
Defined.

(** One face and a budget of two: one split of the boundary edge gives
    two faces. *)
Lemma refine_reaches_budget_witness :
  faces tri_mesh ≠ [] ∧ fsize tri_mesh ≤ 2
  ∧ ∃ r, refine tri_mesh 2 = Some r ∧ 2 ≤ fsize r ≤ 2 + 1.
Proof.
  assert (Hne : faces tri_mesh ≠ []) by discriminate.
  assert (Hle : fsize tri_mesh ≤ 2) by (unfold fsize; simpl; lia).
  split; [exact Hne|]. split; [exact Hle|].
  apply (refine_reaches_budget tri_mesh 2 Hne Hle).
Defined.

(** The round trip at the textured triangle of scenario 1: the texture
    coordinates and the tag 7 are not in the file. *)
Lemma loadPly_saveAsPly_witness :
  loadPly (Some (saveAsPly tri_mesh))
  = Ok (mkMesh [QP 0 0 0; QP 2 0 0; QP 0 2 0] [] [mkFace 0 1 2 0 0 0 0]).
Proof.
  apply (loadPly_saveAsPly tri_mesh).
  - reflexivity.
  - reflexivity.
  - repeat constructor; apply Q_reads_back.
Defined.

(** The triangle file of the loader's evaluation. *)
Lemma loadPly_untextured_witness :
  loadPly (Some ply_triangle)
  = Ok (mkMesh [QP 0 0 0; QP 2 0 0; QP 0 2 0] [] [mkFace 0 1 2 0 0 0 0])
  ∧ untextured (mkMesh [QP 0 0 0; QP 2 0 0; QP 0 2 0] [] [mkFace 0 1 2 0 0 0 0]).
Proof.
  assert (Hl : loadPly (Some ply_triangle)
               = Ok (mkMesh [QP 0 0 0; QP 2 0 0; QP 0 2 0] [] [mkFace 0 1 2 0 0 0 0]))
    by (vm_compute; reflexivity).
  split; [exact Hl|]. apply (loadPly_untextured _ _ Hl).
Defined.

(** The triangle of scenario 1, refined to two faces. *)
Lemma refine_subdivides_witness :
  proper tri_mesh ∧ ∃ r, refine tri_mesh 2 = Some r ∧ rtc bisect tri_mesh r.
Proof.
  split; [exact tri_mesh_proper|]. apply (refine_subdivides tri_mesh 2 tri_mesh_proper).
Defined.

(** The triangle of scenario 1, refined to five faces. *)
Lemma refine_proper_witness :
  proper tri_mesh ∧ ∃ r, refine tri_mesh 5 = Some r ∧ proper r.
Proof.
  split; [exact tri_mesh_proper|]. apply (refine_proper tri_mesh 5 tri_mesh_proper).
Defined.

(** The triangle of scenario 1, refined to five faces. *)
Lemma refine_watertight_witness :
  proper tri_mesh ∧ oriented tri_mesh ∧ simplicial tri_mesh
  ∧ ∃ r, refine tri_mesh 5 = Some r ∧ oriented r ∧ simplicial r
         ∧ rtc bisect_clean tri_mesh r.
Proof.
  split; [exact tri_mesh_proper|]. split; [exact (proj1 tri_mesh_oriented)|].
  split; [exact (proj2 tri_mesh_oriented)|].
  apply (refine_watertight tri_mesh 5 tri_mesh_proper
           (proj1 tri_mesh_oriented) (proj2 tri_mesh_oriented)).
Defined.

(** The triangle of scenario 1 after the first round of the loop. *)
Lemma refine_longest_first_witness :
  strict_weak Qltb
  ∧ rtc (loop_step 3) (tri_mesh, refine_init tri_mesh)
        (refine_step (tri_mesh, refine_init tri_mesh))
  ∧ ∀ h, h ∈ heap (refine_step (tri_mesh, refine_init tri_mesh)).2 →
      Qltb (length_ (pop_top_edge (refine_step (tri_mesh, refine_init tri_mesh)).2).1)
           (length_ (deref (store (refine_step (tri_mesh, refine_init tri_mesh)).2) h))
      = false.
Proof.
  assert (Hr : rtc (loop_step (H := Q_numeric) 3) (tri_mesh, refine_init tri_mesh)
                 (refine_step (tri_mesh, refine_init tri_mesh))).
  { apply rtc_once. split; [vm_compute; reflexivity|reflexivity]. }
  split; [exact Qltb_strict_weak|]. split; [exact Hr|].
  exact (refine_longest_first (H := Q_numeric) Qltb_strict_weak tri_mesh 3
           (refine_step (tri_mesh, refine_init tri_mesh)) Hr).
Defined.
